(** * pocketflow.js: the graph orchestrator of glim

    A shallow embedding of [src/pocketflow.js] and the properties of its
    retry loop ([Node._exec]), its batch steps ([BatchNode._exec],
    [ParallelBatchNode._exec]) and its graph traversal ([BaseNode.clone],
    [BaseNode.getNextNode], [Flow._orchestrate], [Flow._run],
    [BatchFlow._run]).  [ParallelBatchFlow], which runs whole traversals
    side by side on one shared context, is not part of it.  Two callers are
    embedded with it: [createYouTubeProcessorFlow] of [src/flow.js], which
    builds the pipeline of the application, and [extractVideoId] of
    [src/utils/youtubeProcessor.js], which the first step of the pipeline
    relies on.

    Conventions of the embedding.
    - JavaScript objects live in a store ([list obj], a reference is an
      index); [clone] allocates, [setParams] and the retry counter write.
    - A user subclass is an entry of a class table [impl]: which framework
      class it extends and its [prep], [exec], [post] and [execFallback].
      These read [this] and act on a world [W], which stands for everything
      user code can reach besides the node: the [shared] context that every
      phase of a run receives, closures, the network.  They do not assign to
      the fields of [this].
    - Every call of a user method, every [setTimeout] sleep and every
      [console.warn] or [console.error] is appended to a log, so that "was
      called", "how often" and "in which order" can be stated.
    - Numbers are integers; [maxRetries], [wait] and [currentRetry] are of
      type [Z].  Keys of [_successors] are strings.
    - An [async] function that is awaited at once is a plain call.  Only
      [ParallelBatchNode._exec] starts several calls before it awaits them;
      there the body of [Node._exec] is cut at its [await]s and the pieces
      are interleaved: which suspended call goes on next is read from the
      scheduling choices [sched] of the run. *)

From stdpp Require Import gmap strings list pretty.
From Equations Require Import Equations.
From Stdlib Require Import ZArith Lia Ascii.

Local Open Scope Z_scope.

(** ** Values *)

#[warnings="-register-all"]
Inductive value : Type :=
| VUndefined
| VNull
| VBool (b : bool)
| VNum (z : Z)
| VStr (s : string)
| VArr (items : list value)
| VObj (fields : gmap string value)
| VError (message : string).

(** [!v] is [negb (truthy v)]. *)
Definition truthy (v : value) : bool :=
  match v with
  | VUndefined | VNull => false
  | VBool b => b
  | VNum z => negb (z =? 0)
  | VStr s => negb (String.eqb s "")
  | VArr _ | VObj _ | VError _ => true
  end.

(** [Array.isArray(v)] *)
Definition isArray (v : value) : bool :=
  match v with VArr _ => true | _ => false end.

(** The own enumerable properties that [{...v}] copies. *)
Definition spread (v : value) : gmap string value :=
  match v with
  | VObj fields => fields
  | VArr items => list_to_map (imap (fun i x => (pretty i, x)) items)
  | VStr s => list_to_map (imap (fun i c => (pretty i, VStr (String c EmptyString)))
                                (String.list_ascii_of_string s))
  | _ => ∅
  end.

(** What a call leaves behind: a returned value or a thrown one. *)
Inductive completion : Type :=
| Normal (v : value)
| Throw (e : value).

(** A reference is an index into the store. *)
Abbreviation loc := nat.

(** The framework class a user class extends. *)
Inductive kind : Type :=
| KBaseNode | KNode | KBatchNode | KParallelBatchNode | KFlow | KBatchFlow.

Inductive warning : Type :=
| WarnWontRunSuccessors
| WarnOverwrite (action : string)
| WarnFlowEnds (nextAction : value)
| ErrorInBatchFlow (error : value).

Section Model.

Variables (W Cls : Type).

(** ** Objects *)

(** Own properties of an instance.  [BaseNode]'s constructor sets [_params]
    and [_successors]; [Node]'s adds [maxRetries], [wait], [currentRetry];
    [Flow]'s adds [start].  [cls] is [this.constructor].  A property that the
    class of an object does not have is not read. *)
Record obj : Type := {
  cls : Cls;
  _params : gmap string value;
  _successors : gmap string loc;
  maxRetries : Z;
  wait : Z;
  currentRetry : Z;
  start : option loc }.

Definition set_params (p : gmap string value) (o : obj) : obj :=
  {| cls := cls o; _params := p; _successors := _successors o;
     maxRetries := maxRetries o; wait := wait o;
     currentRetry := currentRetry o; start := start o |}.

Definition set_successors (m : gmap string loc) (o : obj) : obj :=
  {| cls := cls o; _params := _params o; _successors := m;
     maxRetries := maxRetries o; wait := wait o;
     currentRetry := currentRetry o; start := start o |}.

Definition set_currentRetry (c : Z) (o : obj) : obj :=
  {| cls := cls o; _params := _params o; _successors := _successors o;
     maxRetries := maxRetries o; wait := wait o;
     currentRetry := c; start := start o |}.

(** ** Classes *)

Record class_decl : Type := {
  extends : kind;
  prep : obj -> W -> completion * W;
  exec : obj -> value -> W -> completion * W;
  post : obj -> value -> value -> W -> completion * W;
  execFallback : obj -> value -> value -> W -> completion * W }.

(** The methods a subclass inherits when it does not override them. *)
Definition BaseNode_prep (this : obj) (w : W) : completion * W :=
  (Normal VUndefined, w).

Definition BaseNode_exec (this : obj) (prepRes : value) (w : W) : completion * W :=
  (Normal VUndefined, w).

Definition BaseNode_post (this : obj) (prepRes execRes : value) (w : W)
  : completion * W :=
  (Normal VUndefined, w).

Definition Node_execFallback (this : obj) (prepRes error : value) (w : W)
  : completion * W :=
  (Throw error, w).

Definition Flow_exec (this : obj) (prepRes : value) (w : W) : completion * W :=
  (Throw (VError "Flow can't exec."), w).

Definition BatchFlow_prep (this : obj) (w : W) : completion * W :=
  (Normal (VArr []), w).

Variable impl : Cls -> class_decl.

(** ** Run state *)

Inductive event : Type :=
| EvPrep (this : obj)
| EvExec (this : obj) (prepRes : value)
| EvFallback (this : obj) (prepRes error : value)
| EvPost (this : obj) (prepRes execRes : value)
| EvSleep (ms : Z)
| EvWarn (w : warning).

Record rstate : Type := {
  world : W;
  log : list event;
  sched : list nat }.

Definition emit (ev : event) (s : rstate) : rstate :=
  {| world := world s; log := log s ++ [ev]; sched := sched s |}.

Definition set_world (w : W) (s : rstate) : rstate :=
  {| world := w; log := log s; sched := sched s |}.

Definition call_prep (this : obj) (s : rstate) : completion * rstate :=
  let '(c, w) := prep (impl (cls this)) this (world s) in
  (c, set_world w (emit (EvPrep this) s)).

Definition call_exec (this : obj) (prepRes : value) (s : rstate)
  : completion * rstate :=
  let '(c, w) := exec (impl (cls this)) this prepRes (world s) in
  (c, set_world w (emit (EvExec this prepRes) s)).

Definition call_post (this : obj) (prepRes execRes : value) (s : rstate)
  : completion * rstate :=
  let '(c, w) := post (impl (cls this)) this prepRes execRes (world s) in
  (c, set_world w (emit (EvPost this prepRes execRes) s)).

Definition call_execFallback (this : obj) (prepRes error : value) (s : rstate)
  : completion * rstate :=
  let '(c, w) := execFallback (impl (cls this)) this prepRes error (world s) in
  (c, set_world w (emit (EvFallback this prepRes error) s)).

(** [await new Promise(resolve => setTimeout(resolve, this.wait * 1000))] *)
Definition sleep (this : obj) (s : rstate) : rstate :=
  emit (EvSleep (wait this * 1000)) s.

(** ** Node._exec (lines 98-120) *)

(** The three ways out of the [for] statement of [Node._exec]: the [return]
    in the [try] block, the [return] in the [catch] block, and the end of the
    loop. *)
Inductive loop_exit : Type :=
| ReturnedExec (v : value)
| ReturnedFallback (c : completion)
| FellThrough.

Definition unexpected_end : value := VError "Unexpected end of retry loop".

Definition exit_completion (x : loop_exit) : completion :=
  match x with
  | ReturnedExec v => Normal v
  | ReturnedFallback c => c
  | FellThrough => Throw unexpected_end
  end.

(** The [for] statement from its test on; [this.currentRetry] is the loop
    variable. *)
Equations? Node_retry_loop (this : obj) (prepRes : value) (s : rstate)
  : loop_exit * obj * rstate
  by wf (Z.to_nat (maxRetries this - currentRetry this)) lt :=
Node_retry_loop this prepRes s
  with Z_lt_dec (currentRetry this) (maxRetries this) := {
  | left _ =>
      match call_exec this prepRes s with
      | (Normal v, s1) => (ReturnedExec v, this, s1)
      | (Throw e, s1) =>
          if currentRetry this =? maxRetries this - 1 then
            let '(c, s2) := call_execFallback this prepRes e s1 in
            (ReturnedFallback c, this, s2)
          else
            let s2 := if 0 <? wait this then sleep this s1 else s1 in
            Node_retry_loop (set_currentRetry (currentRetry this + 1) this)
                            prepRes s2
      end
  | right _ => (FellThrough, this, s) }.
Proof. simpl. lia. Qed.

(** [_exec(prepRes)] of [Node] *)
Definition Node__exec (this : obj) (prepRes : value) (s : rstate)
  : completion * obj * rstate :=
  let '(x, this', s') := Node_retry_loop (set_currentRetry 0 this) prepRes s in
  (exit_completion x, this', s').

(** ** BatchNode._exec (lines 124-133) *)

(** [for (const item of items) { results.push(await super._exec(item)) }] *)
Fixpoint BatchNode_loop (this : obj) (items results : list value) (s : rstate)
  : completion * obj * rstate :=
  match items with
  | [] => (Normal (VArr results), this, s)
  | item :: rest =>
      match Node__exec this item s with
      | (Normal result, this', s') =>
          BatchNode_loop this' rest (results ++ [result]) s'
      | (Throw e, this', s') => (Throw e, this', s')
      end
  end.

(** [_exec(items)] of [BatchNode] *)
Definition BatchNode__exec (this : obj) (items : value) (s : rstate)
  : completion * obj * rstate :=
  if negb (truthy items) || negb (isArray items) then (Normal (VArr []), this, s)
  else
    match items with
    | VArr l => BatchNode_loop this l [] s
    | _ => (Normal (VArr []), this, s)
    end.

(** ** ParallelBatchNode._exec (lines 137-145) *)

(** [items.map(async (item) => await super._exec(item))] starts one call of
    [Node._exec] per item, all on the same [this], and each runs until its
    first [await].  A task is such a call, suspended or finished:
    - [AwaitExec item c]: at [await this.exec(prepRes)]; the call of [exec]
      has been made and will settle with [c];
    - [AwaitSleep item]: at the [await] of the [setTimeout] promise;
    - [AwaitFallback item c]: at [await this.execFallback(prepRes, e)];
    - [Settled c]: the promise of the call is fulfilled or rejected. *)
Inductive task : Type :=
| AwaitExec (item : value) (c : completion)
| AwaitSleep (item : value)
| AwaitFallback (item : value) (c : completion)
| Settled (c : completion).

Definition is_pending (t : task) : bool :=
  match t with Settled _ => false | _ => true end.

(** The loop test and the [try] block up to its [await]. *)
Definition Node_attempt (this : obj) (prepRes : value) (s : rstate)
  : task * rstate :=
  if Z_lt_dec (currentRetry this) (maxRetries this) then
    let '(c, s1) := call_exec this prepRes s in (AwaitExec prepRes c, s1)
  else (Settled (Throw unexpected_end), s).

(** What a suspended call does when the promise it awaits settles, up to its
    next [await]. *)
Definition Node_resume (this : obj) (t : task) (s : rstate)
  : task * obj * rstate :=
  match t with
  | AwaitExec prepRes (Normal v) => (Settled (Normal v), this, s)
  | AwaitExec prepRes (Throw e) =>
      if currentRetry this =? maxRetries this - 1 then
        let '(c, s1) := call_execFallback this prepRes e s in
        (AwaitFallback prepRes c, this, s1)
      else if 0 <? wait this then (AwaitSleep prepRes, this, sleep this s)
      else
        let this' := set_currentRetry (currentRetry this + 1) this in
        let '(t', s1) := Node_attempt this' prepRes s in (t', this', s1)
  | AwaitSleep prepRes =>
      let this' := set_currentRetry (currentRetry this + 1) this in
      let '(t', s1) := Node_attempt this' prepRes s in (t', this', s1)
  | AwaitFallback prepRes c => (Settled c, this, s)
  | Settled c => (Settled c, this, s)
  end.

(** The calls that [items.map] makes, in the order of the items. *)
Fixpoint par_start (this : obj) (items : list value) (s : rstate)
  : list task * obj * rstate :=
  match items with
  | [] => ([], this, s)
  | item :: rest =>
      let this0 := set_currentRetry 0 this in
      let '(t, s1) := Node_attempt this0 item s in
      let '(ts, this', s') := par_start this0 rest s1 in
      (t :: ts, this', s')
  end.

(** The calls in flight: the object they share, the promise of each, the
    reason of the first rejection (what [Promise.all] rejects with). *)
Record pstate : Type := {
  p_this : obj;
  p_tasks : list task;
  p_rejected : option value;
  p_rt : rstate }.

Fixpoint first_rejection (ts : list task) : option value :=
  match ts with
  | [] => None
  | Settled (Throw e) :: _ => Some e
  | _ :: rest => first_rejection rest
  end.

(** The indices of the pending tasks of [ts], counted from [i]. *)
Fixpoint pending_from (i : nat) (ts : list task) : list nat :=
  match ts with
  | [] => []
  | t :: rest =>
      if is_pending t then i :: pending_from (S i) rest
      else pending_from (S i) rest
  end.

Definition pending (ts : list task) : list nat := pending_from 0 ts.

(** Task [i] is resumed. *)
Definition par_step (i : nat) (ps : pstate) : pstate :=
  match p_tasks ps !! i with
  | None => ps
  | Some t =>
      let '(t', this', s') := Node_resume (p_this ps) t (p_rt ps) in
      {| p_this := this';
         p_tasks := <[i := t']> (p_tasks ps);
         p_rejected := match p_rejected ps, t' with
                       | None, Settled (Throw e) => Some e
                       | r, _ => r
                       end;
         p_rt := s' |}
  end.

(** Which promise settles next is not up to the program: the next number of
    [sched] picks among the pending tasks (the first one when [sched] has
    run out). *)
Definition pick (pend : list nat) (choices : list nat) : option nat :=
  match choices with
  | [] => head pend
  | k :: _ => pend !! (k `mod` length pend)%nat
  end.

Definition pop_sched (ps : pstate) : pstate :=
  {| p_this := p_this ps; p_tasks := p_tasks ps; p_rejected := p_rejected ps;
     p_rt := {| world := world (p_rt ps); log := log (p_rt ps);
                sched := tail (sched (p_rt ps)) |} |}.

(** [par_measure] goes down each time a pending task is resumed. *)
Definition task_weight (t : task) : nat :=
  match t with
  | AwaitExec _ _ => 3
  | AwaitSleep _ => 2
  | AwaitFallback _ _ => 1
  | Settled _ => 0
  end.

Definition par_measure (ps : pstate) : nat :=
  (sum_list (task_weight <$> p_tasks ps)
   + 3 * Z.to_nat (maxRetries (p_this ps) - currentRetry (p_this ps)))%nat.

(** The task that is resumed next, if any is pending. *)
Definition next_task (ps : pstate)
  : {i : nat | pick (pending (p_tasks ps)) (sched (p_rt ps)) = Some i}
    + {pick (pending (p_tasks ps)) (sched (p_rt ps)) = None} :=
  match pick (pending (p_tasks ps)) (sched (p_rt ps)) as o
        return {i : nat | o = Some i} + {o = None} with
  | Some i => inleft (exist _ i eq_refl)
  | None => inright eq_refl
  end.

Lemma pending_from_lookup (ts : list task) (k i : nat) :
  i ∈ pending_from k ts ->
  exists t, ts !! (i - k)%nat = Some t /\ is_pending t = true /\ (k <= i)%nat.
Proof.
  revert k. induction ts as [|t ts IH]; intros k Hin; simpl in Hin.
  - by apply elem_of_nil in Hin.
  - destruct (is_pending t) eqn:Ht.
    + apply elem_of_cons in Hin as [->|Hin].
      * exists t. rewrite Nat.sub_diag. auto.
      * destruct (IH _ Hin) as (t' & Hl & Hp & Hle).
        exists t'. replace (i - k)%nat with (S (i - S k)) by lia. auto with lia.
    + destruct (IH _ Hin) as (t' & Hl & Hp & Hle).
      exists t'. replace (i - k)%nat with (S (i - S k)) by lia. auto with lia.
Qed.

Lemma pick_pending (ts : list task) (choices : list nat) (i : nat) :
  pick (pending ts) choices = Some i ->
  exists t, ts !! i = Some t /\ is_pending t = true.
Proof.
  intros Hpick.
  assert (i ∈ pending ts) as Hin.
  { destruct choices; simpl in Hpick.
    - destruct (pending ts); simplify_eq/=. apply elem_of_cons; auto.
    - eapply list_elem_of_lookup_2; eauto. }
  apply pending_from_lookup in Hin as (t & Hl & Hp & _).
  rewrite Nat.sub_0_r in Hl. eauto.
Qed.

Lemma task_weight_insert (ts : list task) (i : nat) (t t' : task) :
  ts !! i = Some t ->
  (sum_list (task_weight <$> <[i := t']> ts) + task_weight t
   = sum_list (task_weight <$> ts) + task_weight t')%nat.
Proof.
  revert i. induction ts as [|x ts IH]; intros [|i] Hl; simplify_eq/=; [lia|].
  specialize (IH _ Hl). lia.
Qed.

Lemma Node_resume_measure (this : obj) (t : task) (s : rstate) :
  is_pending t = true ->
  let '(t', this', _) := Node_resume this t s in
  maxRetries this' = maxRetries this /\
  (task_weight t' + 3 * Z.to_nat (maxRetries this' - currentRetry this')
   < task_weight t + 3 * Z.to_nat (maxRetries this - currentRetry this))%nat.
Proof.
  intros Hp. destruct t as [item [v|e]|item|item c|c]; simpl in *; try done.
  - split; [done|lia].
  - destruct (currentRetry this =? maxRetries this - 1) eqn:Hlast.
    { destruct (call_execFallback _ _ _ _). simpl. split; [done|lia]. }
    destruct (0 <? wait this); [simpl; split; [done|lia]|].
    unfold Node_attempt. simpl.
    destruct (Z_lt_dec _ _); [destruct (call_exec _ _ _)|]; simpl; split; try done; lia.
  - unfold Node_attempt. simpl.
    destruct (Z_lt_dec _ _); [destruct (call_exec _ _ _)|]; simpl; split; try done; lia.
  - split; [done|lia].
Qed.

Lemma par_step_measure (ps : pstate) (i : nat) :
  pick (pending (p_tasks ps)) (sched (p_rt ps)) = Some i ->
  (par_measure (par_step i (pop_sched ps)) < par_measure ps)%nat.
Proof.
  intros Hpick. apply pick_pending in Hpick as (t & Hl & Hp).
  unfold par_step, par_measure. simpl. rewrite Hl.
  pose proof (Node_resume_measure (p_this ps) t
    {| world := world (p_rt ps); log := log (p_rt ps);
       sched := tail (sched (p_rt ps)) |} Hp) as Hm.
  destruct (Node_resume _ _ _) as [[t' this'] s']. simpl.
  destruct Hm as [_ Hm].
  pose proof (task_weight_insert _ _ _ t' Hl). lia.
Qed.

(** [await Promise.all(...)]: tasks are resumed, one at a time, until none is
    pending. *)
Equations? par_loop (ps : pstate) : pstate by wf (par_measure ps) lt :=
par_loop ps with next_task ps := {
  | inleft (exist _ i Hi) => par_loop (par_step i (pop_sched ps))
  | inright _ => ps }.
Proof. by apply par_step_measure. Qed.

Definition settled_value (t : task) : option value :=
  match t with Settled (Normal v) => Some v | _ => None end.

(** The value or the reason that [Promise.all] settles with. *)
Definition Promise_all (ps : pstate) : completion :=
  match p_rejected ps with
  | Some e => Throw e
  | None => Normal (VArr (omap settled_value (p_tasks ps)))
  end.

(** The calls of [items.map], run until all of them have settled. *)
Definition par_settle (this : obj) (items : list value) (s : rstate) : pstate :=
  let '(ts, this0, s0) := par_start this items s in
  par_loop {| p_this := this0; p_tasks := ts;
              p_rejected := first_rejection ts; p_rt := s0 |}.

(** [_exec(items)] of [ParallelBatchNode].  When [Promise.all] rejects, the
    other calls go on in the background; here they are run to their end
    before the rejection is thrown. *)
Definition ParallelBatchNode__exec (this : obj) (items : value) (s : rstate)
  : completion * obj * rstate :=
  if negb (truthy items) || negb (isArray items) then (Normal (VArr []), this, s)
  else
    match items with
    | VArr l =>
        let ps := par_settle this l s in
        (Promise_all ps, p_this ps, p_rt ps)
    | _ => (Normal (VArr []), this, s)
    end.

(** ** Constructors (lines 2-5, 87-92, 149-152) *)

(** [new C()] for a class [C] that extends [BaseNode]. *)
Definition BaseNode_new (c : Cls) : obj :=
  {| cls := c; _params := ∅; _successors := ∅;
     maxRetries := 0; wait := 0; currentRetry := 0; start := None |}.

(** [new C(maxRetries, wait)] for a class [C] that extends [Node] and hands
    its arguments on. *)
Definition Node_new (c : Cls) (maxRetries wait : Z) : obj :=
  {| cls := c; _params := ∅; _successors := ∅;
     maxRetries := maxRetries; wait := wait; currentRetry := 0; start := None |}.

(** [new C(start)] for a class [C] that extends [Flow]. *)
Definition Flow_new (c : Cls) (start : option loc) : obj :=
  {| cls := c; _params := ∅; _successors := ∅;
     maxRetries := 0; wait := 0; currentRetry := 0; start := start |}.

(** ** BaseNode (lines 7-83) *)

(** [new this.constructor()].  A subclass constructor may hand other defaults
    to [super]; [clone] overwrites every own property it sets. *)
Definition construct (c : Cls) : obj := Node_new c 1 0.

(** [clone()]: the loop copies every own property that is not a function. *)
Definition BaseNode_clone (this : obj) : obj :=
  let clonedNode := construct (cls this) in
  {| cls := cls clonedNode;
     _params := _params this;
     _successors := _successors this;
     maxRetries := maxRetries this;
     wait := wait this;
     currentRetry := currentRetry this;
     start := start this |}.

(** [setParams(params)]: [this._params = { ...params }] *)
Definition BaseNode_setParams (params : gmap string value) (this : obj) : obj :=
  set_params params this.

(** [on(action, node)] and [next(node)]; the object returned is [this]
    after the call. *)
Definition BaseNode_on (action : string) (node : loc) (this : obj) (s : rstate)
  : obj * rstate :=
  let s1 := if bool_decide (is_Some (_successors this !! action))
            then emit (EvWarn (WarnOverwrite action)) s else s in
  (set_successors (<[action := node]> (_successors this)) this, s1).

Definition BaseNode_next (node : loc) (this : obj) (s : rstate) : obj * rstate :=
  BaseNode_on "default" node this s.

(** [getNextNode(action = "default")]: the parameter default stands in for
    [undefined], [action || "default"] for every other falsy value. *)
Definition BaseNode_getNextNode (this : obj) (action : value) (s : rstate)
  : option loc * rstate :=
  let action := match action with VUndefined => VStr "default" | a => a end in
  let nextAction := if truthy action then action else VStr "default" in
  let next := match nextAction with
              | VStr a => _successors this !! a
              | _ => None
              end in
  let s1 := if negb (bool_decide (is_Some next)) && (0 <? size (_successors this))%nat
            then emit (EvWarn (WarnFlowEnds nextAction)) s else s in
  (next, s1).

(** [this._exec(p)], resolved on the class of [this]. *)
Definition dispatch__exec (this : obj) (prepRes : value) (s : rstate)
  : completion * obj * rstate :=
  match extends (impl (cls this)) with
  | KNode => Node__exec this prepRes s
  | KBatchNode => BatchNode__exec this prepRes s
  | KParallelBatchNode => ParallelBatchNode__exec this prepRes s
  | KBaseNode | KFlow | KBatchFlow =>
      let '(c, s1) := call_exec this prepRes s in (c, this, s1)
  end.

(** [_run(shared)] of [BaseNode] *)
Definition BaseNode__run (this : obj) (s : rstate) : completion * obj * rstate :=
  match call_prep this s with
  | (Throw e, s1) => (Throw e, this, s1)
  | (Normal p, s1) =>
      match dispatch__exec this p s1 with
      | (Throw e, this', s2) => (Throw e, this', s2)
      | (Normal e, this', s2) =>
          let '(c, s3) := call_post this' p e s2 in (c, this', s3)
      end
  end.

(** ** Flow and BatchFlow (lines 154-204) *)

(** [None]: the traversal has not ended within the fuel, or a reference
    points outside the store. *)
Definition result : Type := option (completion * list obj * rstate).

(** [_orchestrate(shared, params)] up to its [while] statement, which is
    [loop]. *)
Definition Flow__orchestrate_with
    (loop : option loc -> gmap string value -> list obj -> rstate -> result)
    (l : loc) (params : option (gmap string value)) (h : list obj) (s : rstate)
  : result :=
  this ← h !! l;
  match start this with
  | None => Some (Throw (VError "Flow has no start node"), h, s)
  | Some st =>
      o ← h !! st;
      let current := length h in
      let p := default (_params this) params in
      loop (Some current) p (h ++ [BaseNode_clone o]) s
  end.

(** [_run(shared)] of [Flow] *)
Definition Flow__run_with
    (orchestrate : loc -> option (gmap string value) -> list obj -> rstate -> result)
    (l : loc) (h : list obj) (s : rstate) : result :=
  this ← h !! l;
  match call_prep this s with
  | (Throw e, s1) => Some (Throw e, h, s1)
  | (Normal pr, s1) =>
      let params := if truthy pr then spread pr ∪ _params this
                    else _params this in
      match orchestrate l (Some params) h s1 with
      | None => None
      | Some (Throw e, h2, s2) => Some (Throw e, h2, s2)
      | Some (Normal _, h2, s2) =>
          this2 ← h2 !! l;
          let '(c, s3) := call_post this2 pr VUndefined s2 in
          Some (c, h2, s3)
      end
  end.

(** [for (const bp of batchParams)] in [_run(shared)] of [BatchFlow] *)
Fixpoint BatchFlow_loop
    (orchestrate : loc -> option (gmap string value) -> list obj -> rstate -> result)
    (l : loc) (batchParams : list value) (h : list obj) (s : rstate) : result :=
  match batchParams with
  | [] => Some (Normal VUndefined, h, s)
  | bp :: rest =>
      this ← h !! l;
      let mergedParams := spread bp ∪ _params this in
      match orchestrate l (Some mergedParams) h s with
      | None => None
      | Some (Throw error, h2, s2) =>
          Some (Throw error, h2, emit (EvWarn (ErrorInBatchFlow error)) s2)
      | Some (Normal _, h2, s2) => BatchFlow_loop orchestrate l rest h2 s2
      end
  end.

(** [_run(shared)] of [BatchFlow] *)
Definition BatchFlow__run_with
    (orchestrate : loc -> option (gmap string value) -> list obj -> rstate -> result)
    (l : loc) (h : list obj) (s : rstate) : result :=
  this ← h !! l;
  match call_prep this s with
  | (Throw e, s1) => Some (Throw e, h, s1)
  | (Normal batchParams, s1) =>
      let no_batch :=
        let '(c, s2) := call_post this (VArr []) VUndefined s1 in
        Some (c, h, s2) in
      if negb (truthy batchParams) || negb (isArray batchParams) then no_batch
      else
        match batchParams with
        | VArr bps =>
            match BatchFlow_loop orchestrate l bps h s1 with
            | None => None
            | Some (Throw e, h2, s2) => Some (Throw e, h2, s2)
            | Some (Normal _, h2, s2) =>
                this2 ← h2 !! l;
                let '(c, s3) := call_post this2 batchParams VUndefined s2 in
                Some (c, h2, s3)
            end
        | _ => no_batch
        end
  end.

(** [_run fuel l]: [node._run(shared)] for the object at [l], resolved on its
    class.  [Flow_loop fuel current p]: the [while (current)] statement of
    [Flow._orchestrate]. *)
Fixpoint _run (fuel : nat) (l : loc) (h : list obj) (s : rstate) {struct fuel}
  : result :=
  this ← h !! l;
  match extends (impl (cls this)) with
  | KFlow =>
      match fuel with
      | O => None
      | S fuel' => Flow__run_with (Flow__orchestrate_with (Flow_loop fuel')) l h s
      end
  | KBatchFlow =>
      match fuel with
      | O => None
      | S fuel' =>
          BatchFlow__run_with (Flow__orchestrate_with (Flow_loop fuel')) l h s
      end
  | KBaseNode | KNode | KBatchNode | KParallelBatchNode =>
      let '(c, this', s') := BaseNode__run this s in
      Some (c, <[l := this']> h, s')
  end
with Flow_loop (fuel : nat) (current : option loc) (p : gmap string value)
       (h : list obj) (s : rstate) {struct fuel} : result :=
  match current with
  | None => Some (Normal VUndefined, h, s)
  | Some c =>
      match fuel with
      | O => None
      | S fuel' =>
          cur ← h !! c;
          match _run fuel' c (<[c := BaseNode_setParams p cur]> h) s with
          | None => None
          | Some (Throw e, h2, s2) => Some (Throw e, h2, s2)
          | Some (Normal action, h2, s2) =>
              cur2 ← h2 !! c;
              let '(nextNode, s3) := BaseNode_getNextNode cur2 action s2 in
              match nextNode with
              | None => Flow_loop fuel' None p h2 s3
              | Some n =>
                  o ← h2 !! n;
                  Flow_loop fuel' (Some (length h2)) p (h2 ++ [BaseNode_clone o]) s3
              end
          end
      end
  end.

Definition Flow__orchestrate (fuel : nat) :=
  Flow__orchestrate_with (Flow_loop fuel).

(** [node.run(shared)] *)
Definition BaseNode_run (fuel : nat) (l : loc) (h : list obj) (s : rstate)
  : result :=
  this ← h !! l;
  let s1 := if (0 <? size (_successors this))%nat
            then emit (EvWarn WarnWontRunSuccessors) s else s in
  _run fuel l h s1.

(** References of an object stay inside the first [n] cells of the store. *)
Definition wf_obj (n : nat) (o : obj) : Prop :=
  (forall a l, _successors o !! a = Some l -> (l < n)%nat) /\
  (forall l, start o = Some l -> (l < n)%nat).

Definition wf_store (h : list obj) : Prop := Forall (wf_obj (length h)) h.

End Model.

Arguments cls {Cls} o.
Arguments _params {Cls} o.
Arguments _successors {Cls} o.
Arguments maxRetries {Cls} o.
Arguments wait {Cls} o.
Arguments currentRetry {Cls} o.
Arguments start {Cls} o.
Arguments set_params {Cls} p o.
Arguments set_successors {Cls} m o.
Arguments set_currentRetry {Cls} c o.
Arguments extends {W Cls} c.
Arguments prep {W Cls} c.
Arguments exec {W Cls} c.
Arguments post {W Cls} c.
Arguments execFallback {W Cls} c.
Arguments BaseNode_prep {W Cls} this w.
Arguments BaseNode_exec {W Cls} this prepRes w.
Arguments BaseNode_post {W Cls} this prepRes execRes w.
Arguments Node_execFallback {W Cls} this prepRes error w.
Arguments Flow_exec {W Cls} this prepRes w.
Arguments BatchFlow_prep {W Cls} this w.
Arguments EvPrep {Cls} this.
Arguments EvExec {Cls} this prepRes.
Arguments EvFallback {Cls} this prepRes error.
Arguments EvPost {Cls} this prepRes execRes.
Arguments EvSleep {Cls} ms.
Arguments EvWarn {Cls} w.
Arguments world {W Cls} r.
Arguments log {W Cls} r.
Arguments sched {W Cls} r.
Arguments emit {W Cls} ev s.
Arguments set_world {W Cls} w s.
Arguments call_prep {W Cls} impl this s.
Arguments call_exec {W Cls} impl this prepRes s.
Arguments call_post {W Cls} impl this prepRes execRes s.
Arguments call_execFallback {W Cls} impl this prepRes error s.
Arguments sleep {W Cls} this s.
Arguments Node_retry_loop {W Cls} impl this prepRes s.
Arguments Node__exec {W Cls} impl this prepRes s.
Arguments BatchNode_loop {W Cls} impl this items results s.
Arguments BatchNode__exec {W Cls} impl this items s.
Arguments Node_attempt {W Cls} impl this prepRes s.
Arguments Node_resume {W Cls} impl this t s.
Arguments par_start {W Cls} impl this items s.
Arguments p_this {W Cls} p.
Arguments p_tasks {W Cls} p.
Arguments p_rejected {W Cls} p.
Arguments p_rt {W Cls} p.
Arguments par_step {W Cls} impl i ps.
Arguments pop_sched {W Cls} ps.
Arguments par_measure {W Cls} ps.
Arguments next_task {W Cls} ps.
Arguments par_loop {W Cls} impl ps.
Arguments Promise_all {W Cls} ps.
Arguments par_settle {W Cls} impl this items s.
Arguments ParallelBatchNode__exec {W Cls} impl this items s.
Arguments BaseNode_new {Cls} c.
Arguments Node_new {Cls} c maxRetries wait.
Arguments Flow_new {Cls} c start.
Arguments construct {Cls} c.
Arguments BaseNode_clone {Cls} this.
Arguments BaseNode_setParams {Cls} params this.
Arguments BaseNode_on {W Cls} action node this s.
Arguments BaseNode_next {W Cls} node this s.
Arguments BaseNode_getNextNode {W Cls} this action s.
Arguments dispatch__exec {W Cls} impl this prepRes s.
Arguments BaseNode__run {W Cls} impl this s.
Arguments Flow__orchestrate_with {W Cls} loop l params h s.
Arguments Flow__run_with {W Cls} impl orchestrate l h s.
Arguments BatchFlow_loop {W Cls} orchestrate l batchParams h s.
Arguments BatchFlow__run_with {W Cls} impl orchestrate l h s.
Arguments _run {W Cls} impl fuel l h s.
Arguments Flow_loop {W Cls} impl fuel current p h s.
Arguments Flow__orchestrate {W Cls} impl fuel l params h s.
Arguments BaseNode_run {W Cls} impl fuel l h s.
Arguments wf_obj {Cls} n o.
Arguments wf_store {Cls} h.

(** ** Vocabulary of the statements *)

Section Vocabulary.

Context {W Cls : Type} (impl : Cls -> class_decl W Cls).

(** [exec_raises this p i n w es w']: from world [w], the [n] calls of [exec]
    made with [this.currentRetry = i, i+1, ...] all throw, the errors being
    [es], and leave the world [w']. *)
Inductive exec_raises (this : obj Cls) (p : value)
  : Z -> nat -> W -> list value -> W -> Prop :=
| raises_O i w : exec_raises this p i 0 w [] w
| raises_S i n w e w1 es w2 :
    exec (impl (cls this)) (set_currentRetry i this) p w = (Throw e, w1) ->
    exec_raises this p (i + 1) n w1 es w2 ->
    exec_raises this p i (S n) w (e :: es) w2.

(** What [n] failed attempts that are each followed by another one log. *)
Fixpoint failed_attempts (this : obj Cls) (p : value) (i : Z) (n : nat)
  : list (event Cls) :=
  match n with
  | O => []
  | S n' =>
      EvExec (set_currentRetry i this) p
      :: (if 0 <? wait this then [EvSleep (wait this * 1000)] else [])
      ++ failed_attempts this p (i + 1) n'
  end.

Definition is_fallback (ev : event Cls) : bool :=
  match ev with EvFallback _ _ _ => true | _ => false end.

Definition fallback_calls (l : list (event Cls)) : nat :=
  length (filter (fun ev => is_fallback ev = true) l).

(** [item_cycles this items s outs this' s']: run one after the other from
    [this] and [s], the retry cycles of [items] return [outs] and leave
    [this'] and [s']. *)
Inductive item_cycles
  : obj Cls -> list value -> rstate W Cls -> list value -> obj Cls -> rstate W Cls
    -> Prop :=
| cycles_nil this s : item_cycles this [] s [] this s
| cycles_cons this item rest s r this1 s1 outs this2 s2 :
    Node__exec impl this item s = (Normal r, this1, s1) ->
    item_cycles this1 rest s1 outs this2 s2 ->
    item_cycles this (item :: rest) s (r :: outs) this2 s2.

(** The outputs [pre] put in front of the outputs of a batch. *)
Definition prepend_outputs (pre : list value)
    (r : completion * obj Cls * rstate W Cls) : completion * obj Cls * rstate W Cls :=
  match r with
  | (Normal (VArr out), this, s) => (Normal (VArr (pre ++ out)), this, s)
  | other => other
  end.

(** [p_rejected] is the reason of a rejected call, if there is one. *)
Definition rejection_recorded (ps : pstate W Cls) : Prop :=
  match p_rejected ps with
  | Some e => Settled (Throw e) ∈ p_tasks ps
  | None => forall e, Settled (Throw e) ∉ p_tasks ps
  end.

(** A call for [item] that can only end rejected. *)
Definition doomed (item : value) (t : task) : Prop :=
  match t with
  | AwaitExec it (Throw _) | AwaitFallback it (Throw _) => it = item
  | AwaitSleep it => it = item
  | Settled (Throw _) => True
  | _ => False
  end.

(** Task [i] is a call for [item], on an object of class [c0], that can only
    end rejected. *)
Definition doomed_at (c0 : Cls) (item : value) (i : nat) (ps : pstate W Cls)
  : Prop :=
  cls (p_this ps) = c0 /\ exists t, p_tasks ps !! i = Some t /\ doomed item t.

(** [v] is a value that [exec] or the fallback returns when called with
    [item]. *)
Definition made_for (c0 : Cls) (item v : value) : Prop :=
  (exists o w, (exec (impl c0) o item w).1 = Normal v) \/
  (exists o e w, (execFallback (impl c0) o item e w).1 = Normal v).

(** What a call for [item] can be on its way to such a value. *)
Definition task_for (c0 : Cls) (item : value) (t : task) : Prop :=
  match t with
  | AwaitExec it c | AwaitFallback it c =>
      it = item /\ forall v, c = Normal v -> made_for c0 item v
  | AwaitSleep it => it = item
  | Settled (Normal v) => made_for c0 item v
  | Settled (Throw _) => True
  end.

(** [this'] is [this] but for the retry counter. *)
Definition upto_retry (this this' : obj Cls) : Prop :=
  exists c, this' = set_currentRetry c this.

(** The classes whose [_run] is a traversal. *)
Definition is_flow (k : kind) : bool :=
  match k with KFlow | KBatchFlow => true | _ => false end.

End Vocabulary.

(** ** The traversal on private copies *)

(** The traversal as the specification describes it: the Step definitions
    [defs] are templates that are only read, and every visit works on a copy
    of its own, which is dropped when the visit ends.  Nothing is shared
    between two visits but the world.  [Flow._orchestrate] is compared with
    it below. *)
Section Copies.

Context {W Cls : Type} (impl : Cls -> class_decl W Cls).
Variable defs : list (obj Cls).

Definition copy_result : Type := option (completion * rstate W Cls).

Definition copy_orchestrate_with
    (loop : option (obj Cls) -> gmap string value -> rstate W Cls -> copy_result)
    (this : obj Cls) (params : option (gmap string value)) (s : rstate W Cls)
  : copy_result :=
  match start this with
  | None => Some (Throw (VError "Flow has no start node"), s)
  | Some st =>
      o ← defs !! st;
      loop (Some (BaseNode_clone o)) (default (_params this) params) s
  end.

Definition copy_Flow_run_with
    (orchestrate : obj Cls -> option (gmap string value) -> rstate W Cls
                   -> copy_result)
    (this : obj Cls) (s : rstate W Cls)
  : option (completion * obj Cls * rstate W Cls) :=
  match call_prep impl this s with
  | (Throw e, s1) => Some (Throw e, this, s1)
  | (Normal pr, s1) =>
      let params := if truthy pr then spread pr ∪ _params this
                    else _params this in
      match orchestrate this (Some params) s1 with
      | None => None
      | Some (Throw e, s2) => Some (Throw e, this, s2)
      | Some (Normal _, s2) =>
          let '(c, s3) := call_post impl this pr VUndefined s2 in
          Some (c, this, s3)
      end
  end.

Fixpoint copy_BatchFlow_loop
    (orchestrate : obj Cls -> option (gmap string value) -> rstate W Cls
                   -> copy_result)
    (this : obj Cls) (batchParams : list value) (s : rstate W Cls) : copy_result :=
  match batchParams with
  | [] => Some (Normal VUndefined, s)
  | bp :: rest =>
      match orchestrate this (Some (spread bp ∪ _params this)) s with
      | None => None
      | Some (Throw error, s2) =>
          Some (Throw error, emit (EvWarn (ErrorInBatchFlow error)) s2)
      | Some (Normal _, s2) => copy_BatchFlow_loop orchestrate this rest s2
      end
  end.

Definition copy_BatchFlow_run_with
    (orchestrate : obj Cls -> option (gmap string value) -> rstate W Cls
                   -> copy_result)
    (this : obj Cls) (s : rstate W Cls)
  : option (completion * obj Cls * rstate W Cls) :=
  match call_prep impl this s with
  | (Throw e, s1) => Some (Throw e, this, s1)
  | (Normal batchParams, s1) =>
      let no_batch :=
        let '(c, s2) := call_post impl this (VArr []) VUndefined s1 in
        Some (c, this, s2) in
      if negb (truthy batchParams) || negb (isArray batchParams) then no_batch
      else
        match batchParams with
        | VArr bps =>
            match copy_BatchFlow_loop orchestrate this bps s1 with
            | None => None
            | Some (Throw e, s2) => Some (Throw e, this, s2)
            | Some (Normal _, s2) =>
                let '(c, s3) := call_post impl this batchParams VUndefined s2 in
                Some (c, this, s3)
            end
        | _ => no_batch
        end
  end.

Fixpoint copy_run (fuel : nat) (this : obj Cls) (s : rstate W Cls) {struct fuel}
  : option (completion * obj Cls * rstate W Cls) :=
  match extends (impl (cls this)) with
  | KFlow =>
      match fuel with
      | O => None
      | S fuel' =>
          copy_Flow_run_with (copy_orchestrate_with (copy_loop fuel')) this s
      end
  | KBatchFlow =>
      match fuel with
      | O => None
      | S fuel' =>
          copy_BatchFlow_run_with (copy_orchestrate_with (copy_loop fuel')) this s
      end
  | KBaseNode | KNode | KBatchNode | KParallelBatchNode =>
      Some (BaseNode__run impl this s)
  end
with copy_loop (fuel : nat) (current : option (obj Cls)) (p : gmap string value)
       (s : rstate W Cls) {struct fuel} : copy_result :=
  match current with
  | None => Some (Normal VUndefined, s)
  | Some cur =>
      match fuel with
      | O => None
      | S fuel' =>
          match copy_run fuel' (BaseNode_setParams p cur) s with
          | None => None
          | Some (Throw e, _, s2) => Some (Throw e, s2)
          | Some (Normal action, cur2, s2) =>
              let '(nextNode, s3) := BaseNode_getNextNode cur2 action s2 in
              match nextNode with
              | None => copy_loop fuel' None p s3
              | Some n =>
                  o ← defs !! n;
                  copy_loop fuel' (Some (BaseNode_clone o)) p s3
              end
          end
      end
  end.

Definition copy_orchestrate (fuel : nat) :=
  copy_orchestrate_with (copy_loop fuel).

(** What a run shows of itself: how it ended, the world and the log. *)
Definition observe (r : result W Cls) : copy_result :=
  (fun '(a, _, s) => (a, s)) <$> r.

(** The store [h] still holds the definitions. *)
Definition keeps (h : list (obj Cls)) : Prop :=
  forall l o, defs !! l = Some o -> h !! l = Some o.

(** From [h] to [h'] cells were added, and none but [c] was written. *)
Definition frame (c : loc) (h h' : list (obj Cls)) : Prop :=
  (length h <= length h')%nat /\
  forall l, (l < length h)%nat -> l <> c -> h' !! l = h !! l.

(** From [h] to [h'] cells were added, and none was written. *)
Definition grows (h h' : list (obj Cls)) : Prop :=
  (length h <= length h')%nat /\
  forall l, (l < length h)%nat -> h' !! l = h !! l.

Definition run_refines
    (run_h : loc -> list (obj Cls) -> rstate W Cls -> result W Cls)
    (run_c : obj Cls -> rstate W Cls -> option (completion * obj Cls * rstate W Cls))
  : Prop :=
  forall c this h s,
    keeps h -> wf_obj (length defs) this -> h !! c = Some this ->
    (length defs <= c)%nat ->
    match run_c this s with
    | None => run_h c h s = None
    | Some (a, this', s') =>
        exists h', run_h c h s = Some (a, h', s') /\ frame c h h' /\
                   h' !! c = Some this' /\ wf_obj (length defs) this'
    end.

Definition loop_refines
    (loop_h : option loc -> gmap string value -> list (obj Cls) -> rstate W Cls
              -> result W Cls)
    (loop_c : option (obj Cls) -> gmap string value -> rstate W Cls -> copy_result)
  : Prop :=
  forall c cur p h s,
    keeps h -> wf_obj (length defs) cur -> h !! c = Some cur ->
    (length defs <= c)%nat ->
    match loop_c (Some cur) p s with
    | None => loop_h (Some c) p h s = None
    | Some (a, s') =>
        exists h', loop_h (Some c) p h s = Some (a, h', s') /\ frame c h h'
    end.

Definition orchestrate_refines
    (orch_h : loc -> option (gmap string value) -> list (obj Cls) -> rstate W Cls
              -> result W Cls)
    (orch_c : obj Cls -> option (gmap string value) -> rstate W Cls -> copy_result)
  : Prop :=
  forall l this params h s,
    keeps h -> wf_obj (length defs) this -> h !! l = Some this ->
    match orch_c this params s with
    | None => orch_h l params h s = None
    | Some (a, s') =>
        exists h', orch_h l params h s = Some (a, h', s') /\ grows h h'
    end.

End Copies.

Arguments copy_orchestrate_with {W Cls} defs loop this params s.
Arguments copy_Flow_run_with {W Cls} impl orchestrate this s.
Arguments copy_BatchFlow_loop {W Cls} orchestrate this batchParams s.
Arguments copy_BatchFlow_run_with {W Cls} impl orchestrate this s.
Arguments copy_run {W Cls} impl defs fuel this s.
Arguments copy_loop {W Cls} impl defs fuel current p s.
Arguments copy_orchestrate {W Cls} impl defs fuel this params s.
Arguments observe {W Cls} r.
Arguments keeps {Cls} defs h.
Arguments frame {Cls} c h h'.
Arguments grows {Cls} h h'.
Arguments run_refines {W Cls} defs run_h run_c.
Arguments loop_refines {W Cls} defs loop_h loop_c.
Arguments orchestrate_refines {W Cls} defs orch_h orch_c.

(** ** More vocabulary *)

Section Counting.

Context {W Cls : Type} (impl : Cls -> class_decl W Cls).

Definition is_exec (ev : event Cls) : bool :=
  match ev with EvExec _ _ => true | _ => false end.

Definition exec_calls (l : list (event Cls)) : nat :=
  length (filter (fun ev => is_exec ev = true) l).

Definition is_sleep (ev : event Cls) : bool :=
  match ev with EvSleep _ => true | _ => false end.

Definition sleep_calls (l : list (event Cls)) : nat :=
  length (filter (fun ev => is_sleep ev = true) l).

(** The same run state with the scheduling choices [sc]. *)
Definition set_sched (sc : list nat) (s : rstate W Cls) : rstate W Cls :=
  {| world := world s; log := log s; sched := sc |}.

Definition with_sched (sc : list nat) {A : Type} (r : A * rstate W Cls)
  : A * rstate W Cls := (r.1, set_sched sc r.2).

(** What is left of a call of [Node._exec] that is at task [t], when it is
    run on its own to its end. *)
Definition Node_continue (this : obj Cls) (t : task) (s : rstate W Cls)
  : completion * obj Cls * rstate W Cls :=
  match t with
  | AwaitExec prepRes (Normal v) => (Normal v, this, s)
  | AwaitExec prepRes (Throw e) =>
      if currentRetry this =? maxRetries this - 1 then
        let '(c, s1) := call_execFallback impl this prepRes e s in (c, this, s1)
      else
        let s1 := if 0 <? wait this then sleep this s else s in
        let '(x, this', s') :=
          Node_retry_loop impl (set_currentRetry (currentRetry this + 1) this)
                          prepRes s1 in
        (exit_completion x, this', s')
  | AwaitSleep prepRes =>
      let '(x, this', s') :=
        Node_retry_loop impl (set_currentRetry (currentRetry this + 1) this)
                        prepRes s in
      (exit_completion x, this', s')
  | AwaitFallback _ c | Settled c => (c, this, s)
  end.




(** The calls of a parallel batch as [items.map] leaves them, each at its
    first [await]. *)
Definition par_begin (this : obj Cls) (items : list value) (s : rstate W Cls)
  : pstate W Cls :=
  let '(ts, this0, s0) := par_start impl this items s in
  {| p_this := this0; p_tasks := ts;
     p_rejected := first_rejection ts; p_rt := s0 |}.




(** [{ ...this._params, ...pr }] when [pr] is truthy, [this._params]
    otherwise: the parameters that [Flow._run] hands to [_orchestrate]. *)
Definition Flow_params (this : obj Cls) (pr : value) : gmap string value :=
  if truthy pr then spread pr ∪ _params this else _params this.

(** [traversals fuel l bps h s h' s']: one after the other from [h] and [s],
    the traversals of the flow at [l], each with a parameter set of [bps]
    merged over the flow's own, end normally and leave [h'] and [s']. *)
Inductive traversals (fuel : nat) (l : loc)
  : list value -> list (obj Cls) -> rstate W Cls
    -> list (obj Cls) -> rstate W Cls -> Prop :=
| traversals_nil h s : traversals fuel l [] h s h s
| traversals_cons bp rest h s this v h1 s1 h2 s2 :
    h !! l = Some this ->
    Flow__orchestrate impl fuel l (Some (spread bp ∪ _params this)) h s
      = Some (Normal v, h1, s1) ->
    traversals fuel l rest h1 s1 h2 s2 ->
    traversals fuel l (bp :: rest) h s h2 s2.

End Counting.

(** ** flow.js: the pipeline of the application *)

Section FlowJs.

Variables (W Cls : Type).

(** The class [Flow] as [pocketflow.js] declares it; [new Flow(start)]
    makes an instance of it. *)
Definition Flow_class : class_decl W Cls :=
  {| extends := KFlow; prep := BaseNode_prep; exec := Flow_exec;
     post := BaseNode_post; execFallback := Node_execFallback |}.

(** A [new] expression puts its object in a fresh cell of the store. *)
Definition alloc (o : obj Cls) (h : list (obj Cls)) : loc * list (obj Cls) :=
  (length h, h ++ [o]).

(** [a.next(b)] on the objects at [a] and [b] *)
Definition next_at (a b : loc) (h : list (obj Cls)) (s : rstate W Cls)
  : option (list (obj Cls) * rstate W Cls) :=
  this ← h !! a;
  let '(this', s') := BaseNode_next b this s in
  Some (<[a := this']> h, s').

(** The classes that [flow.js] imports. *)
Record pipeline : Type := {
  ProcessYouTubeURL : Cls;
  ExtractTopicsAndQuestions : Cls;
  ProcessContent : Cls;
  GenerateHTML : Cls;
  Flow : Cls }.

(** [createYouTubeProcessorFlow()] (lines 30-49).  The two calls of the
    logger, which write to the console and to the log file, are left out.
    The constructors of the four step classes hand their arguments to
    [Node]'s. *)
Definition createYouTubeProcessorFlow (C : pipeline) (h : list (obj Cls))
    (s : rstate W Cls) : option (loc * list (obj Cls) * rstate W Cls) :=
  let '(processUrl, h) := alloc (Node_new (ProcessYouTubeURL C) 2 10) h in
  let '(extractTopicsAndQuestions, h) :=
    alloc (Node_new (ExtractTopicsAndQuestions C) 2 10) h in
  let '(processContent, h) := alloc (Node_new (ProcessContent C) 2 10) h in
  let '(generateHtml, h) := alloc (Node_new (GenerateHTML C) 2 10) h in
  '(h, s) ← next_at processUrl extractTopicsAndQuestions h s;
  '(h, s) ← next_at extractTopicsAndQuestions processContent h s;
  '(h, s) ← next_at processContent generateHtml h s;
  let '(flow, h) := alloc (Flow_new (Flow C) (Some processUrl)) h in
  Some (flow, h, s).

(** A step of the pipeline as [createYouTubeProcessorFlow] leaves it:
    [maxRetries = 2], [wait = 10], and the edges [edges]. *)
Definition pipeline_step (c : Cls) (edges : gmap string loc) : obj Cls :=
  set_successors edges (Node_new c 2 10).

(** The five objects, the first of them at [n]. *)
Definition pipeline_objects (C : pipeline) (n : nat) : list (obj Cls) :=
  [pipeline_step (ProcessYouTubeURL C) {["default" := S n]};
   pipeline_step (ExtractTopicsAndQuestions C) {["default" := S (S n)]};
   pipeline_step (ProcessContent C) {["default" := S (S (S n))]};
   pipeline_step (GenerateHTML C) ∅;
   Flow_new (Flow C) (Some n)].

(** The copy of a step that the traversal of the pipeline runs: the flow
    has no parameters of its own. *)
Definition pipeline_copy (o : obj Cls) : obj Cls :=
  BaseNode_setParams ∅ (BaseNode_clone o).

End FlowJs.

Arguments Flow_class {W Cls}.
Arguments alloc {Cls} o h.
Arguments next_at {W Cls} a b h s.
Arguments ProcessYouTubeURL {Cls} p.
Arguments ExtractTopicsAndQuestions {Cls} p.
Arguments ProcessContent {Cls} p.
Arguments GenerateHTML {Cls} p.
Arguments Flow {Cls} p.
Arguments createYouTubeProcessorFlow {W Cls} C h s.
Arguments pipeline_step {Cls} c edges.
Arguments pipeline_objects {Cls} C n.
Arguments pipeline_copy {Cls} o.

(** ** youtubeProcessor.js: extractVideoId (lines 22-44) *)

(** The class [[0-9A-Za-z_-]]. *)
Definition is_id_char (c : ascii) : bool :=
  let n := nat_of_ascii c in
  ((48 <=? n) && (n <=? 57) || (65 <=? n) && (n <=? 90)
   || (97 <=? n) && (n <=? 122) || (n =? 95) || (n =? 45))%nat.

(** Literal text at the head of [s]: what follows it. *)
Fixpoint literal (lit s : list ascii) : option (list ascii) :=
  match lit, s with
  | [], _ => Some s
  | a :: lit', b :: s' => if Ascii.eqb a b then literal lit' s' else None
  | _ :: _, [] => None
  end.

(** The group [([0-9A-Za-z_-]{n})] at the head of [s]: what it captures. *)
Fixpoint id_chars (n : nat) (s : list ascii) : option (list ascii) :=
  match n, s with
  | O, _ => Some []
  | S n', c :: s' => if is_id_char c then cons c <$> id_chars n' s' else None
  | S _, [] => None
  end.

(** A pattern of [extractVideoId] is an alternative of literal texts
    followed by the group of 11; the alternatives are tried in order. *)
Fixpoint match_here (alts : list (list ascii)) (s : list ascii)
  : option (list ascii) :=
  match alts with
  | [] => None
  | alt :: rest =>
      match literal alt s ≫= id_chars 11 with
      | Some id => Some id
      | None => match_here rest s
      end
  end.

(** [s.match(pattern)[1]]: the group of the match that starts leftmost. *)
Fixpoint regex_match (alts : list (list ascii)) (s : list ascii)
  : option (list ascii) :=
  match match_here alts s with
  | Some id => Some id
  | None => match s with
            | [] => None
            | _ :: s' => regex_match alts s'
            end
  end.

Definition chars (s : string) : list ascii := String.list_ascii_of_string s.

Definition patterns : list (list (list ascii)) :=
  [ [chars "v="; chars "/"];           (* /(?:v=|\/)([0-9A-Za-z_-]{11})/ *)
    [chars "youtu.be/"];               (* /youtu\.be\/([0-9A-Za-z_-]{11})/ *)
    [chars "embed/"];                  (* /embed\/([0-9A-Za-z_-]{11})/ *)
    [chars "youtube://watch?v="] ].    (* /youtube:\/\/watch\?v=([0-9A-Za-z_-]{11})/ *)

(** [for (const pattern of patterns)]: the group of the first pattern that
    matches. *)
Fixpoint first_capture (ps : list (list (list ascii))) (s : list ascii)
  : option (list ascii) :=
  match ps with
  | [] => None
  | p :: rest =>
      match regex_match p s with
      | Some id => Some id
      | None => first_capture rest s
      end
  end.

(** [extractVideoId(url)]; [None] is [null].  On a truthy [url] that is not
    a string, [url.match] is not a function: the [catch] block logs the
    error and returns [null]. *)
Definition extractVideoId (url : value) : option string :=
  if negb (truthy url) then None
  else
    match url with
    | VStr u => String.string_of_list_ascii <$> first_capture patterns (chars u)
    | _ => None
    end.

(** What is in front of the id in the links of the usual kinds. *)
Definition watch_url : string := "https://www.youtube.com/watch?v=".
Definition short_url : string := "https://youtu.be/".
Definition embed_url : string := "https://www.youtube.com/embed/".
Definition app_url : string := "youtube://watch?v=".

(** ** Worked examples: the steps *)

(** Steps over integers.  The world is the journal of the items [exec] was
    called with; [exec] fails on an item as long as it has seen it fewer
    times than the class says, then returns ten times the item. *)
Module RetryExamples.

Inductive step : Type :=
| Flaky            (* Node: every item fails twice *)
| Hopeless         (* Node: every item fails always; Node's fallback *)
| BatchFlaky       (* BatchNode: item 2 fails once *)
| BatchRecover     (* BatchNode: item 2 fails always; the fallback returns *)
| BatchFatal       (* BatchNode: item 2 fails always; the fallback throws *)
| ParRecover       (* ParallelBatchNode: item 1 fails always, item 2 once;
                      the fallback returns *)
| ParSleepy        (* the same, every item fails always *)
| ParHopeless.     (* ParallelBatchNode: item 2 fails always; Node's fallback *)

(** How often [exec] fails on item [z]; [None]: always. *)
Definition failures (c : step) (z : Z) : option nat :=
  match c with
  | Flaky => Some 2%nat
  | Hopeless | ParSleepy => None
  | BatchFlaky => if z =? 2 then Some 1%nat else Some 0%nat
  | BatchRecover | BatchFatal | ParHopeless =>
      if z =? 2 then None else Some 0%nat
  | ParRecover => if z =? 1 then None else if z =? 2 then Some 1%nat else Some 0%nat
  end.

Definition seen (z : Z) (w : list Z) : nat :=
  length (filter (fun x => x = z) w).

Definition step_exec (c : step) (this : obj step) (prepRes : value) (w : list Z)
  : completion * list Z :=
  match prepRes with
  | VNum z =>
      (match failures c z with
       | None => Throw (VError "down")
       | Some n => if (seen z w <? n)%nat then Throw (VError "transient")
                   else Normal (VNum (z * 10))
       end, w ++ [z])
  | _ => (Normal VUndefined, w)
  end.

Definition recover (this : obj step) (prepRes error : value) (w : list Z)
  : completion * list Z :=
  (Normal (VStr "fallback"), w).

Definition give_in (this : obj step) (prepRes error : value) (w : list Z)
  : completion * list Z :=
  (Throw (VError "fatal"), w).

Definition impl (c : step) : class_decl (list Z) step :=
  {| extends := match c with
                | Flaky | Hopeless => KNode
                | BatchFlaky | BatchRecover | BatchFatal => KBatchNode
                | ParRecover | ParSleepy | ParHopeless => KParallelBatchNode
                end;
     prep := BaseNode_prep;
     exec := step_exec c;
     post := BaseNode_post;
     execFallback := match c with
                     | BatchRecover | ParRecover | ParSleepy => recover
                     | BatchFatal => give_in
                     | _ => Node_execFallback
                     end |}.

(** A fresh run: nothing seen, nothing logged, the scheduling choices [sc]. *)
Definition fresh (sc : list nat) : rstate (list Z) step :=
  {| world := []; log := []; sched := sc |}.

Definition completion_of (r : completion * obj step * rstate (list Z) step)
  : completion := r.1.1.

End RetryExamples.

(** A pipeline of three steps.  The world is the journal of the calls made.
    [Parse] fails when it is run for the first time. *)
Module FlowExamples.

Inductive stage : Type := Fetch | Parse | Render | Pipeline.

Definition name (c : stage) : string :=
  match c with
  | Fetch => "Fetch" | Parse => "Parse" | Render => "Render"
  | Pipeline => "Pipeline"
  end.

Definition journal (c : stage) (method : string) (w : list string) : list string :=
  w ++ [name c +:+ "." +:+ method].

Definition stage_prep (c : stage) (this : obj stage) (w : list string)
  : completion * list string :=
  (Normal (VStr (name c)), journal c "prep" w).

Definition stage_exec (c : stage) (this : obj stage) (prepRes : value)
    (w : list string) : completion * list string :=
  (match c with
   | Parse => if bool_decide ("Parse.exec" ∈ w) then Normal prepRes
              else Throw (VError "busy")
   | _ => Normal prepRes
   end, journal c "exec" w).

Definition stage_post (c : stage) (this : obj stage) (prepRes execRes : value)
    (w : list string) : completion * list string :=
  (Normal VUndefined, journal c "post" w).

Definition impl (c : stage) : class_decl (list string) stage :=
  match c with
  | Pipeline =>
      {| extends := KFlow; prep := BaseNode_prep; exec := Flow_exec;
         post := BaseNode_post; execFallback := Node_execFallback |}
  | _ =>
      {| extends := KNode; prep := stage_prep c; exec := stage_exec c;
         post := stage_post c; execFallback := Node_execFallback |}
  end.

Definition fresh : rstate (list string) stage :=
  {| world := []; log := []; sched := [] |}.

(** [fetch.next(parse); parse.next(render)] *)
Definition fetch : obj stage := (BaseNode_next 1%nat (Node_new Fetch 2 0) fresh).1.
Definition parse : obj stage := (BaseNode_next 2%nat (Node_new Parse 2 0) fresh).1.
Definition render : obj stage := Node_new Render 2 0.

(** [new Flow(fetch)] *)
Definition chain : list (obj stage) :=
  [fetch; parse; render; Flow_new Pipeline (Some 0%nat)].

(** [inner = new Flow(fetch); inner.next(fetch); outer = new Flow(inner)]:
    the inner flow is a step of the outer one, and the three steps are
    visited a second time after it. *)
Definition inner : obj stage :=
  (BaseNode_next 0%nat (Flow_new Pipeline (Some 0%nat)) fresh).1.

Definition nested : list (obj stage) :=
  [fetch; parse; render; inner; Flow_new Pipeline (Some 3%nat)].

(** The cycles of the copies of the three steps, one after the other. *)
Definition after_fetch :=
  BaseNode__run impl (BaseNode_setParams ∅ (BaseNode_clone fetch)) fresh.
Definition after_parse :=
  BaseNode__run impl (BaseNode_setParams ∅ (BaseNode_clone parse)) after_fetch.2.
Definition after_render :=
  BaseNode__run impl (BaseNode_setParams ∅ (BaseNode_clone render)) after_parse.2.

End FlowExamples.

(** A batch flow over one step.  The step greets the name in its
    parameters and refuses the name "bad"; the world is the list of the
    greetings made. *)
Module BatchFlowExamples.

Inductive greeter : Type :=
| Greet         (* Node: the step *)
| Everyone      (* BatchFlow: ann, then bob *)
| WithBad       (* BatchFlow: ann, then bad, then bob *)
| Idle.         (* BatchFlow: the [prep] of [BatchFlow] *)

Definition named (n : string) : value := VObj {["name" := VStr n]}.

Definition greet_prep (this : obj greeter) (w : list value)
  : completion * list value :=
  (Normal (default VUndefined (_params this !! "name")), w).

Definition greet_exec (this : obj greeter) (prepRes : value) (w : list value)
  : completion * list value :=
  match prepRes with
  | VStr "bad" => (Throw (VError "bad name"), w)
  | _ => (Normal prepRes, w)
  end.

Definition greet_post (this : obj greeter) (prepRes execRes : value)
    (w : list value) : completion * list value :=
  (Normal VUndefined, w ++ [execRes]).

Definition impl (c : greeter) : class_decl (list value) greeter :=
  match c with
  | Greet =>
      {| extends := KNode; prep := greet_prep; exec := greet_exec;
         post := greet_post; execFallback := Node_execFallback |}
  | Everyone =>
      {| extends := KBatchFlow;
         prep := fun _ w => (Normal (VArr [named "ann"; named "bob"]), w);
         exec := Flow_exec; post := BaseNode_post;
         execFallback := Node_execFallback |}
  | WithBad =>
      {| extends := KBatchFlow;
         prep := fun _ w =>
                   (Normal (VArr ([named "ann"] ++ named "bad" :: [named "bob"])), w);
         exec := Flow_exec; post := BaseNode_post;
         execFallback := Node_execFallback |}
  | Idle =>
      {| extends := KBatchFlow; prep := BatchFlow_prep; exec := Flow_exec;
         post := BaseNode_post; execFallback := Node_execFallback |}
  end.

Definition fresh : rstate (list value) greeter :=
  {| world := []; log := []; sched := [] |}.

(** [new C(new Greet())] for a batch flow class [C]. *)
Definition store (c : greeter) : list (obj greeter) :=
  [Node_new Greet 1 0; Flow_new c (Some 0%nat)].

End BatchFlowExamples.

(** The pipeline of [flow.js] over steps that keep a record of themselves in
    the shared object, which is the world.  The first step answers "error"
    when there is no video to go on with. *)
Module PipelineExamples.

Inductive step : Type := Url | Topics | Content | Html | TheFlow.

Definition name (c : step) : string :=
  match c with
  | Url => "url" | Topics => "topics" | Content => "content" | Html => "html"
  | TheFlow => "flow"
  end.

Definition step_exec (c : step) (this : obj step) (prepRes : value)
    (w : gmap string value) : completion * gmap string value :=
  match c with
  | Url => (Normal (default VUndefined (w !! "video")), w)
  | _ => (Normal prepRes, w)
  end.

Definition step_post (c : step) (this : obj step) (prepRes execRes : value)
    (w : gmap string value) : completion * gmap string value :=
  match c with
  | Url => if truthy execRes then (Normal (VStr "default"), <["video_info" := execRes]> w)
           else (Normal (VStr "error"), w)
  | _ => (Normal (VStr "default"), <[name c := VBool true]> w)
  end.

Definition impl (c : step) : class_decl (gmap string value) step :=
  match c with
  | TheFlow => Flow_class
  | _ =>
      {| extends := match c with Content => KBatchNode | _ => KNode end;
         prep := BaseNode_prep; exec := step_exec c; post := step_post c;
         execFallback := Node_execFallback |}
  end.

Definition classes : pipeline step :=
  {| ProcessYouTubeURL := Url; ExtractTopicsAndQuestions := Topics;
     ProcessContent := Content; GenerateHTML := Html; Flow := TheFlow |}.

(** The shared object [main] starts with, when the video can be fetched and
    when it cannot. *)
Definition shared (video : bool) : rstate (gmap string value) step :=
  {| world := if video then {["url" := VStr "u"; "video" := VStr "v"]}
              else {["url" := VStr "u"]};
     log := []; sched := [] |}.

Definition flow : obj step := Flow_new TheFlow (Some 0%nat).

(** The cycles of the copies of the four steps, one after the other. *)
Definition after_url (video : bool) :=
  BaseNode__run impl (pipeline_copy (pipeline_step Url {["default" := 1%nat]}))
    (emit (EvPrep flow) (shared video)).
Definition after_topics :=
  BaseNode__run impl (pipeline_copy (pipeline_step Topics {["default" := 2%nat]}))
    (after_url true).2.
Definition after_content :=
  BaseNode__run impl (pipeline_copy (pipeline_step Content {["default" := 3%nat]}))
    after_topics.2.
Definition after_html :=
  BaseNode__run impl (pipeline_copy (pipeline_step Html ∅)) after_content.2.

End PipelineExamples.

(** ** The retry loop *)

Section Retry.

Context {W Cls : Type} (impl : Cls -> class_decl W Cls).

Lemma Node_retry_loop_step (this : obj Cls) (p : value) (s : rstate W Cls) :
  Node_retry_loop impl this p s =
  if Z_lt_dec (currentRetry this) (maxRetries this) then
    match call_exec impl this p s with
    | (Normal v, s1) => (ReturnedExec v, this, s1)
    | (Throw e, s1) =>
        if currentRetry this =? maxRetries this - 1 then
          let '(c, s2) := call_execFallback impl this p e s1 in
          (ReturnedFallback c, this, s2)
        else
          let s2 := if 0 <? wait this then sleep this s1 else s1 in
          Node_retry_loop impl (set_currentRetry (currentRetry this + 1) this) p s2
    end
  else (FellThrough, this, s).
Proof.
  simp Node_retry_loop. destruct (Z_lt_dec _ _); reflexivity.
Qed.

Lemma set_currentRetry_twice (i j : Z) (this : obj Cls) :
  set_currentRetry j (set_currentRetry i this) = set_currentRetry j this.
Proof. reflexivity. Qed.

Lemma fallback_calls_app (l1 l2 : list (event Cls)) :
  fallback_calls (l1 ++ l2) = (fallback_calls l1 + fallback_calls l2)%nat.
Proof. unfold fallback_calls. by rewrite filter_app, length_app. Qed.

Lemma fallback_calls_failed_attempts (this : obj Cls) p i n :
  fallback_calls (failed_attempts this p i n) = 0%nat.
Proof.
  revert i. induction n as [|n IH]; intros i; [done|].
  simpl. change (EvExec (set_currentRetry i this) p :: ?l) with
    ([EvExec (set_currentRetry i this) p] ++ l).
  rewrite !fallback_calls_app, IH. by destruct (0 <? wait this).
Qed.

(** [n] failed attempts that leave room for one more: the loop arrives at
    the next attempt. *)
Lemma Node_retry_loop_failed (this : obj Cls) p i n w es w1 :
  exec_raises impl this p i n w es w1 ->
  i + Z.of_nat n < maxRetries this ->
  forall lg sc,
  Node_retry_loop impl (set_currentRetry i this) p
    {| world := w; log := lg; sched := sc |} =
  Node_retry_loop impl (set_currentRetry (i + Z.of_nat n) this) p
    {| world := w1; log := lg ++ failed_attempts this p i n; sched := sc |}.
Proof.
  induction 1 as [i w|i n w e w1 es w2 Hexec _ IH]; intros Hlt lg sc.
  - simpl. by rewrite Z.add_0_r, app_nil_r.
  - rewrite Node_retry_loop_step. simpl.
    destruct (Z_lt_dec i (maxRetries this)); [|lia].
    unfold call_exec. simpl. rewrite Hexec.
    destruct (i =? maxRetries this - 1) eqn:Hlast; [lia|].
    rewrite set_currentRetry_twice.
    replace (i + Z.of_nat (S n)) with (i + 1 + Z.of_nat n) by lia.
    destruct (0 <? wait this); unfold sleep, emit, set_world; simpl;
      rewrite IH by lia; do 2 f_equal; by rewrite <- !app_assoc.
Qed.

Lemma Node_retry_loop_exits (n : nat) (this : obj Cls) p (s : rstate W Cls) :
  currentRetry this < maxRetries this ->
  (Z.to_nat (maxRetries this - currentRetry this) <= n)%nat ->
  exists x this' s1 s',
    Node_retry_loop impl this p s = (x, this', s') /\
    ((exists v, x = ReturnedExec v /\
                call_exec impl this' p s1 = (Normal v, s')) \/
     (exists e c, x = ReturnedFallback c /\
                  call_execFallback impl this' p e s1 = (c, s'))).
Proof.
  revert this s. induction n as [|n IH]; intros this s Hlt Hn; [lia|].
  rewrite Node_retry_loop_step.
  destruct (Z_lt_dec _ _) as [_|]; [|lia].
  destruct (call_exec impl this p s) as [[v|e] s1] eqn:Hexec.
  { exists (ReturnedExec v), this, s, s1. eauto. }
  destruct (currentRetry this =? maxRetries this - 1) eqn:Hlast.
  { destruct (call_execFallback impl this p e s1) as [c s2] eqn:Hfb.
    exists (ReturnedFallback c), this, s1, s2. eauto 6. }
  apply IH; simpl; lia.
Qed.

(** With [maxRetries >= 1] a call [Node._exec(prepRes)] that runs from its
    first statement to its end with no other call on the same object in
    between, as [Node] and [BatchNode] run it, always comes back, and it
    leaves the [for] statement through one of its two [return]s: with the
    value that the last call of [exec] returned, or with whatever the call
    of [execFallback] returned or threw.  Such a call does not reach the
    [throw] after the loop.  The calls that [ParallelBatchNode] starts on
    one object are not run in this way, and they can reach it. *)
Theorem retry_loop_exit (this : obj Cls) (p : value) (s : rstate W Cls) :
  1 <= maxRetries this ->
  exists x this' s1 s',
    Node_retry_loop impl (set_currentRetry 0 this) p s = (x, this', s') /\
    Node__exec impl this p s = (exit_completion x, this', s') /\
    x <> FellThrough /\
    ((exists v, x = ReturnedExec v /\
                call_exec impl this' p s1 = (Normal v, s')) \/
     (exists e c, x = ReturnedFallback c /\
                  call_execFallback impl this' p e s1 = (c, s'))).
Proof.
  intros Hm.
  destruct (Node_retry_loop_exits (Z.to_nat (maxRetries this))
              (set_currentRetry 0 this) p s) as (x & this' & s1 & s' & Hloop & Hx);
    [simpl; lia..|].
  exists x, this', s1, s'. unfold Node__exec. rewrite Hloop.
  repeat split; [|done].
  by destruct Hx as [(v & -> & _)|(e & c & -> & _)].
Qed.

(** C2: when [exec] throws on the attempts [1 .. k-1] and returns [v] on
    attempt [k <= maxRetries], [Node._exec] returns [v]; it has called [exec]
    [k] times (sleeping in between when [wait > 0]) and [execFallback] not at
    all. *)
Theorem retry_success (this : obj Cls) (p : value) (s : rstate W Cls)
    (k : nat) (es : list value) (w1 : W) (v : value) (w2 : W) :
  (1 <= k)%nat ->
  Z.of_nat k <= maxRetries this ->
  exec_raises impl this p 0 (k - 1) (world s) es w1 ->
  exec (impl (cls this)) (set_currentRetry (Z.of_nat k - 1) this) p w1
    = (Normal v, w2) ->
  let s' := {| world := w2;
               log := log s ++ failed_attempts this p 0 (k - 1)
                      ++ [EvExec (set_currentRetry (Z.of_nat k - 1) this) p];
               sched := sched s |} in
  Node__exec impl this p s
    = (Normal v, set_currentRetry (Z.of_nat k - 1) this, s') /\
  fallback_calls (log s') = fallback_calls (log s).
Proof.
  intros Hk Hkm Hraise Hexec s'. split.
  - unfold Node__exec. destruct s as [w lg sc]. simpl in *.
    rewrite (Node_retry_loop_failed _ _ _ _ _ _ _ Hraise) by lia.
    replace (0 + Z.of_nat (k - 1)) with (Z.of_nat k - 1) by lia.
    rewrite Node_retry_loop_step. simpl.
    destruct (Z_lt_dec _ _); [|lia].
    unfold call_exec. simpl. rewrite Hexec. subst s'.
    unfold set_world, emit. simpl. by rewrite <- app_assoc.
  - subst s'. simpl.
    rewrite !fallback_calls_app, fallback_calls_failed_attempts.
    unfold fallback_calls. simpl. lia.
Qed.

(** C3: when [exec] throws on all [maxRetries >= 1] attempts, [Node._exec]
    calls [execFallback] once, with [prepRes] and the error of the last
    attempt, and ends as that call ends: it returns the value the fallback
    returns, and it throws what the fallback throws.  The fallback that
    [Node] declares throws the error it is given. *)
Theorem retry_exhaustion (this : obj Cls) (p : value) (s : rstate W Cls)
    (es : list value) (w1 : W) (e : value) (w2 : W) (c : completion) (w3 : W) :
  1 <= maxRetries this ->
  let last := set_currentRetry (maxRetries this - 1) this in
  let n := Z.to_nat (maxRetries this - 1) in
  exec_raises impl this p 0 n (world s) es w1 ->
  exec (impl (cls this)) last p w1 = (Throw e, w2) ->
  execFallback (impl (cls this)) last p e w2 = (c, w3) ->
  let s' := {| world := w3;
               log := log s ++ failed_attempts this p 0 n
                      ++ [EvExec last p; EvFallback last p e];
               sched := sched s |} in
  Node__exec impl this p s = (c, last, s') /\
  fallback_calls (log s') = S (fallback_calls (log s)) /\
  (execFallback (impl (cls this)) = Node_execFallback -> c = Throw e).
Proof.
  intros Hm last n Hraise Hexec Hfb s'. split; [|split].
  - unfold Node__exec. destruct s as [w lg sc]. simpl in *.
    rewrite (Node_retry_loop_failed _ _ _ _ _ _ _ Hraise) by lia.
    replace (0 + Z.of_nat n) with (maxRetries this - 1) by lia.
    rewrite Node_retry_loop_step. simpl.
    destruct (Z_lt_dec _ _); [|lia].
    unfold call_exec. simpl. fold last. rewrite Hexec.
    rewrite Z.eqb_refl. unfold call_execFallback. simpl. fold last.
    rewrite Hfb. subst s'. unfold set_world, emit. simpl.
    by rewrite <- !app_assoc.
  - subst s'. simpl.
    rewrite !fallback_calls_app, fallback_calls_failed_attempts.
    unfold fallback_calls. simpl. lia.
  - intros Hdefault. rewrite Hdefault in Hfb. unfold Node_execFallback in Hfb.
    congruence.
Qed.

End Retry.

(** ** The sequential batch *)

Section Batch.

Context {W Cls : Type} (impl : Cls -> class_decl W Cls).

Lemma prepend_outputs_app (a b : list value)
    (r : completion * obj Cls * rstate W Cls) :
  prepend_outputs a (prepend_outputs b r) = prepend_outputs (a ++ b) r.
Proof.
  destruct r as [[[[]|] this] s]; simpl; try done. by rewrite app_assoc.
Qed.

Lemma BatchNode_loop_prepend (items acc : list value) (this : obj Cls)
    (s : rstate W Cls) :
  BatchNode_loop impl this items acc s
  = prepend_outputs acc (BatchNode_loop impl this items [] s).
Proof.
  revert this acc s. induction items as [|item rest IH]; intros this acc s; simpl.
  - by rewrite app_nil_r.
  - destruct (Node__exec impl this item s) as [[[r|e] this1] s1]; [|done].
    rewrite (IH this1 (acc ++ [r])), (IH this1 [r]).
    by rewrite prepend_outputs_app.
Qed.

Lemma BatchNode_loop_cycles (items acc outs : list value) (this this' : obj Cls)
    (s s' : rstate W Cls) :
  item_cycles impl this items s outs this' s' ->
  BatchNode_loop impl this items acc s = (Normal (VArr (acc ++ outs)), this', s').
Proof.
  intros Hc. revert acc.
  induction Hc as [this s|this item rest s r this1 s1 outs this2 s2 Hr _ IH];
    intros acc; simpl.
  - by rewrite app_nil_r.
  - rewrite Hr, IH. by rewrite <- app_assoc.
Qed.

Lemma item_cycles_length (items outs : list value) (this this' : obj Cls)
    (s s' : rstate W Cls) :
  item_cycles impl this items s outs this' s' -> length outs = length items.
Proof. induction 1; simpl; congruence. Qed.

(** C5: the outputs of a sequential batch are the outputs of the retry
    cycles of its items, one per item and in the order of the items; a cycle
    is the whole of [Node._exec], retries included. *)
Theorem batch_order (this this' : obj Cls) (items outs : list value)
    (s s' : rstate W Cls) :
  item_cycles impl this items s outs this' s' ->
  BatchNode__exec impl this (VArr items) s = (Normal (VArr outs), this', s') /\
  length outs = length items.
Proof.
  intros Hc. split; [|by eapply item_cycles_length].
  unfold BatchNode__exec. simpl. by rewrite (BatchNode_loop_cycles _ [] _ _ _ _ _ Hc).
Qed.

(** C6: let the items [xs] before [x] have run, and let the cycle of [x] end
    in the fallback.  If the fallback returns [v], the batch goes on with the
    items [ys] after [x], from the state the fallback left, and its outputs
    are those of [xs], then [v], then those of [ys].  If the fallback throws
    [e], the batch throws [e] there and then: no item of [ys] is run. *)
Theorem batch_fault_isolation (this this1 this2 : obj Cls)
    (xs ys outs : list value) (x : value) (c : completion)
    (s s1 s2 : rstate W Cls) :
  item_cycles impl this xs s outs this1 s1 ->
  Node_retry_loop impl (set_currentRetry 0 this1) x s1
    = (ReturnedFallback c, this2, s2) ->
  BatchNode__exec impl this (VArr (xs ++ x :: ys)) s =
  match c with
  | Normal v =>
      prepend_outputs (outs ++ [v]) (BatchNode__exec impl this2 (VArr ys) s2)
  | Throw e => (Throw e, this2, s2)
  end.
Proof.
  intros Hc Hx. unfold BatchNode__exec. simpl.
  assert (forall acc,
    BatchNode_loop impl this (xs ++ x :: ys) acc s =
    match c with
    | Normal v => BatchNode_loop impl this2 ys (acc ++ outs ++ [v]) s2
    | Throw e => (Throw e, this2, s2)
    end) as Hloop.
  { clear -Hc Hx.
    induction Hc as [this s|this item rest s r this1 s1 outs this3 s3 Hr _ IH];
      intros acc; simpl.
    - unfold Node__exec. rewrite Hx. simpl. by destruct c.
    - rewrite Hr, IH by done. destruct c; [|done]. by rewrite <- app_assoc. }
  rewrite Hloop. destruct c; [|done]. simpl. apply BatchNode_loop_prepend.
Qed.

End Batch.

(** ** The parallel batch *)

Section Parallel.

Context {W Cls : Type} (impl : Cls -> class_decl W Cls).

Lemma par_loop_step (ps : pstate W Cls) :
  par_loop impl ps =
  match pick (pending (p_tasks ps)) (sched (p_rt ps)) with
  | Some i => par_loop impl (par_step impl i (pop_sched ps))
  | None => ps
  end.
Proof.
  simp par_loop. destruct (next_task ps) as [[i Hi]|Hn]; simpl.
  - by rewrite Hi.
  - by rewrite Hn.
Qed.

(** What every resumption keeps holds when all calls have settled. *)
Lemma par_loop_invariant (Inv : pstate W Cls -> Prop) :
  (forall ps i t,
     Inv ps -> p_tasks ps !! i = Some t -> is_pending t = true ->
     Inv (par_step impl i (pop_sched ps))) ->
  forall ps, Inv ps ->
  Inv (par_loop impl ps) /\ pending (p_tasks (par_loop impl ps)) = [].
Proof.
  intros Hstep ps. remember (par_measure ps) as n eqn:Hn. revert ps Hn.
  induction n as [n IH] using lt_wf_ind. intros ps -> Hinv.
  rewrite par_loop_step.
  destruct (pick _ _) as [i|] eqn:Hpick.
  - pose proof (par_step_measure _ _ impl _ _ Hpick) as Hlt.
    apply pick_pending in Hpick as (t & Hl & Hp).
    eapply IH; eauto.
  - split; [done|]. destruct (sched (p_rt ps)) as [|k sc]; simpl in Hpick.
    + by destruct (pending (p_tasks ps)).
    + destruct (pending (p_tasks ps)) as [|j pend] eqn:Hpend; [done|].
      apply lookup_ge_None in Hpick.
      pose proof (Nat.mod_upper_bound k (length (j :: pend))). simpl in *. lia.
Qed.

Lemma first_rejection_recorded (this : obj Cls) (ts : list task)
    (s : rstate W Cls) :
  rejection_recorded {| p_this := this; p_tasks := ts;
                        p_rejected := first_rejection ts; p_rt := s |}.
Proof.
  unfold rejection_recorded. simpl. induction ts as [|t ts IH]; simpl.
  - intros e. apply not_elem_of_nil.
  - destruct t as [item c|item|item c|[v|e]];
      try (destruct (first_rejection ts);
           [by apply elem_of_cons; right
           |intros e [?|?]%elem_of_cons; [done|by eapply IH]]).
    apply elem_of_cons. by left.
Qed.

Lemma par_step_rejection_recorded (ps : pstate W Cls) (i : nat) (t : task) :
  rejection_recorded ps -> p_tasks ps !! i = Some t -> is_pending t = true ->
  rejection_recorded (par_step impl i (pop_sched ps)).
Proof.
  unfold rejection_recorded, par_step. simpl. intros Hrec Hl Hp. rewrite Hl.
  destruct (Node_resume _ _ _ _) as [[t' this'] s']. simpl.
  destruct (p_rejected ps) as [e|].
  - apply list_elem_of_lookup in Hrec as [j Hj].
    apply list_elem_of_lookup. exists j.
    rewrite list_lookup_insert_ne; [done|]. intros Hij. subst j.
    rewrite Hl in Hj. injection Hj as ->. discriminate Hp.
  - assert (forall e, t' <> Settled (Throw e) ->
              Settled (Throw e) ∉ <[i:=t']> (p_tasks ps)) as Hothers.
    { intros e Hne [j Hj]%list_elem_of_lookup.
      destruct (decide (i = j)) as [->|Hij].
      - rewrite list_lookup_insert_eq in Hj by (by eapply lookup_lt_Some).
        congruence.
      - rewrite list_lookup_insert_ne in Hj by done.
        eapply Hrec, list_elem_of_lookup; eauto. }
    destruct t' as [item c|item|item c|[v|e]]; try (intros e; by apply Hothers).
    apply list_elem_of_lookup. exists i.
    apply list_lookup_insert_eq. by eapply lookup_lt_Some.
Qed.

Lemma par_step_length (ps : pstate W Cls) (i : nat) :
  length (p_tasks (par_step impl i (pop_sched ps))) = length (p_tasks ps).
Proof.
  unfold par_step. simpl. destruct (p_tasks ps !! i); [|done].
  destruct (Node_resume _ _ _ _) as [[t' this'] s']. simpl.
  apply length_insert.
Qed.

Lemma par_start_length (this : obj Cls) (items : list value) (s : rstate W Cls) :
  length (par_start impl this items s).1.1 = length items.
Proof.
  revert this s. induction items as [|item rest IH]; intros this s; [done|].
  simpl. destruct (Node_attempt _ _ _ _) as [t s1].
  specialize (IH (set_currentRetry 0 this) s1).
  destruct (par_start _ _ _ _) as [[ts this'] s']. simpl in *. by rewrite IH.
Qed.

Lemma pending_from_nil (k : nat) (ts : list task) :
  pending_from k ts = [] -> exists cs, ts = Settled <$> cs.
Proof.
  revert k. induction ts as [|t ts IH]; intros k Hp.
  - by exists [].
  - simpl in Hp. destruct t as [item c|item|item c|c]; try done.
    destruct (IH _ Hp) as [cs ->]. by exists (c :: cs).
Qed.

Lemma omap_settled_value_normal (out : list value) :
  omap settled_value (Settled <$> (Normal <$> out)) = out.
Proof. induction out as [|v out IH]; simpl; [done|]. by f_equal. Qed.

Lemma all_normal (cs : list completion) :
  (forall e, Settled (Throw e) ∉ Settled <$> cs) ->
  cs = Normal <$> omap settled_value (Settled <$> cs).
Proof.
  induction cs as [|[v|e] cs IH]; intros Hno; simpl; [done| |].
  - f_equal. apply IH. intros e He. apply (Hno e). by right.
  - exfalso. apply (Hno e). by left.
Qed.

Lemma Node_resume_cls (this : obj Cls) (t : task) (s : rstate W Cls) :
  cls (Node_resume impl this t s).1.2 = cls this.
Proof.
  destruct t as [item [v|e]|item|item c|c]; simpl; try done.
  - destruct (_ =? _); [by destruct (call_execFallback _ _ _ _ _)|].
    destruct (0 <? _); [done|]. by destruct (Node_attempt _ _ _ _).
  - by destruct (Node_attempt _ _ _ _).
Qed.

Lemma par_start_cls (this : obj Cls) (items : list value) (s : rstate W Cls) :
  cls (par_start impl this items s).1.2 = cls this.
Proof.
  revert this s. induction items as [|item rest IH]; intros this s; [done|].
  simpl. destruct (Node_attempt _ _ _ _) as [t s1].
  specialize (IH (set_currentRetry 0 this) s1).
  by destruct (par_start _ _ _ _) as [[ts this'] s'].
Qed.

Lemma par_start_lookup (this : obj Cls) (items : list value) (s : rstate W Cls)
    (i : nat) (item : value) :
  items !! i = Some item ->
  exists o s1, cls o = cls this /\
    (par_start impl this items s).1.1 !! i = Some (Node_attempt impl o item s1).1.
Proof.
  revert this s i. induction items as [|x rest IH]; intros this s i Hi; [done|].
  simpl. destruct (Node_attempt impl (set_currentRetry 0 this) x s) as [t s1] eqn:Ht.
  destruct i as [|i]; simpl in Hi.
  - injection Hi as ->. exists (set_currentRetry 0 this), s.
    rewrite Ht. by destruct (par_start _ _ _ _) as [[ts this'] s'].
  - destruct (IH (set_currentRetry 0 this) s1 i Hi) as (o & s2 & Hcls & Hl).
    exists o, s2. by destruct (par_start _ _ _ _) as [[ts this'] s'].
Qed.

Section Doomed.

Variables (c0 : Cls) (item : value).
Hypothesis exec_throws :
  forall o w, exists e w', exec (impl c0) o item w = (Throw e, w').
Hypothesis fallback_throws :
  forall o e w, exists e' w', execFallback (impl c0) o item e w = (Throw e', w').

Lemma Node_attempt_doomed (this : obj Cls) (s : rstate W Cls) :
  cls this = c0 -> doomed item (Node_attempt impl this item s).1.
Proof.
  intros Hcls. unfold Node_attempt. destruct (Z_lt_dec _ _); [|done].
  unfold call_exec. rewrite Hcls.
  by destruct (exec_throws this (world s)) as (e & w' & ->).
Qed.

Lemma Node_resume_doomed (this : obj Cls) (t : task) (s : rstate W Cls) :
  cls this = c0 -> doomed item t -> doomed item (Node_resume impl this t s).1.1.
Proof.
  intros Hcls Hd. destruct t as [it [v|e]|it|it [v|e]|[v|e]]; simpl in *;
    try done; subst it.
  - destruct (_ =? _).
    { unfold call_execFallback. rewrite Hcls.
      by destruct (fallback_throws this e (world s)) as (e' & w' & ->). }
    destruct (0 <? _); [done|].
    pose proof (Node_attempt_doomed
                  (set_currentRetry (currentRetry this + 1) this) s Hcls).
    by destruct (Node_attempt _ _ _ _).
  - pose proof (Node_attempt_doomed
                  (set_currentRetry (currentRetry this + 1) this) s Hcls).
    by destruct (Node_attempt _ _ _ _).
Qed.

Lemma par_step_doomed (i j : nat) (ps : pstate W Cls) :
  doomed_at c0 item i ps -> doomed_at c0 item i (par_step impl j (pop_sched ps)).
Proof.
  intros [Hcls (t & Hl & Hd)]. unfold doomed_at, par_step. simpl.
  destruct (p_tasks ps !! j) as [tj|] eqn:Hj; [|by eauto].
  pose proof (Node_resume_cls (p_this ps) tj (p_rt (pop_sched ps))) as Hc.
  pose proof (Node_resume_doomed (p_this ps) tj (p_rt (pop_sched ps)) Hcls) as Hr.
  simpl in Hc, Hr.
  destruct (Node_resume _ _ _ _) as [[t' this'] s']. simpl in *.
  split; [congruence|].
  destruct (decide (j = i)) as [->|Hne].
  - exists t'. rewrite list_lookup_insert_eq by (by eapply lookup_lt_Some).
    split; [done|]. apply Hr. congruence.
  - exists t. by rewrite list_lookup_insert_ne.
Qed.

End Doomed.

Lemma par_settle_invariant (Inv : pstate W Cls -> Prop) (this : obj Cls)
    (items : list value) (s : rstate W Cls) :
  (forall ps i t,
     Inv ps -> p_tasks ps !! i = Some t -> is_pending t = true ->
     Inv (par_step impl i (pop_sched ps))) ->
  (forall ts this0 s0,
     par_start impl this items s = (ts, this0, s0) ->
     Inv {| p_this := this0; p_tasks := ts;
            p_rejected := first_rejection ts; p_rt := s0 |}) ->
  Inv (par_settle impl this items s) /\
  pending (p_tasks (par_settle impl this items s)) = [].
Proof.
  intros Hstep Hstart. unfold par_settle.
  destruct (par_start impl this items s) as [[ts this0] s0] eqn:Hs.
  apply par_loop_invariant; [done|by apply Hstart].
Qed.

(** All calls settle, and [p_rejected] tells whether one of them threw. *)
Lemma par_settle_settled (this : obj Cls) (items : list value)
    (s : rstate W Cls) :
  rejection_recorded (par_settle impl this items s) /\
  exists cs : list completion,
    p_tasks (par_settle impl this items s) = Settled <$> cs /\
    length cs = length items.
Proof.
  destruct (par_settle_invariant
              (fun ps => rejection_recorded ps /\
                         length (p_tasks ps) = length items) this items s)
    as [[Hrec Hl] Hpend].
  { intros ps i t [Hr Hn] Hi Hp. split.
    - by eapply par_step_rejection_recorded.
    - by rewrite par_step_length. }
  { intros ts this0 s0 Hs. split; [apply first_rejection_recorded|]. simpl.
    pose proof (par_start_length this items s) as Hlen. by rewrite Hs in Hlen. }
  split; [done|]. apply pending_from_nil in Hpend as [cs Hcs].
  exists cs. split; [done|]. by rewrite Hcs, length_fmap in Hl.
Qed.

(** A call for an item on which [exec] and the fallback always throw ends
    rejected. *)
Lemma par_settle_doomed (this : obj Cls) (items : list value) (s : rstate W Cls)
    (i : nat) (item : value) :
  items !! i = Some item ->
  (forall o w, exists e w', exec (impl (cls this)) o item w = (Throw e, w')) ->
  (forall o e w, exists e' w',
     execFallback (impl (cls this)) o item e w = (Throw e', w')) ->
  exists t, p_tasks (par_settle impl this items s) !! i = Some t /\
            doomed item t.
Proof.
  intros Hi Hexec Hfb.
  destruct (par_settle_invariant (doomed_at (cls this) item i) this items s)
    as [[_ Ht] _]; [| |done].
  { intros ps j t Hdoom _ _. by eapply par_step_doomed. }
  intros ts this0 s0 Hs. split; simpl.
  - pose proof (par_start_cls this items s) as Hc. by rewrite Hs in Hc.
  - destruct (par_start_lookup this items s i item Hi) as (o & s1 & Ho & Hti).
    rewrite Hs in Hti. eexists. split; [exact Hti|].
    by eapply Node_attempt_doomed.
Qed.

(** [Promise.all] over the calls of [Node._exec], one per item, as the
    batch runs them: interleaved on one object.  All of them settle,
    whatever the order in which they are resumed; [cs] is how.
    The batch returns an array exactly when every call has returned a value
    (of [exec] or of the fallback), and the array holds these values in the
    order of the items.  If a call has thrown, the batch throws the error of
    a call that has thrown, and the values of the others are dropped.  This
    is so whenever, for some item, [exec] throws at every attempt and the
    fallback throws as well, as the fallback of [Node] does. *)
Theorem parallel_batch_join (this : obj Cls) (items : list value)
    (s : rstate W Cls) :
  let ps := par_settle impl this items s in
  exists cs : list completion,
    p_tasks ps = Settled <$> cs /\
    length cs = length items /\
    ParallelBatchNode__exec impl this (VArr items) s
      = (Promise_all ps, p_this ps, p_rt ps) /\
    (forall out, Promise_all ps = Normal (VArr out) <-> cs = Normal <$> out) /\
    (forall e, Throw e ∈ cs ->
       exists e', Promise_all ps = Throw e' /\ Throw e' ∈ cs) /\
    (forall i item,
       items !! i = Some item ->
       (forall o w, exists e w', exec (impl (cls this)) o item w = (Throw e, w')) ->
       (forall o e w, exists e' w',
          execFallback (impl (cls this)) o item e w = (Throw e', w')) ->
       exists e, Promise_all ps = Throw e).
Proof.
  intros ps. destruct (par_settle_settled this items s) as (Hrec & cs & Hcs & Hlen).
  fold ps in Hrec, Hcs.
  assert (forall e, Throw e ∈ cs ->
            exists e', Promise_all ps = Throw e' /\ Throw e' ∈ cs) as Hthrow.
  { intros e He. unfold Promise_all, rejection_recorded in *.
    rewrite Hcs in Hrec. destruct (p_rejected ps) as [e'|].
    - exists e'. split; [done|].
      apply list_elem_of_fmap in Hrec as (c & Hc & Hin). by injection Hc as <-.
    - exfalso. apply (Hrec e). by apply list_elem_of_fmap_2. }
  exists cs. split; [done|]. split; [done|]. split; [done|].
  split; [|split; [done|]].
  - intros out. unfold Promise_all, rejection_recorded in *.
    rewrite Hcs in *. split.
    + destruct (p_rejected ps); [done|]. intros [= <-]. by apply all_normal.
    + intros ->. destruct (p_rejected ps) as [e|].
      * apply list_elem_of_fmap in Hrec as (c & Hc & Hin).
        apply list_elem_of_fmap in Hin as (v & -> & _). done.
      * by rewrite omap_settled_value_normal.
  - intros i item Hi Hexec Hfb.
    destruct (par_settle_doomed this items s i item Hi Hexec Hfb) as (t & Ht & Hd).
    fold ps in Ht. rewrite Hcs in Ht.
    apply list_lookup_fmap_Some in Ht as (c & -> & Hc).
    destruct c as [v|e]; [done|].
    destruct (Hthrow e) as (e' & He' & _); [by eapply list_elem_of_lookup_2|].
    by exists e'.
Qed.

Lemma Node_attempt_for (this : obj Cls) (item : value) (s : rstate W Cls) :
  task_for impl (cls this) item (Node_attempt impl this item s).1.
Proof.
  unfold Node_attempt. destruct (Z_lt_dec _ _); [|done].
  unfold call_exec.
  destruct (exec (impl (cls this)) this item (world s)) as [c w] eqn:He. simpl.
  split; [done|]. intros v ->. left. exists this, (world s). by rewrite He.
Qed.

Lemma Node_resume_for (this : obj Cls) (item : value) (t : task)
    (s : rstate W Cls) :
  task_for impl (cls this) item t ->
  task_for impl (cls this) item (Node_resume impl this t s).1.1.
Proof.
  intros Ht. destruct t as [it [v|e]|it|it c|c]; simpl in *.
  - destruct Ht as [_ Hv]. by apply Hv.
  - destruct Ht as [-> _]. destruct (_ =? _).
    { unfold call_execFallback.
      destruct (execFallback (impl (cls this)) this item e (world s))
        as [c w] eqn:Hf. simpl.
      split; [done|]. intros v ->. right. exists this, e, (world s).
      by rewrite Hf. }
    destruct (0 <? _); [done|].
    pose proof (Node_attempt_for
                  (set_currentRetry (currentRetry this + 1) this) item s).
    by destruct (Node_attempt _ _ _ _).
  - subst it.
    pose proof (Node_attempt_for
                  (set_currentRetry (currentRetry this + 1) this) item s).
    by destruct (Node_attempt _ _ _ _).
  - destruct Ht as [_ Hv]. destruct c; [by apply Hv|done].
  - done.
Qed.

(** What holds of the order of the outputs: whatever the order in which the
    calls are resumed, the value at position [i] of the output was returned
    by [exec] or by the fallback called with the item at position [i]. *)
Lemma parallel_batch_positions (this this' : obj Cls) (items out : list value)
    (s s' : rstate W Cls) :
  ParallelBatchNode__exec impl this (VArr items) s = (Normal (VArr out), this', s') ->
  Forall2 (made_for impl (cls this)) items out.
Proof.
  intros Hexec.
  destruct (par_settle_settled this items s) as (Hrec & cs & Hcs & Hlen).
  destruct (par_settle_invariant
              (fun ps => cls (p_this ps) = cls this /\
                 forall i item t, items !! i = Some item ->
                   p_tasks ps !! i = Some t -> task_for impl (cls this) item t)
              this items s) as [[_ Hfor] _].
  { intros ps i t [Hcls Hall] Hi Hp. unfold par_step. simpl. rewrite Hi.
    pose proof (Node_resume_cls (p_this ps) t (p_rt (pop_sched ps))) as Hc.
    pose proof (fun item => Node_resume_for (p_this ps) item t
                              (p_rt (pop_sched ps))) as Hr.
    simpl in Hc, Hr. destruct (Node_resume _ _ _ _) as [[t' this1] s1].
    simpl in *. split; [congruence|].
    intros j item tj Hj Htj. destruct (decide (i = j)) as [->|Hne].
    - rewrite list_lookup_insert_eq in Htj by (by eapply lookup_lt_Some).
      injection Htj as <-. rewrite <- Hcls. apply Hr. rewrite Hcls. by eapply Hall.
    - rewrite list_lookup_insert_ne in Htj by done. by eapply Hall. }
  { intros ts this0 s0 Hs. simpl.
    pose proof (par_start_cls this items s) as Hc. rewrite Hs in Hc.
    split; [done|]. intros i item t Hi Ht.
    destruct (par_start_lookup this items s i item Hi) as (o & s1 & Ho & Hti).
    rewrite Hs in Hti. simpl in Hti. rewrite Ht in Hti. injection Hti as ->.
    rewrite <- Ho. apply Node_attempt_for. }
  unfold ParallelBatchNode__exec in Hexec. simpl in Hexec.
  injection Hexec as Hall _ _. unfold Promise_all in Hall.
  unfold rejection_recorded in Hrec.
  destruct (p_rejected _); [done|]. injection Hall as Hout.
  rewrite Hcs in Hrec, Hout. apply all_normal in Hrec. rewrite Hout in Hrec.
  subst cs. rewrite length_fmap in Hlen.
  apply Forall2_same_length_lookup_2; [done|].
  intros i item v Hi Hv. apply (Hfor i item (Settled (Normal v)) Hi).
  by rewrite Hcs, !list_lookup_fmap, Hv.
Qed.

End Parallel.

(** ** What a run leaves of [this] *)

Section Footprint.

Context {W Cls : Type} (impl : Cls -> class_decl W Cls).

(** C10: on a [prepRes] that is not an array ([null] and [undefined] are
    such), both batch steps return the empty array at once: nothing is
    called, nothing is logged, and [this] is as it was. *)
Theorem batch_non_array (this : obj Cls) (p : value) (s : rstate W Cls) :
  p = VNull \/ p = VUndefined \/ isArray p = false ->
  BatchNode__exec impl this p s = (Normal (VArr []), this, s) /\
  ParallelBatchNode__exec impl this p s = (Normal (VArr []), this, s).
Proof.
  intros Hp. assert (isArray p = false) as Harr by (by destruct Hp as [->|[->|?]]).
  unfold BatchNode__exec, ParallelBatchNode__exec.
  destruct p; try done; simpl; by rewrite ?orb_true_r.
Qed.

Lemma upto_retry_refl (this : obj Cls) : upto_retry this this.
Proof. exists (currentRetry this). by destruct this. Qed.

Lemma upto_retry_set (c : Z) (this this' : obj Cls) :
  upto_retry (set_currentRetry c this) this' -> upto_retry this this'.
Proof. intros [c' ->]. by exists c'. Qed.

Lemma upto_retry_trans (a b c : obj Cls) :
  upto_retry a b -> upto_retry b c -> upto_retry a c.
Proof. intros [x ->] [y ->]. by exists y. Qed.

Lemma Node_retry_loop_upto (n : nat) (this : obj Cls) p (s : rstate W Cls) :
  (Z.to_nat (maxRetries this - currentRetry this) <= n)%nat ->
  upto_retry this (Node_retry_loop impl this p s).1.2.
Proof.
  revert this s. induction n as [|n IH]; intros this s Hn;
    rewrite Node_retry_loop_step;
    (destruct (Z_lt_dec _ _); [|apply upto_retry_refl]); [lia|].
  destruct (call_exec impl this p s) as [[v|e] s1]; [apply upto_retry_refl|].
  destruct (_ =? _).
  { destruct (call_execFallback _ _ _ _ _). apply upto_retry_refl. }
  eapply upto_retry_set, IH. simpl. lia.
Qed.

Lemma Node__exec_upto (this : obj Cls) p (s : rstate W Cls) :
  upto_retry this (Node__exec impl this p s).1.2.
Proof.
  unfold Node__exec.
  pose proof (Node_retry_loop_upto _ (set_currentRetry 0 this) p s (Nat.le_refl _)).
  destruct (Node_retry_loop _ _ _ _) as [[x this'] s']. by eapply upto_retry_set.
Qed.

Lemma BatchNode_loop_upto (items acc : list value) (this : obj Cls)
    (s : rstate W Cls) :
  upto_retry this (BatchNode_loop impl this items acc s).1.2.
Proof.
  revert this acc s. induction items as [|item rest IH]; intros this acc s; simpl.
  - apply upto_retry_refl.
  - pose proof (Node__exec_upto this item s) as H.
    destruct (Node__exec impl this item s) as [[[r|e] this1] s1]; [|done].
    eapply upto_retry_trans; [exact H|apply IH].
Qed.

Lemma Node_resume_upto (this : obj Cls) (t : task) (s : rstate W Cls) :
  upto_retry this (Node_resume impl this t s).1.2.
Proof.
  destruct t as [item [v|e]|item|item c|c]; simpl; try apply upto_retry_refl.
  - destruct (_ =? _).
    { destruct (call_execFallback _ _ _ _ _). apply upto_retry_refl. }
    destruct (0 <? _); [apply upto_retry_refl|].
    destruct (Node_attempt _ _ _ _). by eexists.
  - destruct (Node_attempt _ _ _ _). by eexists.
Qed.

Lemma par_start_upto (this : obj Cls) (items : list value) (s : rstate W Cls) :
  upto_retry this (par_start impl this items s).1.2.
Proof.
  revert this s. induction items as [|item rest IH]; intros this s; simpl.
  - apply upto_retry_refl.
  - destruct (Node_attempt _ _ _ _) as [t s1].
    specialize (IH (set_currentRetry 0 this) s1).
    destruct (par_start _ _ _ _) as [[ts this'] s']. by eapply upto_retry_set.
Qed.

Lemma par_settle_upto (this : obj Cls) (items : list value) (s : rstate W Cls) :
  upto_retry this (p_this (par_settle impl this items s)).
Proof.
  unfold par_settle. pose proof (par_start_upto this items s) as Hs.
  destruct (par_start _ _ _ _) as [[ts this0] s0]. simpl in Hs.
  apply (par_loop_invariant impl (fun ps => upto_retry this (p_this ps))); [|done].
  intros ps i t Hinv Hi _. unfold par_step. simpl. rewrite Hi.
  pose proof (Node_resume_upto (p_this ps) t (p_rt (pop_sched ps))) as Hr.
  simpl in Hr. destruct (Node_resume _ _ _ _) as [[t' this'] s'].
  by eapply upto_retry_trans.
Qed.

Lemma dispatch__exec_upto (this : obj Cls) p (s : rstate W Cls) :
  upto_retry this (dispatch__exec impl this p s).1.2.
Proof.
  unfold dispatch__exec. destruct (extends _).
  - destruct (call_exec _ _ _ _). apply upto_retry_refl.
  - apply Node__exec_upto.
  - unfold BatchNode__exec. destruct (_ || _); [apply upto_retry_refl|].
    destruct p; try apply upto_retry_refl. apply BatchNode_loop_upto.
  - unfold ParallelBatchNode__exec. destruct (_ || _); [apply upto_retry_refl|].
    destruct p; try apply upto_retry_refl. apply par_settle_upto.
  - destruct (call_exec _ _ _ _). apply upto_retry_refl.
  - destruct (call_exec _ _ _ _). apply upto_retry_refl.
Qed.

Lemma BaseNode__run_upto (this : obj Cls) (s : rstate W Cls) :
  upto_retry this (BaseNode__run impl this s).1.2.
Proof.
  unfold BaseNode__run. destruct (call_prep _ _ _) as [[p|e] s1];
    [|apply upto_retry_refl].
  pose proof (dispatch__exec_upto this p s1) as H.
  destruct (dispatch__exec _ _ _ _) as [[[r|e] this'] s2]; [|done].
  by destruct (call_post _ _ _ _ _).
Qed.

Lemma wf_obj_upto (n : nat) (this this' : obj Cls) :
  upto_retry this this' -> wf_obj n this -> wf_obj n this'.
Proof. by intros [c ->]. Qed.

End Footprint.

(** ** Isolation of runs *)

Section Isolation.

Context {W Cls : Type} (impl : Cls -> class_decl W Cls).
Variable defs : list (obj Cls).
Hypothesis defs_wf : wf_store defs.

Lemma keeps_length (h : list (obj Cls)) :
  keeps defs h -> (length defs <= length h)%nat.
Proof.
  intros Hk. destruct (decide (length defs <= length h)%nat) as [|Hlt]; [done|].
  destruct (lookup_lt_is_Some_2 defs (length h)) as [o Ho]; [lia|].
  apply Hk, lookup_lt_Some in Ho. lia.
Qed.

Lemma keeps_frame (c : loc) (h h' : list (obj Cls)) :
  keeps defs h -> frame c h h' -> (length defs <= c)%nat -> keeps defs h'.
Proof.
  intros Hk [_ Hf] Hc l o Ho. pose proof (lookup_lt_Some _ _ _ Ho).
  pose proof (keeps_length _ Hk). rewrite Hf by lia. by apply Hk.
Qed.

Lemma keeps_grows (h h' : list (obj Cls)) :
  keeps defs h -> grows h h' -> keeps defs h'.
Proof.
  intros Hk [_ Hg] l o Ho. pose proof (lookup_lt_Some _ _ _ Ho).
  pose proof (keeps_length _ Hk). rewrite Hg by lia. by apply Hk.
Qed.

Lemma keeps_insert (c : loc) (o : obj Cls) (h : list (obj Cls)) :
  keeps defs h -> (length defs <= c)%nat -> keeps defs (<[c := o]> h).
Proof.
  intros Hk Hc l o' Ho. pose proof (lookup_lt_Some _ _ _ Ho).
  rewrite list_lookup_insert_ne by lia. by apply Hk.
Qed.

Lemma keeps_app (h x : list (obj Cls)) : keeps defs h -> keeps defs (h ++ x).
Proof. intros Hk l o Ho. apply lookup_app_l_Some. by apply Hk. Qed.

Lemma keeps_defs (h : list (obj Cls)) (l : loc) :
  keeps defs h -> (l < length defs)%nat ->
  exists o, defs !! l = Some o /\ h !! l = Some o /\ wf_obj (length defs) o.
Proof.
  intros Hk Hl. destruct (lookup_lt_is_Some_2 defs l Hl) as [o Ho].
  exists o. split; [done|]. split; [by apply Hk|].
  by eapply (Forall_lookup_1 _ _ _ _ defs_wf).
Qed.

Lemma frame_refl (c : loc) (h : list (obj Cls)) : frame c h h.
Proof. by split. Qed.

Lemma grows_refl (h : list (obj Cls)) : grows h h.
Proof. by split. Qed.

Lemma grows_frame (c : loc) (h h' : list (obj Cls)) : grows h h' -> frame c h h'.
Proof. intros [Hl Hg]. split; [done|]. intros l Hlt _. by apply Hg. Qed.

Lemma frame_insert (c : loc) (o : obj Cls) (h : list (obj Cls)) :
  frame c h (<[c := o]> h).
Proof.
  split; [by rewrite length_insert|].
  intros l _ Hne. by rewrite list_lookup_insert_ne.
Qed.

Lemma frame_trans (c : loc) (h1 h2 h3 : list (obj Cls)) :
  frame c h1 h2 -> frame c h2 h3 -> frame c h1 h3.
Proof.
  intros [Hl1 Hf1] [Hl2 Hf2]. split; [lia|].
  intros l Hl Hne. rewrite Hf2, Hf1 by (done || lia). done.
Qed.

Lemma grows_trans (h1 h2 h3 : list (obj Cls)) :
  grows h1 h2 -> grows h2 h3 -> grows h1 h3.
Proof.
  intros [Hl1 Hg1] [Hl2 Hg2]. split; [lia|].
  intros l Hl. rewrite Hg2, Hg1 by (done || lia). done.
Qed.

Lemma grows_app (h x : list (obj Cls)) : grows h (h ++ x).
Proof.
  split; [rewrite length_app; lia|]. intros l Hl. by apply lookup_app_l.
Qed.

Lemma wf_obj_clone (n : nat) (o : obj Cls) :
  wf_obj n o -> wf_obj n (BaseNode_clone o).
Proof. done. Qed.

Lemma wf_obj_setParams (n : nat) (p : gmap string value) (o : obj Cls) :
  wf_obj n o -> wf_obj n (BaseNode_setParams p o).
Proof. done. Qed.

Lemma getNextNode_wf (n : nat) (this : obj Cls) (action : value)
    (s : rstate W Cls) (l : loc) :
  wf_obj n this -> (BaseNode_getNextNode this action s).1 = Some l -> (l < n)%nat.
Proof.
  intros [Hsucc _]. unfold BaseNode_getNextNode. simpl.
  match goal with |- context [if truthy ?a then _ else _] =>
    destruct (if truthy a then a else VStr "default") end; try done.
  apply Hsucc.
Qed.

Lemma orchestrate_with_refines
    (loop_h : option loc -> gmap string value -> list (obj Cls) -> rstate W Cls
              -> result W Cls)
    (loop_c : option (obj Cls) -> gmap string value -> rstate W Cls
              -> copy_result) :
  loop_refines defs loop_h loop_c ->
  orchestrate_refines defs (Flow__orchestrate_with loop_h)
                      (copy_orchestrate_with defs loop_c).
Proof.
  intros Hloop l this params h s Hk Hwf Hl.
  unfold Flow__orchestrate_with, copy_orchestrate_with. rewrite Hl. simpl.
  destruct (start this) as [st|] eqn:Hst.
  2:{ exists h. split; [done|apply grows_refl]. }
  destruct (keeps_defs h st Hk) as (o & Hdo & Hho & Hwo); [by apply Hwf|].
  rewrite Hdo, Hho. simpl.
  specialize (Hloop (length h) (BaseNode_clone o) (default (_params this) params)
                (h ++ [BaseNode_clone o]) s).
  destruct (loop_c _ _ _) as [[a s']|].
  - destruct Hloop as (h' & Hrun & Hf);
      [by apply keeps_app|done|by apply list_lookup_middle
      |by apply keeps_length|].
    exists h'. split; [done|]. destruct Hf as [Hlen Hf].
    rewrite length_app in Hlen. simpl in Hlen. split; [lia|].
    intros l0 Hl0. rewrite Hf; [by apply lookup_app_l| |lia].
    rewrite length_app. lia.
  - apply Hloop; [by apply keeps_app|done|by apply list_lookup_middle
                 |by apply keeps_length].
Qed.

Lemma Flow_run_with_refines
    (orch_h : loc -> option (gmap string value) -> list (obj Cls) -> rstate W Cls
              -> result W Cls)
    (orch_c : obj Cls -> option (gmap string value) -> rstate W Cls
              -> copy_result) :
  orchestrate_refines defs orch_h orch_c ->
  run_refines defs (Flow__run_with impl orch_h) (copy_Flow_run_with impl orch_c).
Proof.
  intros Horch c this h s Hk Hwf Hl Hc.
  unfold Flow__run_with, copy_Flow_run_with. rewrite Hl. simpl.
  destruct (call_prep impl this s) as [[pr|e] s1].
  2:{ exists h. eauto using frame_refl. }
  match goal with |- context [orch_c this ?ps s1] =>
    specialize (Horch c this ps h s1 Hk Hwf Hl);
    destruct (orch_c this ps s1) as [[[v|e] s2]|] end.
  - destruct Horch as (h2 & -> & Hg).
    assert (h2 !! c = Some this) as Hl2.
    { destruct Hg as [_ Hg]. rewrite Hg; [done|by eapply lookup_lt_Some]. }
    rewrite Hl2. simpl. destruct (call_post impl this pr VUndefined s2) as [a s3].
    exists h2. eauto using grows_frame.
  - destruct Horch as (h2 & -> & Hg).
    assert (h2 !! c = Some this) as Hl2.
    { destruct Hg as [_ Hg]. rewrite Hg; [done|by eapply lookup_lt_Some]. }
    exists h2. eauto using grows_frame.
  - by rewrite Horch.
Qed.

Lemma BatchFlow_loop_refines
    (orch_h : loc -> option (gmap string value) -> list (obj Cls) -> rstate W Cls
              -> result W Cls)
    (orch_c : obj Cls -> option (gmap string value) -> rstate W Cls
              -> copy_result)
    (bps : list value) :
  orchestrate_refines defs orch_h orch_c ->
  forall l this h s,
    keeps defs h -> wf_obj (length defs) this -> h !! l = Some this ->
    match copy_BatchFlow_loop orch_c this bps s with
    | None => BatchFlow_loop orch_h l bps h s = None
    | Some (a, s') =>
        exists h', BatchFlow_loop orch_h l bps h s = Some (a, h', s') /\ grows h h'
    end.
Proof.
  intros Horch. induction bps as [|bp rest IH]; intros l this h s Hk Hwf Hl; simpl.
  { exists h. split; [done|apply grows_refl]. }
  rewrite Hl. simpl.
  match goal with |- context [orch_c this ?ps s] =>
    pose proof (Horch l this ps h s Hk Hwf Hl) as Ho;
    destruct (orch_c this ps s) as [[[v|e] s2]|] end.
  - destruct Ho as (h2 & -> & Hg).
    assert (h2 !! l = Some this) as Hl2.
    { destruct Hg as [_ Hg']. rewrite Hg'; [done|by eapply lookup_lt_Some]. }
    specialize (IH l this h2 s2 (keeps_grows _ _ Hk Hg) Hwf Hl2).
    destruct (copy_BatchFlow_loop orch_c this rest s2) as [[a s']|]; [|done].
    destruct IH as (h' & -> & Hg2). exists h'. eauto using grows_trans.
  - destruct Ho as (h2 & -> & Hg). exists h2. eauto.
  - by rewrite Ho.
Qed.

Lemma BatchFlow_run_with_refines
    (orch_h : loc -> option (gmap string value) -> list (obj Cls) -> rstate W Cls
              -> result W Cls)
    (orch_c : obj Cls -> option (gmap string value) -> rstate W Cls
              -> copy_result) :
  orchestrate_refines defs orch_h orch_c ->
  run_refines defs (BatchFlow__run_with impl orch_h)
              (copy_BatchFlow_run_with impl orch_c).
Proof.
  intros Horch c this h s Hk Hwf Hl Hc.
  unfold BatchFlow__run_with, copy_BatchFlow_run_with. rewrite Hl. simpl.
  destruct (call_prep impl this s) as [[bp|e] s1].
  2:{ exists h. eauto using frame_refl. }
  assert (match (let '(c0, s2) := call_post impl this (VArr []) VUndefined s1 in
                 Some (c0, this, s2)) with
          | None => (let '(c0, s2) := call_post impl this (VArr []) VUndefined s1 in
                     Some (c0, h, s2)) = None
          | Some (a, this', s') =>
              exists h', (let '(c0, s2) := call_post impl this (VArr []) VUndefined s1
                          in Some (c0, h, s2)) = Some (a, h', s') /\
                         frame c h h' /\ h' !! c = Some this' /\
                         wf_obj (length defs) this'
          end) as Hno.
  { destruct (call_post impl this (VArr []) VUndefined s1) as [a s2].
    exists h. eauto using frame_refl. }
  destruct (negb (truthy bp) || negb (isArray bp)); [done|].
  destruct bp as [| | | | |bps| |]; try done.
  pose proof (BatchFlow_loop_refines orch_h orch_c bps Horch c this h s1 Hk Hwf Hl)
    as Hloop.
  destruct (copy_BatchFlow_loop orch_c this bps s1) as [[[v|e] s2]|].
  - destruct Hloop as (h2 & -> & Hg).
    assert (h2 !! c = Some this) as Hl2.
    { destruct Hg as [_ Hg']. rewrite Hg'; [done|by eapply lookup_lt_Some]. }
    rewrite Hl2. simpl.
    destruct (call_post impl this (VArr bps) VUndefined s2) as [a s3].
    exists h2. eauto using grows_frame.
  - destruct Hloop as (h2 & -> & Hg).
    assert (h2 !! c = Some this) as Hl2.
    { destruct Hg as [_ Hg']. rewrite Hg'; [done|by eapply lookup_lt_Some]. }
    exists h2. eauto using grows_frame.
  - by rewrite Hloop.
Qed.

Lemma leaf_run_refines (c : loc) (this : obj Cls) (h : list (obj Cls))
    (s : rstate W Cls) :
  wf_obj (length defs) this -> h !! c = Some this ->
  match Some (BaseNode__run impl this s) with
  | None => (let '(a, this', s') := BaseNode__run impl this s in
             Some (a, <[c := this']> h, s')) = None
  | Some (a, this', s') =>
      exists h', (let '(a, this', s') := BaseNode__run impl this s in
                  Some (a, <[c := this']> h, s')) = Some (a, h', s') /\
                 frame c h h' /\ h' !! c = Some this' /\
                 wf_obj (length defs) this'
  end.
Proof.
  intros Hwf Hl. pose proof (BaseNode__run_upto impl this s) as Hup.
  destruct (BaseNode__run impl this s) as [[a this'] s']. simpl in Hup.
  exists (<[c := this']> h). split; [done|]. split; [apply frame_insert|].
  split; [|by eapply wf_obj_upto].
  apply list_lookup_insert_eq. by eapply lookup_lt_Some.
Qed.

Lemma run_refines_from_loop (fuel : nat) :
  (forall fuel', fuel = S fuel' ->
     loop_refines defs (Flow_loop impl fuel') (copy_loop impl defs fuel')) ->
  run_refines defs (_run impl fuel) (copy_run impl defs fuel).
Proof.
  intros Hloop c this h s Hk Hwf Hl Hc.
  destruct fuel as [|fuel']; simpl; rewrite Hl; simpl;
    destruct (extends (impl (cls this))); try done;
    try (by apply leaf_run_refines).
  - apply Flow_run_with_refines; try done.
    by apply orchestrate_with_refines, Hloop.
  - apply BatchFlow_run_with_refines; try done.
    by apply orchestrate_with_refines, Hloop.
Qed.

Local Opaque BaseNode_getNextNode.

Lemma loop_refines_step (fuel : nat) :
  run_refines defs (_run impl fuel) (copy_run impl defs fuel) ->
  loop_refines defs (Flow_loop impl fuel) (copy_loop impl defs fuel) ->
  loop_refines defs (Flow_loop impl (S fuel)) (copy_loop impl defs (S fuel)).
Proof.
  intros Hrun Hloop c cur p h s Hk Hwf Hl Hc. simpl. rewrite Hl. simpl.
  set (cur1 := BaseNode_setParams p cur).
  assert (h !! c = Some cur) as Hl0 by done.
  specialize (Hrun c cur1 (<[c := cur1]> h) s (keeps_insert _ _ _ Hk Hc)
                (wf_obj_setParams _ _ _ Hwf)).
  rewrite list_lookup_insert_eq in Hrun by (by eapply lookup_lt_Some).
  specialize (Hrun eq_refl Hc).
  destruct (copy_run impl defs fuel cur1 s) as [[[[action|e] cur2] s2]|].
  - destruct Hrun as (h2 & -> & Hf2 & Hl2 & Hwf2). rewrite Hl2. simpl.
    assert (frame c h h2) as Hf.
    { eapply frame_trans; [apply frame_insert|done]. }
    pose proof (keeps_frame _ _ _ Hk Hf Hc) as Hk2.
    pose proof (fun l => getNextNode_wf (length defs) cur2 action s2 l Hwf2)
      as Hnext.
    destruct (BaseNode_getNextNode cur2 action s2) as [[n|] s3]; simpl in *.
    + destruct (keeps_defs h2 n Hk2) as (o & Hdo & Hho & Hwo); [by eapply Hnext|].
      rewrite Hdo, Hho. simpl.
      specialize (Hloop (length h2) (BaseNode_clone o) p
                    (h2 ++ [BaseNode_clone o]) s3 (keeps_app _ _ Hk2)
                    (wf_obj_clone _ _ Hwo) (list_lookup_middle _ _ _ _ eq_refl)
                    (keeps_length _ Hk2)).
      destruct (copy_loop impl defs fuel _ p s3) as [[a s']|]; [|done].
      destruct Hloop as (h' & -> & Hlen & Hf'). exists h'. split; [done|].
      rewrite length_app in Hlen. simpl in Hlen.
      destruct Hf as [Hlh Hfh]. split; [lia|].
      intros l0 Hl0' Hne. rewrite Hf', lookup_app_l, Hfh by
        (done || rewrite ?length_app; lia). done.
    + destruct fuel; simpl; exists h2; eauto.
  - destruct Hrun as (h2 & -> & Hf2 & Hl2 & Hwf2).
    exists h2. split; [done|]. eapply frame_trans; [apply frame_insert|done].
  - by rewrite Hrun.
Qed.

Local Transparent BaseNode_getNextNode.

Lemma run_loop_refines (fuel : nat) :
  run_refines defs (_run impl fuel) (copy_run impl defs fuel) /\
  loop_refines defs (Flow_loop impl fuel) (copy_loop impl defs fuel).
Proof.
  induction fuel as [|fuel [IHrun IHloop]].
  - split; [by apply run_refines_from_loop|].
    intros c cur p h s _ _ _ _. done.
  - assert (loop_refines defs (Flow_loop impl (S fuel))
              (copy_loop impl defs (S fuel))) as Hl
      by (by apply loop_refines_step).
    split; [|done]. apply run_refines_from_loop. by intros fuel' [= <-].
Qed.

Lemma orchestrate_refines_copy (fuel : nat) :
  orchestrate_refines defs (Flow__orchestrate impl fuel)
                      (copy_orchestrate impl defs fuel).
Proof. apply orchestrate_with_refines, run_loop_refines. Qed.

Lemma grows_app_inv (h h' : list (obj Cls)) :
  grows h h' -> exists x, h' = h ++ x.
Proof.
  intros [Hlen Hg]. exists (drop (length h) h').
  rewrite <- (take_drop (length h) h') at 1. f_equal.
  apply list_eq. intros i. destruct (decide (i < length h)%nat) as [Hi|Hi].
  - rewrite lookup_take_lt by done. by apply Hg.
  - rewrite lookup_take_ge by lia. symmetry. apply lookup_ge_None. lia.
Qed.

Lemma orchestrate_observe (h : list (obj Cls)) (f : loc) (this : obj Cls)
    (fuel : nat) (params : option (gmap string value)) (s : rstate W Cls) :
  keeps defs h -> defs !! f = Some this ->
  observe (Flow__orchestrate impl fuel f params h s)
  = copy_orchestrate impl defs fuel this params s.
Proof.
  intros Hk Hf.
  pose proof (orchestrate_refines_copy fuel f this params h s Hk
                (Forall_lookup_1 _ _ _ _ defs_wf Hf) (Hk _ _ Hf)) as Href.
  destruct (copy_orchestrate impl defs fuel this params s) as [[a s']|].
  - by destruct Href as (h' & -> & _).
  - by rewrite Href.
Qed.

(** C1: a traversal leaves every Step definition of the store as it was,
    retry counter included: what it writes, it writes to the copies it has
    made.  So a later traversal of the same flow, started in the store the
    first one left, does what it does in the store the first one found, and
    both do what the traversal on private copies does.  Flows nested in the
    graph and steps visited more than once are steps of that traversal.
    Every retry cycle sets the counter to 0 before its first attempt, so it
    does not matter what the counter was. *)
Theorem run_isolation (f : loc) (params : option (gmap string value))
    (fuel : nat) (s s1 : rstate W Cls) (a : completion) (h1 : list (obj Cls)) :
  Flow__orchestrate impl fuel f params defs s = Some (a, h1, s1) ->
  (exists copies, h1 = defs ++ copies) /\
  (forall fuel' params' s',
     observe (Flow__orchestrate impl fuel' f params' h1 s')
     = observe (Flow__orchestrate impl fuel' f params' defs s')) /\
  (forall this fuel' params' s',
     defs !! f = Some this ->
     observe (Flow__orchestrate impl fuel' f params' h1 s')
     = copy_orchestrate impl defs fuel' this params' s') /\
  (forall (this : obj Cls) c p s',
     Node__exec impl (set_currentRetry c this) p s' = Node__exec impl this p s').
Proof.
  intros Hrun.
  assert (keeps defs defs) as Hk0 by (by intros l o).
  destruct (defs !! f) as [this|] eqn:Hf.
  2:{ unfold Flow__orchestrate, Flow__orchestrate_with in Hrun.
      by rewrite Hf in Hrun. }
  pose proof (orchestrate_refines_copy fuel f this params defs s Hk0
                (Forall_lookup_1 _ _ _ _ defs_wf Hf) Hf) as Href.
  assert (grows defs h1) as Hg.
  { destruct (copy_orchestrate impl defs fuel this params s) as [[a' s'']|].
    - destruct Href as (h' & Hr & Hg). congruence.
    - congruence. }
  pose proof (keeps_grows _ _ Hk0 Hg) as Hk1.
  split; [by apply grows_app_inv|]. split; [|split; [|done]].
  - intros fuel' params' s'.
    by rewrite !(orchestrate_observe _ f this).
  - intros this' fuel' params' s' [= <-]. by apply orchestrate_observe.
Qed.

End Isolation.

(** ** A chain of three steps *)

Section Chain.

Context {W Cls : Type} (impl : Cls -> class_decl W Cls).

Lemma leaf_run (fuel : nat) (l : loc) (this : obj Cls) (h : list (obj Cls))
    (s : rstate W Cls) :
  h !! l = Some this -> is_flow (extends (impl (cls this))) = false ->
  _run impl fuel l h s =
  let '(a, this', s') := BaseNode__run impl this s in
  Some (a, <[l := this']> h, s').
Proof.
  intros Hl Hleaf. destruct fuel; simpl; rewrite Hl; simpl;
    by destruct (extends (impl (cls this))).
Qed.

Lemma getNextNode_default (this : obj Cls) (s : rstate W Cls) (n : loc) :
  _successors this !! "default" = Some n ->
  BaseNode_getNextNode this VUndefined s = (Some n, s).
Proof.
  intros Hn. unfold BaseNode_getNextNode. simpl. by rewrite Hn.
Qed.

Lemma getNextNode_end (this : obj Cls) (s : rstate W Cls) :
  _successors this = ∅ ->
  BaseNode_getNextNode this VUndefined s = (None, s).
Proof.
  intros Hn. unfold BaseNode_getNextNode. simpl. by rewrite Hn, lookup_empty.
Qed.

(** One turn of the [while] loop on a step that is not a flow. *)
Lemma Flow_loop_leaf (fuel : nat) (c : loc) (cur cur' : obj Cls)
    (p : gmap string value) (h : list (obj Cls)) (s s' : rstate W Cls) :
  h !! c = Some cur -> is_flow (extends (impl (cls cur))) = false ->
  BaseNode__run impl (BaseNode_setParams p cur) s = (Normal VUndefined, cur', s') ->
  Flow_loop impl (S fuel) (Some c) p h s =
  let h2 := <[c := cur']> h in
  match (BaseNode_getNextNode cur' VUndefined s').1 with
  | None => Some (Normal VUndefined, h2, (BaseNode_getNextNode cur' VUndefined s').2)
  | Some n =>
      match h2 !! n with
      | Some o =>
          Flow_loop impl fuel (Some (length h2)) p (h2 ++ [BaseNode_clone o])
                    (BaseNode_getNextNode cur' VUndefined s').2
      | None => None
      end
  end.
Proof.
  intros Hl Hleaf Hrun. pose proof (lookup_lt_Some _ _ _ Hl) as Hlt.
  cbn [Flow_loop]. rewrite Hl. cbn [mbind option_bind].
  rewrite (leaf_run fuel c (BaseNode_setParams p cur));
    [|by apply list_lookup_insert_eq|done].
  rewrite Hrun, list_insert_insert_eq.
  rewrite list_lookup_insert_eq by done. cbn [mbind option_bind].
  destruct (BaseNode_getNextNode cur' VUndefined s') as [[n|] s3]; [done|].
  by destruct fuel.
Qed.

Lemma BaseNode__run_successors (this this' : obj Cls) (s s' : rstate W Cls)
    (a : completion) :
  BaseNode__run impl this s = (a, this', s') ->
  _successors this' = _successors this /\ cls this' = cls this.
Proof.
  intros Hrun. pose proof (BaseNode__run_upto impl this s) as [c Hc].
  rewrite Hrun in Hc. simpl in Hc. by subst this'.
Qed.

(** C4: a flow that starts at [A], with [A -default-> B -default-> C] and no
    edge out of [C], where the cycle of each step ends with [post] returning
    [undefined]: [Flow._orchestrate] runs the cycle of a copy of [A], then,
    from the state this left, the cycle of a copy of [B], then that of a
    copy of [C], and returns.  The store has the three copies more, the
    state is the one the cycle of [C] left, and three turns of the loop are
    enough.  At [A] and at [B] the action [undefined] selects the edge
    ["default"]; at [C] it selects nothing, and no warning is logged. *)
Theorem chain_traversal (h : list (obj Cls)) (f a b c : loc)
    (F A B C A' B' C' : obj Cls) (p : gmap string value)
    (s0 s1 s2 s3 : rstate W Cls) (fuel : nat) :
  h !! f = Some F -> start F = Some a ->
  h !! a = Some A -> h !! b = Some B -> h !! c = Some C ->
  is_flow (extends (impl (cls A))) = false ->
  is_flow (extends (impl (cls B))) = false ->
  is_flow (extends (impl (cls C))) = false ->
  _successors A !! "default" = Some b ->
  _successors B !! "default" = Some c ->
  _successors C = ∅ ->
  BaseNode__run impl (BaseNode_setParams p (BaseNode_clone A)) s0
    = (Normal VUndefined, A', s1) ->
  BaseNode__run impl (BaseNode_setParams p (BaseNode_clone B)) s1
    = (Normal VUndefined, B', s2) ->
  BaseNode__run impl (BaseNode_setParams p (BaseNode_clone C)) s2
    = (Normal VUndefined, C', s3) ->
  (3 <= fuel)%nat ->
  Flow__orchestrate impl fuel f (Some p) h s0
    = Some (Normal VUndefined, h ++ [A'; B'; C'], s3) /\
  BaseNode_getNextNode A' VUndefined s1 = (Some b, s1) /\
  BaseNode_getNextNode B' VUndefined s2 = (Some c, s2) /\
  BaseNode_getNextNode C' VUndefined s3 = (None, s3).
Proof.
  intros Hf Hstart Ha Hb Hc HlA HlB HlC HAB HBC HCend HrunA HrunB HrunC Hfuel.
  destruct fuel as [|[|[|fuel]]]; try lia.
  destruct (BaseNode__run_successors _ _ _ _ _ HrunA) as [HsA _].
  destruct (BaseNode__run_successors _ _ _ _ _ HrunB) as [HsB _].
  destruct (BaseNode__run_successors _ _ _ _ _ HrunC) as [HsC _].
  simpl in HsA, HsB, HsC.
  split; [|by rewrite (getNextNode_default A' s1 b), (getNextNode_default B' s2 c),
                      getNextNode_end by congruence].
  unfold Flow__orchestrate, Flow__orchestrate_with.
  rewrite Hf. cbn [mbind option_bind]. rewrite Hstart, Ha.
  cbn [mbind option_bind default].
  (* A *)
  rewrite (Flow_loop_leaf _ _ (BaseNode_clone A) A' _ _ _ s1);
    [|by apply list_lookup_middle|done|done].
  rewrite (getNextNode_default A' s1 b) by (by rewrite HsA). cbn [fst snd].
  replace (<[length h:=A']> (h ++ [BaseNode_clone A])) with (h ++ [A'])
    by (by rewrite insert_app_r_alt, Nat.sub_diag by lia).
  rewrite (lookup_app_l_Some _ _ _ _ Hb).
  (* B *)
  rewrite (Flow_loop_leaf _ _ (BaseNode_clone B) B' _ _ _ s2);
    [|by apply list_lookup_middle|done|done].
  rewrite (getNextNode_default B' s2 c) by (by rewrite HsB). cbn [fst snd].
  replace (<[length (h ++ [A']):=B']> ((h ++ [A']) ++ [BaseNode_clone B]))
    with (h ++ [A'; B'])
    by (by rewrite insert_app_r_alt, Nat.sub_diag, <- app_assoc by lia).
  rewrite (lookup_app_l_Some _ _ _ _ Hc).
  (* C *)
  rewrite (Flow_loop_leaf _ _ (BaseNode_clone C) C' _ _ _ s3);
    [|by apply list_lookup_middle|done|done].
  rewrite getNextNode_end by (by rewrite HsC). cbn [fst snd].
  by rewrite insert_app_r_alt, Nat.sub_diag, <- app_assoc by lia.
Qed.

End Chain.

(** ** Edges: [on], [next] and [getNextNode] *)

Section Edges.

Context {W Cls : Type}.

Implicit Types (this : obj Cls) (s : rstate W Cls).

(** X1: after [this.on(action, node)] with a label that is not the empty
    string, [this.getNextNode(action)] returns [node] and warns of nothing,
    whatever was registered before; the edges under the other labels are as
    they were. *)
Theorem on_getNextNode (action : string) (node : loc) this s s' :
  action <> "" ->
  let this' := (BaseNode_on action node this s).1 in
  BaseNode_getNextNode this' (VStr action) s' = (Some node, s') /\
  forall b, b <> action -> _successors this' !! b = _successors this !! b.
Proof.
  intros Hne this'. split.
  - unfold BaseNode_getNextNode. simpl.
    destruct (String.eqb action "") eqn:He; [by apply String.eqb_eq in He|].
    simpl. by rewrite lookup_insert_eq.
  - intros b Hb. simpl. by rewrite lookup_insert_ne.
Qed.

(** X2: a second node registered under a label that is taken replaces the
    first: the object is what the second call alone would have made of it,
    and the overwriting is warned of. *)
Theorem on_twice (action : string) (n1 n2 : loc) this s :
  BaseNode_on action n2 (BaseNode_on action n1 this s).1
                        (BaseNode_on action n1 this s).2
  = ((BaseNode_on action n2 this s).1,
     emit (EvWarn (WarnOverwrite action)) (BaseNode_on action n1 this s).2).
Proof.
  unfold BaseNode_on. simpl. rewrite lookup_insert_eq.
  rewrite bool_decide_eq_true_2 by eauto.
  unfold set_successors. simpl. by rewrite insert_insert_eq.
Qed.

(** X3: [getNextNode] takes every falsy action ([undefined], [null],
    [false], [0], the empty string) for ["default"]: it returns the same
    successor and logs the same warning. *)
Theorem getNextNode_falsy this (action : value) s :
  truthy action = false ->
  BaseNode_getNextNode this action s
  = BaseNode_getNextNode this (VStr "default") s.
Proof.
  intros Hf. unfold BaseNode_getNextNode.
  destruct action; simpl in *; try done; by rewrite Hf.
Qed.

End Edges.

(** ** What the retry loop calls *)

Section RetryBounds.

Context {W Cls : Type} (impl : Cls -> class_decl W Cls).

Implicit Types (this : obj Cls) (s : rstate W Cls).

Lemma par_start_no_attempts this (items : list value) s :
  maxRetries this <= 0 ->
  par_start impl this items s
  = (replicate (length items) (Settled (Throw unexpected_end)),
     match items with [] => this | _ => set_currentRetry 0 this end, s).
Proof.
  intros Hm. revert this Hm. induction items as [|item rest IH]; intros this Hm; [done|].
  simpl. unfold Node_attempt. simpl.
  destruct (Z_lt_dec 0 (maxRetries this)); [lia|].
  rewrite IH by done. by destruct rest.
Qed.

(** X4: with [maxRetries <= 0] the body of the loop is never entered:
    [Node._exec] throws the error that follows the loop, having called
    neither [exec] nor the fallback and logged nothing.  A sequential or a
    parallel batch of at least one item throws the same. *)
Theorem retry_no_attempts this (p : value) s :
  maxRetries this <= 0 ->
  let thrown := (Throw unexpected_end, set_currentRetry 0 this, s) in
  Node__exec impl this p s = thrown /\
  forall item rest,
    BatchNode__exec impl this (VArr (item :: rest)) s = thrown /\
    ParallelBatchNode__exec impl this (VArr (item :: rest)) s = thrown.
Proof.
  intros Hm thrown.
  assert (forall q, Node__exec impl this q s = thrown) as Hexec.
  { intros q. unfold Node__exec. rewrite Node_retry_loop_step. simpl.
    by destruct (Z_lt_dec 0 (maxRetries this)); [lia|]. }
  split; [apply Hexec|]. intros item rest. split.
  - unfold BatchNode__exec. simpl. by rewrite Hexec.
  - unfold ParallelBatchNode__exec, par_settle. simpl negb. cbn [orb].
    rewrite par_start_no_attempts by done.
    rewrite par_loop_step. simpl.
    assert (forall k n, pending_from k
              (replicate n (@Settled (Throw unexpected_end))) = []) as Hp.
    { intros k n. revert k. induction n; intros k; simpl; auto. }
    unfold pending. simpl. rewrite Hp.
    assert (pick [] (sched s) = None) as ->; [by destruct (sched s)|].
    reflexivity.
Qed.



Lemma exec_calls_cons (ev : event Cls) (l : list (event Cls)) :
  exec_calls (ev :: l) = ((if is_exec ev then 1 else 0) + exec_calls l)%nat.
Proof. unfold exec_calls. rewrite filter_cons. by destruct (is_exec ev). Qed.

Lemma sleep_calls_cons (ev : event Cls) (l : list (event Cls)) :
  sleep_calls (ev :: l) = ((if is_sleep ev then 1 else 0) + sleep_calls l)%nat.
Proof. unfold sleep_calls. rewrite filter_cons. by destruct (is_sleep ev). Qed.

Lemma fallback_calls_cons (ev : event Cls) (l : list (event Cls)) :
  fallback_calls (ev :: l)
  = ((if is_fallback ev then 1 else 0) + fallback_calls l)%nat.
Proof. unfold fallback_calls. rewrite filter_cons. by destruct (is_fallback ev). Qed.

Lemma exec_calls_nil : exec_calls (@nil (event Cls)) = 0%nat.
Proof. done. Qed.

Lemma sleep_calls_nil : sleep_calls (@nil (event Cls)) = 0%nat.
Proof. done. Qed.

Lemma fallback_calls_nil : fallback_calls (@nil (event Cls)) = 0%nat.
Proof. done. Qed.

Ltac count_calls :=
  rewrite ?exec_calls_cons, ?fallback_calls_cons, ?sleep_calls_cons,
          ?exec_calls_nil, ?sleep_calls_nil, ?fallback_calls_nil;
  simpl.

(** What the loop logs from its test on, with [n] attempts left. *)
Lemma Node_retry_loop_calls (n : nat) this (p : value) s :
  Z.to_nat (maxRetries this - currentRetry this) = n ->
  exists evs,
    log (Node_retry_loop impl this p s).2 = log s ++ evs /\
    (exec_calls evs <= n)%nat /\
    (fallback_calls evs <= 1)%nat /\
    (sleep_calls evs <= n - 1)%nat /\
    (fallback_calls evs = 1%nat -> exec_calls evs = n).
Proof.
  revert this s. induction n as [|n IH]; intros this s Hn;
    rewrite Node_retry_loop_step; destruct (Z_lt_dec _ _); try lia.
  { exists []. rewrite app_nil_r. count_calls. repeat split; try done; lia. }
  unfold call_exec.
  destruct (exec _ _ _ _) as [[v|e] w1].
  { exists [EvExec this p]. simpl.
    count_calls.
    repeat split; try done; lia. }
  destruct (currentRetry this =? maxRetries this - 1) eqn:Hlast.
  { unfold call_execFallback. simpl. destruct (execFallback _ _ _ _ _) as [c w2].
    exists [EvExec this p; EvFallback this p e]. simpl.
    count_calls.
    rewrite <- app_assoc. repeat split; try done; lia. }
  set (this1 := set_currentRetry (currentRetry this + 1) this).
  match goal with |- context [Node_retry_loop impl this1 p ?s2] =>
    destruct (IH this1 s2) as (evs & Hlog & He & Hf & Hs & Hfe) end.
  { simpl. lia. }
  rewrite Hlog. assert (n <> 0)%nat by lia.
  destruct (0 <? wait this); simpl.
  - exists (EvExec this p :: EvSleep (wait this * 1000) :: evs).
    rewrite <- !app_assoc. simpl. split; [done|].
    count_calls.
    repeat split; lia.
  - exists (EvExec this p :: evs).
    rewrite <- !app_assoc. simpl. split; [done|].
    count_calls.
    repeat split; lia.
Qed.

(** X5: a call of [Node._exec] that runs from its first statement to its
    end with no other call of [_exec] on the same object in between, as
    [BaseNode._run] and [BatchNode._exec] run it, only adds to the log.  It
    calls [exec] at most [maxRetries] times, sleeps at most
    [maxRetries - 1] times, and calls the fallback at most once, and then
    only after [maxRetries] calls of [exec].  ([Node__exec] is such a call;
    the calls that [ParallelBatchNode._exec] interleaves on one object are
    not, and the bounds do not hold of them.) *)
Theorem retry_calls_bound this (p : value) s :
  exists evs,
    log (Node__exec impl this p s).2 = log s ++ evs /\
    (exec_calls evs <= Z.to_nat (maxRetries this))%nat /\
    (fallback_calls evs <= 1)%nat /\
    (sleep_calls evs <= Z.to_nat (maxRetries this) - 1)%nat /\
    (fallback_calls evs = 1%nat -> exec_calls evs = Z.to_nat (maxRetries this)).
Proof.
  destruct (Node_retry_loop_calls (Z.to_nat (maxRetries this))
              (set_currentRetry 0 this) p s) as (evs & Hlog & H);
    [simpl; f_equal; lia|].
  exists evs. split; [|exact H].
  unfold Node__exec. by destruct (Node_retry_loop _ _ _ _) as [[x this'] s'].
Qed.

End RetryBounds.

(** ** What a sequential batch returns *)

Section BatchShape.

Context {W Cls : Type} (impl : Cls -> class_decl W Cls).

Implicit Types (this : obj Cls) (s : rstate W Cls).

Lemma BatchNode_loop_returns (items acc : list value) this this' s s' (v : value) :
  BatchNode_loop impl this items acc s = (Normal v, this', s') ->
  exists outs, v = VArr (acc ++ outs) /\ item_cycles impl this items s outs this' s'.
Proof.
  revert this acc s. induction items as [|item rest IH]; intros this acc s Hloop;
    simpl in Hloop.
  - injection Hloop as <- <- <-. exists []. rewrite app_nil_r. split; [done|].
    constructor.
  - destruct (Node__exec impl this item s) as [[[r|e] this1] s1] eqn:Hr; [|done].
    destruct (IH _ _ _ Hloop) as (outs & -> & Hc).
    exists (r :: outs). rewrite <- app_assoc. split; [done|].
    econstructor; eauto.
Qed.

(** X6: whenever a sequential batch returns, it returns an array with one
    output per item, and these are the outputs of the retry cycles of the
    items, run one after the other. *)
Theorem batch_returns_cycles this this' (items : list value) (v : value) s s' :
  BatchNode__exec impl this (VArr items) s = (Normal v, this', s') ->
  exists outs,
    v = VArr outs /\ length outs = length items /\
    item_cycles impl this items s outs this' s'.
Proof.
  unfold BatchNode__exec. simpl. intros Hloop.
  destruct (BatchNode_loop_returns _ _ _ _ _ _ _ Hloop) as (outs & -> & Hc).
  exists outs. split; [done|]. split; [|done]. by eapply item_cycles_length.
Qed.



End BatchShape.

(** ** The parallel batch without the race *)

Section ParallelMore.

Context {W Cls : Type} (impl : Cls -> class_decl W Cls).

Implicit Types (this : obj Cls) (s : rstate W Cls).

Lemma call_exec_sched this (p : value) s (sc : list nat) :
  call_exec impl this p (set_sched sc s)
  = ((call_exec impl this p s).1, set_sched sc (call_exec impl this p s).2).
Proof. unfold call_exec. simpl. by destruct (exec _ _ _ _). Qed.

Lemma call_execFallback_sched this (p e : value) s (sc : list nat) :
  call_execFallback impl this p e (set_sched sc s)
  = ((call_execFallback impl this p e s).1,
     set_sched sc (call_execFallback impl this p e s).2).
Proof. unfold call_execFallback. simpl. by destruct (execFallback _ _ _ _ _). Qed.

Lemma Node_retry_loop_sched (n : nat) this (p : value) s (sc : list nat) :
  (Z.to_nat (maxRetries this - currentRetry this) <= n)%nat ->
  Node_retry_loop impl this p (set_sched sc s)
  = with_sched sc (Node_retry_loop impl this p s).
Proof.
  revert this s. induction n as [|n IH]; intros this s Hn;
    rewrite !(Node_retry_loop_step impl this); destruct (Z_lt_dec _ _);
    try lia; try done.
  rewrite call_exec_sched.
  destruct (call_exec impl this p s) as [[v|e] s1]; [done|]. simpl.
  destruct (_ =? _).
  { rewrite call_execFallback_sched. by destruct (call_execFallback _ _ _ _ _). }
  destruct (0 <? wait this); [|apply IH; simpl; lia].
  change (sleep this (set_sched sc s1)) with (set_sched sc (sleep this s1)).
  apply IH. simpl. lia.
Qed.

Lemma Node_attempt_sched this (p : value) s (sc : list nat) :
  Node_attempt impl this p (set_sched sc s)
  = with_sched sc (Node_attempt impl this p s).
Proof.
  unfold Node_attempt. destruct (Z_lt_dec _ _); [|done].
  rewrite call_exec_sched. by destruct (call_exec _ _ _ _).
Qed.

Lemma Node_resume_sched this (t : task) s (sc : list nat) :
  Node_resume impl this t (set_sched sc s)
  = with_sched sc (Node_resume impl this t s).
Proof.
  destruct t as [item [v|e]|item|item c|c]; simpl; try done.
  - destruct (_ =? _).
    { rewrite call_execFallback_sched. by destruct (call_execFallback _ _ _ _ _). }
    destruct (0 <? wait this); [done|].
    rewrite Node_attempt_sched. by destruct (Node_attempt _ _ _ _).
  - rewrite Node_attempt_sched. by destruct (Node_attempt _ _ _ _).
Qed.

Lemma Node_continue_sched this (t : task) s (sc : list nat) :
  Node_continue impl this t (set_sched sc s)
  = with_sched sc (Node_continue impl this t s).
Proof.
  destruct t as [item [v|e]|item|item c|c]; simpl; try done.
  - destruct (_ =? _).
    { rewrite call_execFallback_sched. by destruct (call_execFallback _ _ _ _ _). }
    destruct (0 <? wait this).
    + change (sleep this (set_sched sc s)) with (set_sched sc (sleep this s)).
      rewrite (Node_retry_loop_sched _ _ _ _ _ (Nat.le_refl _)).
      by destruct (Node_retry_loop _ _ _ _) as [[x this'] s'].
    + rewrite (Node_retry_loop_sched _ _ _ _ _ (Nat.le_refl _)).
      by destruct (Node_retry_loop _ _ _ _) as [[x this'] s'].
  - rewrite (Node_retry_loop_sched _ _ _ _ _ (Nat.le_refl _)).
    by destruct (Node_retry_loop _ _ _ _) as [[x this'] s'].
Qed.

(** The call from its loop test on is the attempt and what is left after
    it. *)
Lemma Node_attempt_continue this (p : value) s :
  (let '(x, this', s') := Node_retry_loop impl this p s in
   (exit_completion x, this', s'))
  = Node_continue impl this (Node_attempt impl this p s).1
                  (Node_attempt impl this p s).2.
Proof.
  rewrite Node_retry_loop_step. unfold Node_attempt.
  destruct (Z_lt_dec _ _); [|done].
  destruct (call_exec impl this p s) as [[v|e] s1]; simpl; [done|].
  destruct (_ =? _); [by destruct (call_execFallback _ _ _ _ _)|done].
Qed.

Lemma Node_resume_continue this (t : task) s :
  Node_continue impl this t s
  = let '(t', this', s') := Node_resume impl this t s in
    Node_continue impl this' t' s'.
Proof.
  destruct t as [item [v|e]|item|item c|c]; simpl; try done.
  - destruct (_ =? _); [by destruct (call_execFallback _ _ _ _ _)|].
    destruct (0 <? wait this); [done|].
    rewrite Node_attempt_continue. by destruct (Node_attempt _ _ _ _).
  - rewrite Node_attempt_continue. by destruct (Node_attempt _ _ _ _).
Qed.

(** A single call in flight ends as it does on its own. *)
Lemma par_loop_single (n : nat) (ps : pstate W Cls) (t : task) :
  (par_measure ps <= n)%nat ->
  p_tasks ps = [t] -> p_rejected ps = first_rejection [t] ->
  let '(c, this', s') := Node_continue impl (p_this ps) t (p_rt ps) in
  let ps' := par_loop impl ps in
  p_tasks ps' = [Settled c] /\ p_rejected ps' = first_rejection [Settled c] /\
  p_this ps' = this' /\ world (p_rt ps') = world s' /\ log (p_rt ps') = log s'.
Proof.
  revert ps t. induction n as [n IH] using lt_wf_ind. intros ps t Hn Ht Hrej.
  rewrite par_loop_step, Ht.
  destruct (is_pending t) eqn:Hp.
  - assert (pick (pending [t]) (sched (p_rt ps)) = Some 0%nat) as Hpick.
    { unfold pending. cbn [pending_from]. rewrite Hp.
      destruct (sched (p_rt ps)) as [|k sc]; [done|].
      unfold pick. cbn [length]. by rewrite Nat.mod_1_r. }
    rewrite Hpick.
    pose proof (par_step_measure _ _ impl ps 0%nat) as Hlt.
    rewrite Ht in Hlt. specialize (Hlt Hpick).
    rewrite (Node_resume_continue (p_this ps) t (p_rt ps)).
    assert (par_step impl 0 (pop_sched ps)
            = let '(t1, this1, s1) := Node_resume impl (p_this ps) t (p_rt ps) in
              {| p_this := this1; p_tasks := [t1];
                 p_rejected := first_rejection [t1];
                 p_rt := set_sched (tail (sched (p_rt ps))) s1 |}) as Hstep.
    { unfold par_step. simpl. rewrite Ht. simpl.
      change {| world := world (p_rt ps); log := log (p_rt ps);
                sched := tail (sched (p_rt ps)) |}
        with (set_sched (tail (sched (p_rt ps))) (p_rt ps)).
      rewrite Node_resume_sched, Hrej.
      destruct (Node_resume impl (p_this ps) t (p_rt ps)) as [[t1 this1] s1].
      simpl. destruct t as [| | |c]; try done;
        by destruct t1 as [| | |[|]]. }
    rewrite Hstep in *.
    destruct (Node_resume impl (p_this ps) t (p_rt ps)) as [[t1 this1] s1].
    match type of Hlt with (par_measure ?ps1 < _)%nat =>
      pose proof (IH (par_measure ps1) ltac:(lia) ps1 t1 (Nat.le_refl _)
                    eq_refl eq_refl) as Hind end.
    simpl in Hind. rewrite Node_continue_sched in Hind.
    by destruct (Node_continue impl this1 t1 s1) as [[c this'] s'].
  - destruct t as [| | |c]; try done. simpl.
    assert (pick (pending [Settled c]) (sched (p_rt ps)) = None) as ->.
    { unfold pending. simpl. by destruct (sched (p_rt ps)). }
    by rewrite Ht, Hrej.
Qed.

(** X8: a parallel batch of one item is the retry cycle of the item: the
    same outcome (a returned value in an array of one), the same [this], the
    same world and the same log, whatever the scheduling choices. *)
Theorem parallel_single_item this (x : value) s :
  let '(c, this1, s1) := Node__exec impl this x s in
  let '(c2, this2, s2) := ParallelBatchNode__exec impl this (VArr [x]) s in
  c2 = match c with Normal v => Normal (VArr [v]) | Throw e => Throw e end /\
  this2 = this1 /\ world s2 = world s1 /\ log s2 = log s1.
Proof.
  unfold Node__exec, ParallelBatchNode__exec, par_settle. simpl.
  rewrite Node_attempt_continue.
  destruct (Node_attempt impl (set_currentRetry 0 this) x s) as [t s0]. simpl.
  match goal with |- context [par_loop impl ?ps0] =>
    pose proof (par_loop_single (par_measure ps0) ps0 t (Nat.le_refl _)
                  eq_refl eq_refl) as Hsingle;
    simpl in Hsingle; destruct (par_loop impl ps0) as [this2 ts2 rej2 s2]
  end.
  destruct (Node_continue impl (set_currentRetry 0 this) t s0) as [[c this1] s1].
  simpl in Hsingle. destruct Hsingle as (-> & -> & -> & Hw & Hl).
  unfold Promise_all. simpl. by destruct c.
Qed.












End ParallelMore.

(** ** Runs of flows *)

Section FlowMore.

Context {W Cls : Type} (impl : Cls -> class_decl W Cls).

Implicit Types (this : obj Cls) (s : rstate W Cls) (h : list (obj Cls)).

Lemma Flow_run_unfold (fuel : nat) (f : loc) (F : obj Cls) h s :
  h !! f = Some F -> extends (impl (cls F)) = KFlow ->
  _run impl (S fuel) f h s
  = Flow__run_with impl (Flow__orchestrate impl fuel) f h s.
Proof. intros Hf Hk. simpl. rewrite Hf. simpl. by rewrite Hk. Qed.

Lemma BatchFlow_run_unfold (fuel : nat) (f : loc) (F : obj Cls) h s :
  h !! f = Some F -> extends (impl (cls F)) = KBatchFlow ->
  _run impl (S fuel) f h s
  = BatchFlow__run_with impl (Flow__orchestrate impl fuel) f h s.
Proof. intros Hf Hk. simpl. rewrite Hf. simpl. by rewrite Hk. Qed.

(** One turn of the [while] loop on a step that is not a flow. *)
Lemma Flow_loop_turn (fuel : nat) (c : loc) (cur : obj Cls)
    (p : gmap string value) h s :
  h !! c = Some cur -> is_flow (extends (impl (cls cur))) = false ->
  Flow_loop impl (S fuel) (Some c) p h s =
  match BaseNode__run impl (BaseNode_setParams p cur) s with
  | (Throw e, cur', s') => Some (Throw e, <[c := cur']> h, s')
  | (Normal action, cur', s') =>
      let h2 := <[c := cur']> h in
      match BaseNode_getNextNode cur' action s' with
      | (None, s3) => Some (Normal VUndefined, h2, s3)
      | (Some n, s3) =>
          match h2 !! n with
          | Some o =>
              Flow_loop impl fuel (Some (length h2)) p (h2 ++ [BaseNode_clone o]) s3
          | None => None
          end
      end
  end.
Proof.
  intros Hl Hleaf. pose proof (lookup_lt_Some _ _ _ Hl) as Hlt.
  cbn [Flow_loop]. rewrite Hl. cbn [mbind option_bind].
  rewrite (leaf_run impl fuel c (BaseNode_setParams p cur));
    [|by apply list_lookup_insert_eq|done].
  destruct (BaseNode__run impl (BaseNode_setParams p cur) s) as [[[action|e] cur'] s'];
    rewrite list_insert_insert_eq; [|done].
  rewrite list_lookup_insert_eq by done. cbn [mbind option_bind].
  destruct (BaseNode_getNextNode cur' action s') as [[n|] s3]; [done|].
  by destruct fuel.
Qed.

(** X10: a flow without a start step: [_run] calls [prep] and then throws
    "Flow has no start node"; the store is untouched and [post] is not
    called. *)
Theorem flow_no_start (fuel : nat) (f : loc) (F : obj Cls) h s
    (pr : value) s1 :
  h !! f = Some F -> extends (impl (cls F)) = KFlow -> start F = None ->
  call_prep impl F s = (Normal pr, s1) ->
  _run impl (S fuel) f h s
  = Some (Throw (VError "Flow has no start node"), h, s1).
Proof.
  intros Hf Hk Hstart Hprep. rewrite (Flow_run_unfold _ _ F) by done.
  unfold Flow__run_with. rewrite Hf. cbn [mbind option_bind]. rewrite Hprep.
  unfold Flow__orchestrate, Flow__orchestrate_with. rewrite Hf.
  cbn [mbind option_bind]. by rewrite Hstart.
Qed.

(** X11: when the cycle of the copy of the start step throws, the run of
    the flow throws the same error: the store has this one copy more, no
    successor is looked up, and the [post] of the flow is not called.  The
    copy has run with the flow's parameters under the result of the flow's
    [prep]. *)
Theorem flow_step_throws (fuel : nat) (f a : loc) (F A A' : obj Cls) h s
    (pr e : value) s1 s2 :
  h !! f = Some F -> extends (impl (cls F)) = KFlow ->
  start F = Some a -> h !! a = Some A ->
  is_flow (extends (impl (cls A))) = false ->
  call_prep impl F s = (Normal pr, s1) ->
  BaseNode__run impl (BaseNode_setParams (Flow_params F pr) (BaseNode_clone A)) s1
    = (Throw e, A', s2) ->
  _run impl (S (S fuel)) f h s = Some (Throw e, h ++ [A'], s2).
Proof.
  intros Hf Hk Hstart Ha Hleaf Hprep Hrun. rewrite (Flow_run_unfold _ _ F) by done.
  unfold Flow__run_with. rewrite Hf. cbn [mbind option_bind]. rewrite Hprep.
  unfold Flow__orchestrate, Flow__orchestrate_with. rewrite Hf.
  cbn [mbind option_bind]. rewrite Hstart, Ha. cbn [mbind option_bind default].
  rewrite (Flow_loop_turn _ _ (BaseNode_clone A));
    [|by apply list_lookup_middle|done].
  unfold Flow_params in Hrun. unfold id. rewrite Hrun.
  by rewrite insert_app_r_alt, Nat.sub_diag by lia.
Qed.

(** X12: [node.run(shared)] on a step that is not a flow runs the one
    cycle of the step on the object itself, not on a copy, whatever its
    successors, which it warns of when there are some: the store is as it
    was but for the retry counter of the object. *)
Theorem run_direct (fuel : nat) (l : loc) this h s :
  h !! l = Some this -> is_flow (extends (impl (cls this))) = false ->
  let s1 := if decide (_successors this = ∅) then s
            else emit (EvWarn WarnWontRunSuccessors) s in
  exists k,
    BaseNode_run impl fuel l h s
    = Some ((BaseNode__run impl this s1).1.1, <[l := set_currentRetry k this]> h,
            (BaseNode__run impl this s1).2) /\
    (BaseNode__run impl this s1).1.2 = set_currentRetry k this.
Proof.
  intros Hl Hleaf s1. unfold BaseNode_run. rewrite Hl. cbn [mbind option_bind].
  assert ((if (0 <? size (_successors this))%nat
           then emit (EvWarn WarnWontRunSuccessors) s else s) = s1) as ->.
  { subst s1. destruct (decide (_successors this = ∅)) as [->|Hne].
    - by rewrite map_size_empty.
    - apply map_size_non_empty_iff in Hne.
      destruct (0 <? size (_successors this))%nat eqn:Hs; [done|].
      apply Nat.ltb_ge in Hs. lia. }
  rewrite (leaf_run impl fuel l this) by done.
  destruct (BaseNode__run_upto impl this s1) as [k Hk].
  exists k. destruct (BaseNode__run impl this s1) as [[c this'] s'].
  simpl in *. by subst this'.
Qed.




(** X14: a batch flow whose [prep] returns the empty array (as the [prep]
    of [BatchFlow] does), a falsy value or something that is not an array
    calls [post] with the empty array and does nothing else: no traversal is
    made, so that not even a missing start step is noticed. *)
Theorem batch_flow_nothing (fuel : nat) (f : loc) (F : obj Cls) h s
    (pr : value) s1 :
  h !! f = Some F -> extends (impl (cls F)) = KBatchFlow ->
  call_prep impl F s = (Normal pr, s1) ->
  pr = VArr [] \/ truthy pr = false \/ isArray pr = false ->
  _run impl (S fuel) f h s
  = Some ((call_post impl F (VArr []) VUndefined s1).1, h,
          (call_post impl F (VArr []) VUndefined s1).2).
Proof.
  intros Hf Hk Hprep Hpr. rewrite (BatchFlow_run_unfold _ _ F) by done.
  unfold BatchFlow__run_with. rewrite Hf. cbn [mbind option_bind]. rewrite Hprep.
  destruct (call_post impl F (VArr []) VUndefined s1) as [c s2] eqn:Hpost.
  destruct Hpr as [->|[Hfalsy|Harr]].
  - simpl. rewrite Hf. simpl. by rewrite Hpost.
  - by rewrite Hfalsy.
  - rewrite Harr, orb_true_r. done.
Qed.

Lemma BatchFlow_loop_traversals (fuel : nat) (f : loc) (bps rest : list value)
    h s h' s' :
  traversals impl fuel f bps h s h' s' ->
  BatchFlow_loop (Flow__orchestrate impl fuel) f (bps ++ rest) h s
  = BatchFlow_loop (Flow__orchestrate impl fuel) f rest h' s'.
Proof.
  induction 1 as [h s|bp bps h s this v h1 s1 h2 s2 Hl Horch _ IH]; [done|].
  simpl. rewrite Hl. cbn [mbind option_bind]. by rewrite Horch.
Qed.

(** X15: a batch flow makes one traversal per parameter set, in the order
    of the array and each from the store and the state the one before left,
    with the set merged over the parameters of the flow; when all have ended
    normally, it calls [post] with the array. *)
Theorem batch_flow_runs_each (fuel : nat) (f : loc) (F F' : obj Cls) h h'
    (bps : list value) s s1 s' :
  h !! f = Some F -> extends (impl (cls F)) = KBatchFlow ->
  call_prep impl F s = (Normal (VArr bps), s1) ->
  traversals impl fuel f bps h s1 h' s' ->
  h' !! f = Some F' ->
  _run impl (S fuel) f h s
  = Some ((call_post impl F' (VArr bps) VUndefined s').1, h',
          (call_post impl F' (VArr bps) VUndefined s').2).
Proof.
  intros Hf Hk Hprep Htrav Hf'. rewrite (BatchFlow_run_unfold _ _ F) by done.
  unfold BatchFlow__run_with. rewrite Hf. cbn [mbind option_bind]. rewrite Hprep.
  simpl negb. cbn [orb].
  pose proof (BatchFlow_loop_traversals _ _ _ [] _ _ _ _ Htrav) as Hloop.
  rewrite app_nil_r in Hloop. rewrite Hloop. simpl. rewrite Hf'. simpl.
  by destruct (call_post _ _ _ _ _).
Qed.

(** X16: when a traversal of a batch flow throws, the batch stops there:
    the error is logged and thrown again, the parameter sets that follow are
    not run, and [post] is not called. *)
Theorem batch_flow_stops (fuel : nat) (f : loc) (F F1 : obj Cls) h h1 h2
    (xs ys : list value) (bp e : value) s s0 s1 s2 :
  h !! f = Some F -> extends (impl (cls F)) = KBatchFlow ->
  call_prep impl F s = (Normal (VArr (xs ++ bp :: ys)), s0) ->
  traversals impl fuel f xs h s0 h1 s1 ->
  h1 !! f = Some F1 ->
  Flow__orchestrate impl fuel f (Some (spread bp ∪ _params F1)) h1 s1
    = Some (Throw e, h2, s2) ->
  _run impl (S fuel) f h s
  = Some (Throw e, h2, emit (EvWarn (ErrorInBatchFlow e)) s2).
Proof.
  intros Hf Hk Hprep Htrav Hf1 Horch. rewrite (BatchFlow_run_unfold _ _ F) by done.
  unfold BatchFlow__run_with. rewrite Hf. cbn [mbind option_bind]. rewrite Hprep.
  simpl negb. cbn [orb].
  rewrite (BatchFlow_loop_traversals _ _ _ (bp :: ys) _ _ _ _ Htrav).
  simpl. rewrite Hf1. simpl. by rewrite Horch.
Qed.

End FlowMore.

(** ** The pipeline of flow.js *)

Section Pipeline.

Context {W Cls : Type} (impl : Cls -> class_decl W Cls) (C : pipeline Cls).

Implicit Types (s : rstate W Cls) (h : list (obj Cls)).

Lemma next_at_app h (t : list (obj Cls)) (i b : nat) s :
  next_at (length h + i) b (h ++ t) s
  = (fun r : list (obj Cls) * rstate W Cls => (h ++ r.1, r.2)) <$> next_at i b t s.
Proof.
  unfold next_at. rewrite lookup_app_r by lia.
  replace (length h + i - length h)%nat with i by lia.
  destruct (t !! i) as [this|]; [|done]. cbn [mbind option_bind].
  destruct (BaseNode_next b this s) as [this' s']. cbn [fmap option_fmap option_map fst snd].
  rewrite insert_app_r_alt by lia.
  by replace (length h + i - length h)%nat with i by lia.
Qed.

Lemma next_at_fresh (t : list (obj Cls)) (i b : nat) (c : Cls) s :
  t !! i = Some (Node_new c 2 10) ->
  next_at i b t s = Some (<[i := pipeline_step c {["default" := b]}]> t, s).
Proof.
  intros Hi. unfold next_at. rewrite Hi. cbn [mbind option_bind].
  unfold BaseNode_next, BaseNode_on. cbn [_successors Node_new].
  rewrite lookup_empty, bool_decide_eq_false_2 by (by intros [? ?]).
  by rewrite insert_empty.
Qed.

Lemma createYouTubeProcessorFlow_built h s :
  createYouTubeProcessorFlow C h s
  = Some ((length h + 4)%nat, h ++ pipeline_objects C (length h), s).
Proof.
  unfold createYouTubeProcessorFlow, alloc.
  rewrite !length_app. cbn [length]. rewrite <- !app_assoc. cbn [app].
  rewrite <- (Nat.add_0_r (length h)) at 1.
  rewrite next_at_app, (next_at_fresh _ 0 _ (ProcessYouTubeURL C)) by done.
  cbn [fmap option_fmap option_map mbind option_bind fst snd].
  rewrite (next_at_app h _ 1).
  rewrite (next_at_fresh _ 1 _ (ExtractTopicsAndQuestions C)) by done.
  cbn [fmap option_fmap option_map mbind option_bind fst snd].
  replace (length h + 1 + 1)%nat with (length h + 2)%nat by lia.
  rewrite (next_at_app h _ 2).
  rewrite (next_at_fresh _ 2 _ (ProcessContent C)) by done.
  cbn [fmap option_fmap option_map mbind option_bind fst snd].
  rewrite length_app. cbn [length insert list_insert].
  rewrite <- app_assoc. unfold pipeline_objects. cbn [app].
  repeat f_equal; lia.
Qed.

Lemma getNextNode_label (this : obj Cls) (a : string) (n : loc) s :
  a <> "" -> _successors this !! a = Some n ->
  BaseNode_getNextNode this (VStr a) s = (Some n, s).
Proof.
  intros Ha Hn. unfold BaseNode_getNextNode. simpl.
  destruct (String.eqb a "") eqn:He; [by apply String.eqb_eq in He|].
  simpl. by rewrite Hn.
Qed.

Lemma getNextNode_missing (this : obj Cls) (a : string) s :
  a <> "" -> _successors this !! a = None ->
  BaseNode_getNextNode this (VStr a) s
  = (None, if decide (_successors this = ∅) then s
           else emit (EvWarn (WarnFlowEnds (VStr a))) s).
Proof.
  intros Ha Hn. unfold BaseNode_getNextNode. simpl.
  destruct (String.eqb a "") eqn:He; [by apply String.eqb_eq in He|].
  simpl. rewrite Hn. simpl. f_equal.
  destruct (decide (_successors this = ∅)) as [->|Hne].
  - by rewrite map_size_empty.
  - apply map_size_non_empty_iff in Hne.
    destruct (0 <? size (_successors this))%nat eqn:Hs; [done|].
    apply Nat.ltb_ge in Hs. lia.
Qed.

Section Run.

Variable h : list (obj Cls).

Hypothesis ProcessYouTubeURL_extends :
  extends (impl (ProcessYouTubeURL C)) = KNode.
Hypothesis ExtractTopicsAndQuestions_extends :
  extends (impl (ExtractTopicsAndQuestions C)) = KNode.
Hypothesis ProcessContent_extends :
  extends (impl (ProcessContent C)) = KBatchNode.
Hypothesis GenerateHTML_extends :
  extends (impl (GenerateHTML C)) = KNode.
Hypothesis Flow_is_Flow : impl (Flow C) = Flow_class.

Let n := length h.
Let built := h ++ pipeline_objects C n.
Let flow := Flow_new (Flow C) (Some n).

(** [flow.run(shared)] up to the first turn of the [while] loop. *)
Lemma pipeline_run_start (fuel : nat) s :
  BaseNode_run impl (S (S fuel)) (n + 4) built s
  = match Flow_loop impl (S fuel) (Some (n + 5)%nat) ∅
            (built ++ [BaseNode_clone
                         (pipeline_step (ProcessYouTubeURL C) {["default" := S n]})])
            (emit (EvPrep flow) s) with
    | None => None
    | Some (Throw e, h2, s2) => Some (Throw e, h2, s2)
    | Some (Normal _, h2, s2) =>
        match h2 !! (n + 4)%nat with
        | Some this2 =>
            Some ((call_post impl this2 VUndefined VUndefined s2).1, h2,
                  (call_post impl this2 VUndefined VUndefined s2).2)
        | None => None
        end
    end.
Proof.
  assert (built !! (n + 4)%nat = Some flow) as Hf.
  { subst built n. by rewrite lookup_app_r, Nat.add_sub' by lia. }
  assert (built !! n
          = Some (pipeline_step (ProcessYouTubeURL C) {["default" := S n]})) as Hn.
  { subst built n. by rewrite lookup_app_r, Nat.sub_diag by lia. }
  unfold BaseNode_run. rewrite Hf. cbn [mbind option_bind].
  replace (0 <? size (_successors flow))%nat with false by done.
  rewrite (Flow_run_unfold impl _ _ flow);
    [|exact Hf|by change (cls flow) with (Flow C); rewrite Flow_is_Flow].
  unfold Flow__run_with. rewrite Hf. cbn [mbind option_bind].
  unfold call_prep. change (cls flow) with (Flow C). rewrite Flow_is_Flow.
  cbn [prep Flow_class BaseNode_prep].
  cbn [truthy]. unfold Flow__orchestrate, Flow__orchestrate_with.
  rewrite Hf. cbn [mbind option_bind]. change (start flow) with (Some n).
  cbv beta iota. rewrite Hn.
  cbn [mbind option_bind default]. unfold id.
  change (_params flow) with (∅ : gmap string value).
  change (set_world (world s) (emit (EvPrep flow) s)) with (emit (EvPrep flow) s).
  assert (length built = (n + 5)%nat) as ->.
  { subst built. rewrite length_app. simpl. subst n. lia. }
  match goal with |- context [Flow_loop impl (S fuel) ?c ?p ?hh ?ss] =>
    destruct (Flow_loop impl (S fuel) c p hh ss) as [[[[v|e] h2] s2]|] end;
    try done.
  destruct (h2 !! (n + 4)%nat); [|done]. cbn [mbind option_bind].
  by destruct (call_post _ _ _ _ _).
Qed.

Lemma built_length : length built = (n + 5)%nat.
Proof. subst built n. rewrite length_app. simpl. lia. Qed.

Lemma built_lookup (k : nat) (copies : list (obj Cls)) :
  (k < 5)%nat ->
  (built ++ copies) !! (n + k)%nat = pipeline_objects C n !! k.
Proof.
  intros Hk. rewrite lookup_app_l by (rewrite built_length; lia).
  subst built n. by rewrite lookup_app_r, Nat.add_sub' by lia.
Qed.

(** One turn of the loop on the copy of [o], the copies [copies] having been
    run before. *)
Lemma pipeline_turn (fuel : nat) (copies : list (obj Cls)) (o cur' : obj Cls)
    (action : value) s s' :
  is_flow (extends (impl (cls o))) = false ->
  BaseNode__run impl (pipeline_copy o) s = (Normal action, cur', s') ->
  Flow_loop impl (S fuel) (Some (n + 5 + length copies)%nat) ∅
    (built ++ copies ++ [BaseNode_clone o]) s
  = match BaseNode_getNextNode cur' action s' with
    | (None, s3) => Some (Normal VUndefined, built ++ copies ++ [cur'], s3)
    | (Some m, s3) =>
        match (built ++ copies ++ [cur']) !! m with
        | Some o' =>
            Flow_loop impl fuel (Some (n + 5 + length (copies ++ [cur']))%nat) ∅
              (built ++ (copies ++ [cur']) ++ [BaseNode_clone o']) s3
        | None => None
        end
    end.
Proof.
  intros Hleaf Hrun.
  assert (length (built ++ copies) = (n + 5 + length copies)%nat) as Hlen.
  { by rewrite length_app, built_length. }
  rewrite (Flow_loop_turn impl _ _ (BaseNode_clone o)); [|
    rewrite app_assoc, <- Hlen; by apply list_lookup_middle|done].
  unfold pipeline_copy in Hrun. rewrite Hrun. cbn zeta.
  assert (<[(n + 5 + length copies)%nat:=cur']> (built ++ copies ++ [BaseNode_clone o])
          = built ++ copies ++ [cur']) as ->.
  { rewrite !app_assoc, <- Hlen.
    by rewrite insert_app_r_alt, Nat.sub_diag by lia. }
  destruct (BaseNode_getNextNode cur' action s') as [[m|] s3]; [|done].
  destruct (_ !! m); [|done].
  rewrite !length_app, built_length.
  rewrite <- !app_assoc. do 2 f_equal.
Qed.

Lemma pipeline_post (copies : list (obj Cls)) s :
  match (built ++ copies) !! (n + 4)%nat with
  | Some this2 =>
      Some ((call_post impl this2 VUndefined VUndefined s).1, built ++ copies,
            (call_post impl this2 VUndefined VUndefined s).2)
  | None => None
  end
  = Some (Normal VUndefined, built ++ copies,
          emit (EvPost flow VUndefined VUndefined) s).
Proof.
  rewrite built_lookup by lia. simpl. unfold call_post. simpl.
  by rewrite Flow_is_Flow.
Qed.

(** X17: [createYouTubeProcessorFlow()] adds five objects to the store,
    the four steps with [maxRetries = 2] and [wait = 10] chained under
    ["default"], and the flow, and logs no warning.  When the cycle of each
    step ends with the action ["default"], [flow.run(shared)] runs a copy of
    each of the four steps, in the order of the chain and each from the
    state the one before left, finds no edge out of the last one, warns of
    nothing and returns [undefined]. *)
Theorem pipeline_default_run (fuel : nat) (U E P G : obj Cls) s0 s1 s2 s3 s4 :
  BaseNode__run impl
    (pipeline_copy (pipeline_step (ProcessYouTubeURL C) {["default" := S n]}))
    (emit (EvPrep flow) s0) = (Normal (VStr "default"), U, s1) ->
  BaseNode__run impl
    (pipeline_copy
       (pipeline_step (ExtractTopicsAndQuestions C) {["default" := S (S n)]}))
    s1 = (Normal (VStr "default"), E, s2) ->
  BaseNode__run impl
    (pipeline_copy (pipeline_step (ProcessContent C) {["default" := S (S (S n))]}))
    s2 = (Normal (VStr "default"), P, s3) ->
  BaseNode__run impl (pipeline_copy (pipeline_step (GenerateHTML C) ∅)) s3
    = (Normal (VStr "default"), G, s4) ->
  (5 <= fuel)%nat ->
  (forall s, createYouTubeProcessorFlow C h s = Some ((n + 4)%nat, built, s)) /\
  BaseNode_run impl fuel (n + 4) built s0
  = Some (Normal VUndefined, built ++ [U; E; P; G],
          emit (EvPost flow VUndefined VUndefined) s4).
Proof.
  intros HU HE HP HG Hfuel. split; [intros s; apply createYouTubeProcessorFlow_built|].
  destruct fuel as [|[|[|[|[|fuel']]]]]; try lia.
  destruct (BaseNode__run_successors impl _ _ _ _ _ HU) as [HsU _].
  destruct (BaseNode__run_successors impl _ _ _ _ _ HE) as [HsE _].
  destruct (BaseNode__run_successors impl _ _ _ _ _ HP) as [HsP _].
  destruct (BaseNode__run_successors impl _ _ _ _ _ HG) as [HsG _].
  simpl in HsU, HsE, HsP, HsG.
  rewrite pipeline_run_start.
  pose proof (pipeline_turn (S (S (S fuel'))) []
                (pipeline_step (ProcessYouTubeURL C) {["default" := S n]}) U _ _ s1
                ltac:(by simpl; rewrite ProcessYouTubeURL_extends) HU) as Hturn.
  cbn [length app] in Hturn. rewrite Nat.add_0_r in Hturn. rewrite Hturn. clear Hturn.
  rewrite (getNextNode_label U "default" (S n)) by (by rewrite ?HsU).
  replace (S n) with (n + 1)%nat at 1 by lia. rewrite built_lookup by lia.
  cbn [pipeline_objects lookup list_lookup].
  rewrite (pipeline_turn _ [U]
             (pipeline_step (ExtractTopicsAndQuestions C) {["default" := S (S n)]})
             E _ _ s2 ltac:(by simpl; rewrite ExtractTopicsAndQuestions_extends) HE).
  rewrite (getNextNode_label E "default" (S (S n))) by (by rewrite ?HsE).
  replace (S (S n)) with (n + 2)%nat at 1 by lia. rewrite built_lookup by lia.
  cbn [pipeline_objects lookup list_lookup].
  rewrite (pipeline_turn _ [U; E]
             (pipeline_step (ProcessContent C) {["default" := S (S (S n))]})
             P _ _ s3 ltac:(by simpl; rewrite ProcessContent_extends) HP).
  rewrite (getNextNode_label P "default" (S (S (S n)))) by (by rewrite ?HsP).
  replace (S (S (S n))) with (n + 3)%nat at 1 by lia. rewrite built_lookup by lia.
  cbn [pipeline_objects lookup list_lookup].
  rewrite (pipeline_turn _ [U; E; P] (pipeline_step (GenerateHTML C) ∅) G _ _ s4 ltac:(by simpl; rewrite GenerateHTML_extends) HG).
  rewrite (getNextNode_missing G "default") by (by rewrite ?HsG).
  rewrite decide_True by done.
  cbn [app]. apply (pipeline_post [U; E; P; G]).
Qed.

(** X18: the chain has no edge but ["default"].  When the cycle of the
    first step ends with another action, as with the "error" of
    [ProcessYouTubeURL.post], [flow.run(shared)] logs that the flow ends,
    runs no other step and returns [undefined] as a run that went through
    the chain does. *)
Theorem pipeline_unknown_action (fuel : nat) (a : string) (U : obj Cls) s0 s1 :
  BaseNode__run impl
    (pipeline_copy (pipeline_step (ProcessYouTubeURL C) {["default" := S n]}))
    (emit (EvPrep flow) s0) = (Normal (VStr a), U, s1) ->
  a <> "" -> a <> "default" ->
  (2 <= fuel)%nat ->
  BaseNode_run impl fuel (n + 4) built s0
  = Some (Normal VUndefined, built ++ [U],
          emit (EvPost flow VUndefined VUndefined)
            (emit (EvWarn (WarnFlowEnds (VStr a))) s1)).
Proof.
  intros HU Ha Hd Hfuel. destruct fuel as [|[|fuel']]; try lia.
  destruct (BaseNode__run_successors impl _ _ _ _ _ HU) as [HsU _].
  simpl in HsU.
  rewrite pipeline_run_start.
  pose proof (pipeline_turn fuel' []
                (pipeline_step (ProcessYouTubeURL C) {["default" := S n]}) U _ _ s1
                ltac:(by simpl; rewrite ProcessYouTubeURL_extends) HU) as Hturn.
  cbn [length app] in Hturn. rewrite Nat.add_0_r in Hturn. rewrite Hturn. clear Hturn.
  rewrite (getNextNode_missing U a)
    by (by rewrite ?HsU, ?lookup_singleton_ne).
  rewrite decide_False by (rewrite HsU; apply insert_non_empty).
  apply (pipeline_post [U]).
Qed.

End Run.

End Pipeline.

(** ** extractVideoId *)

Lemma literal_app (a b s : list ascii) :
  literal (a ++ b) s = literal a s ≫= literal b.
Proof.
  revert s. induction a as [|x a IH]; intros s; simpl; [by destruct b|].
  destruct s as [|y s]; [done|]. by destruct (Ascii.eqb x y).
Qed.

Lemma literal_spec (lit s r : list ascii) :
  literal lit s = Some r <-> s = lit ++ r.
Proof.
  revert s. induction lit as [|a lit IH]; intros s; simpl.
  - split; [by intros [= ->]|by intros ->].
  - destruct s as [|b s]; [done|].
    destruct (Ascii.eqb a b) eqn:Hab.
    + apply Ascii.eqb_eq in Hab as ->. rewrite IH. split; [by intros ->|].
      by intros [= ->].
    + apply Ascii.eqb_neq in Hab. split; [done|]. by intros [= ? _].
Qed.

Lemma id_chars_Some (n : nat) (s id : list ascii) :
  id_chars n s = Some id ->
  length id = n /\ forallb is_id_char id = true /\ exists r, s = id ++ r.
Proof.
  revert s id. induction n as [|n IH]; intros s id; simpl.
  - destruct s; intros [= <-]; eauto.
  - destruct s as [|c s]; [done|].
    destruct (is_id_char c) eqn:Hc; [|done].
    destruct (id_chars n s) as [id'|] eqn:Hid; [|done]. intros [= <-].
    apply IH in Hid as (Hl & Hall & r & ->). simpl. rewrite Hc, Hall, Hl. eauto.
Qed.

Lemma id_chars_app (n : nat) (id r : list ascii) :
  length id = n -> forallb is_id_char id = true ->
  id_chars n (id ++ r) = Some id.
Proof.
  revert id. induction n as [|n IH]; intros id Hl Hall.
  - destruct id; [|done]. by destruct r.
  - destruct id as [|c id]; [done|]. simpl in *.
    apply andb_true_iff in Hall as [-> Hall]. rewrite IH by (done || lia). done.
Qed.

Lemma match_here_Some (alts : list (list ascii)) (s id : list ascii) :
  match_here alts s = Some id ->
  exists alt r, alt ∈ alts /\ s = alt ++ id ++ r /\
    length id = 11%nat /\ forallb is_id_char id = true.
Proof.
  induction alts as [|alt alts IH]; cbn [match_here]; [done|].
  destruct (literal alt s ≫= id_chars 11) as [id'|] eqn:Hm.
  - intros [= ->]. destruct (literal alt s) as [t|] eqn:Hl; [|done].
    cbn [mbind option_bind] in Hm.
    apply literal_spec in Hl as ->.
    apply id_chars_Some in Hm as (Hlen & Hall & r & ->).
    exists alt, r. split; [by left|done].
  - intros (alt' & r & Hin & H)%IH. exists alt', r. split; [by right|done].
Qed.

Lemma regex_match_Some (alts : list (list ascii)) (s id : list ascii) :
  regex_match alts s = Some id ->
  exists pre alt r, alt ∈ alts /\ s = pre ++ alt ++ id ++ r /\
    length id = 11%nat /\ forallb is_id_char id = true.
Proof.
  induction s as [|c s IH]; cbn [regex_match].
  - destruct (match_here alts []) as [id'|] eqn:Hm; [|done]. intros [= ->].
    apply match_here_Some in Hm as (alt & r & Hin & H). by exists [], alt, r.
  - destruct (match_here alts (c :: s)) as [id'|] eqn:Hm.
    + intros [= ->]. apply match_here_Some in Hm as (alt & r & Hin & H).
      by exists [], alt, r.
    + intros (pre & alt & r & Hin & -> & H)%IH. by exists (c :: pre), alt, r.
Qed.

(** No match anywhere: no match at any suffix. *)
Lemma regex_match_None (alts : list (list ascii)) (s t : list ascii) :
  regex_match alts s = None -> t `suffix_of` s -> match_here alts t = None.
Proof.
  induction s as [|c s IH]; cbn [regex_match].
  - destruct (match_here alts []) eqn:Hm; [done|]. by intros _ ->%suffix_nil_inv.
  - destruct (match_here alts (c :: s)) eqn:Hm; [done|].
    intros Hs [[|x k] Hk]; simpl in Hk; [by subst t|].
    injection Hk as _ ->. apply IH; [done|]. by exists k.
Qed.

Lemma match_here_first_pattern (s id : list ascii) :
  (literal (chars "v=") s ≫= id_chars 11 = Some id \/
   literal (chars "/") s ≫= id_chars 11 = Some id) ->
  is_Some (match_here [chars "v="; chars "/"] s).
Proof.
  intros [H|H]; cbn [match_here].
  - by rewrite H.
  - destruct (literal (chars "v=") s ≫= id_chars 11); [done|]. by rewrite H.
Qed.

(** A pattern whose literal text ends in ["v="] or in ["/"] matches only
    where the first pattern matches as well. *)
Lemma regex_match_subsumed (pre alt : list ascii) (s : list ascii) :
  alt = chars "v=" \/ alt = chars "/" ->
  regex_match [chars "v="; chars "/"] s = None ->
  regex_match [pre ++ alt] s = None.
Proof.
  intros Halt Hnone.
  destruct (regex_match [pre ++ alt] s) as [id|] eqn:Hm; [|done].
  apply regex_match_Some in Hm as (p & alt' & r & ->%list_elem_of_singleton
                                   & -> & Hlen & Hall).
  assert (is_Some (match_here [chars "v="; chars "/"] (alt ++ id ++ r))) as [x Hx].
  { apply (match_here_first_pattern _ id).
    destruct Halt as [->| ->]; [left|right];
      rewrite (proj2 (literal_spec _ _ (id ++ r)) eq_refl);
      cbn [mbind option_bind]; by apply id_chars_app. }
  rewrite (regex_match_None _ _ (alt ++ id ++ r) Hnone) in Hx; [done|].
  exists (p ++ pre). by rewrite <- !app_assoc.
Qed.

Lemma first_capture_patterns (s : list ascii) :
  first_capture patterns s = regex_match [chars "v="; chars "/"] s.
Proof.
  unfold patterns. cbn [first_capture].
  destruct (regex_match [chars "v="; chars "/"] s) eqn:Hm; [done|].
  assert (regex_match [chars "youtu.be/"] s = None) as ->
    by (apply (regex_match_subsumed (chars "youtu.be") (chars "/") s); auto).
  assert (regex_match [chars "embed/"] s = None) as ->
    by (apply (regex_match_subsumed (chars "embed") (chars "/") s); auto).
  assert (regex_match [chars "youtube://watch?v="] s = None) as ->
    by (apply (regex_match_subsumed (chars "youtube://watch?") (chars "v=") s);
        auto).
  done.
Qed.

Lemma chars_app (a b : string) : chars (a +:+ b) = chars a ++ chars b.
Proof. induction a as [|c a IH]; simpl; [done|]. by rewrite IH. Qed.

(** X19: the result of [extractVideoId] is decided by the first of its
    four patterns alone: the other three match only where the first one
    matches as well, so the loop never gets to them with a link they
    match. *)
Theorem extractVideoId_first_pattern (url : value) :
  extractVideoId url
  = match url with
    | VStr u =>
        String.string_of_list_ascii <$> regex_match [chars "v="; chars "/"] (chars u)
    | _ => None
    end.
Proof.
  unfold extractVideoId. destruct url as [| |b|z|u|l|m|e]; try done;
    try by destruct (negb _).
  rewrite first_capture_patterns.
  destruct (negb (truthy (VStr u))) eqn:Hu; [|done].
  simpl in Hu. apply negb_true_iff, negb_false_iff, String.eqb_eq in Hu as ->.
  done.
Qed.

(** X20: an id that [extractVideoId] returns is made of 11 characters of
    [[0-9A-Za-z_-]] and stands in the link right after a ["v="] or a
    ["/"]. *)
Theorem extractVideoId_shape (url : value) (id : string) :
  extractVideoId url = Some id ->
  exists u pre sep post,
    url = VStr u /\ chars u = pre ++ chars sep ++ chars id ++ post /\
    (sep = "v=" \/ sep = "/") /\
    length (chars id) = 11%nat /\ forallb is_id_char (chars id) = true.
Proof.
  unfold extractVideoId. destruct (negb (truthy url)); [done|].
  destruct url as [| |b|z|u|l|m|e]; try done.
  rewrite first_capture_patterns.
  destruct (regex_match _ _) as [idl|] eqn:Hm; [|done]. intros [= <-].
  apply regex_match_Some in Hm as (pre & alt & r & Hin & Hu & Hlen & Hall).
  apply elem_of_cons in Hin as [->|Hin%list_elem_of_singleton]; [|subst alt].
  - exists u, pre, "v=", r. unfold chars in *.
    rewrite String.list_ascii_of_string_of_list_ascii.
    eauto 10.
  - exists u, pre, "/", r. unfold chars in *.
    rewrite String.list_ascii_of_string_of_list_ascii. eauto 10.
Qed.

Lemma regex_match_skip (alts : list (list ascii)) (c : ascii) (s : list ascii) :
  match_here alts (c :: s) = None ->
  regex_match alts (c :: s) = regex_match alts s.
Proof. intros H. cbn [regex_match]. by rewrite H. Qed.

Lemma regex_match_here (alts : list (list ascii)) (s id : list ascii) :
  match_here alts s = Some id -> regex_match alts s = Some id.
Proof. intros H. destruct s; cbn [regex_match]; by rewrite H. Qed.

(** X21: on a link of one of the usual four kinds (watch page, short
    link, embedded player, app link) followed by an id of 11 characters of
    [[0-9A-Za-z_-]] and by anything, [extractVideoId] returns the id. *)
Theorem extractVideoId_links (id rest : string) :
  length (chars id) = 11%nat -> forallb is_id_char (chars id) = true ->
  Forall (fun front => extractVideoId (VStr (front +:+ id +:+ rest)) = Some id)
         [watch_url; short_url; embed_url; app_url].
Proof.
  intros Hlen Hall.
  assert (forall front : string,
            front <> "" ->
            regex_match [chars "v="; chars "/"] (chars front ++ chars id ++ chars rest)
            = Some (chars id) ->
            extractVideoId (VStr (front +:+ id +:+ rest)) = Some id) as Hfront.
  { intros front Hne Hm. unfold extractVideoId.
    destruct front as [|c front]; [done|]. cbn [truthy String.eqb negb].
    change (String c front +:+ id +:+ rest)%string
      with (String c front +:+ (id +:+ rest)).
    rewrite first_capture_patterns, !chars_app, Hm. simpl.
    unfold chars. by rewrite String.string_of_list_ascii_of_string. }
  pose proof (id_chars_app 11 (chars id) (chars rest) Hlen Hall) as Hid.
  repeat apply Forall_cons_2; try apply Forall_nil_2; apply Hfront; try done.
  all: cbn [chars String.list_ascii_of_string watch_url short_url embed_url
            app_url app];
    repeat (rewrite regex_match_skip by reflexivity);
    apply regex_match_here; cbn [match_here literal Ascii.eqb Bool.eqb mbind option_bind];
    by rewrite ?Hid.
Qed.

(** ** Worked examples: the runs *)

Import RetryExamples.

(** [maxRetries = 3], [wait = 0]: two failed attempts, the third returns. *)
Lemma retry_success_witness :
  exec_raises impl (Node_new Flaky 3 0) (VNum 7) 0 (3 - 1) []
    [VError "transient"; VError "transient"] [7; 7] /\
  Node__exec impl (Node_new Flaky 3 0) (VNum 7) (fresh [])
  = (Normal (VNum 70), set_currentRetry 2 (Node_new Flaky 3 0),
     {| world := [7; 7; 7];
        log := [EvExec (Node_new Flaky 3 0) (VNum 7);
                EvExec (set_currentRetry 1 (Node_new Flaky 3 0)) (VNum 7);
                EvExec (set_currentRetry 2 (Node_new Flaky 3 0)) (VNum 7)];
        sched := [] |}) /\
  fallback_calls (log (Node__exec impl (Node_new Flaky 3 0) (VNum 7) (fresh [])).2)
  = 0%nat.
Proof.
  assert (exec_raises impl (Node_new Flaky 3 0) (VNum 7) 0 (3 - 1) []
            [VError "transient"; VError "transient"] [7; 7]) as Hraise.
  { apply (raises_S impl _ _ 0 1 [] _ [7]); [reflexivity|].
    apply (raises_S impl _ _ 1 0 [7] _ [7; 7]); [reflexivity|].
    apply raises_O. }
  split; [exact Hraise|].
  destruct (retry_success impl (Node_new Flaky 3 0) (VNum 7) (fresh []) 3
              [VError "transient"; VError "transient"] [7; 7] (VNum 70) [7; 7; 7])
    as [Hexec Hcalls]; [lia|simpl; lia|exact Hraise|reflexivity|].
  split; [exact Hexec|]. rewrite Hexec. exact Hcalls.
Defined.

(** [maxRetries = 1]: the one attempt fails, the fallback is called once, and
    [Node]'s fallback throws the error of the attempt. *)
Lemma retry_exhaustion_witness :
  Node__exec impl (Node_new Hopeless 1 0) (VNum 5) (fresh [])
  = (Throw (VError "down"), Node_new Hopeless 1 0,
     {| world := [5];
        log := [EvExec (Node_new Hopeless 1 0) (VNum 5);
                EvFallback (Node_new Hopeless 1 0) (VNum 5) (VError "down")];
        sched := [] |}) /\
  fallback_calls (log (Node__exec impl (Node_new Hopeless 1 0) (VNum 5) (fresh [])).2)
  = 1%nat.
Proof.
  destruct (retry_exhaustion impl (Node_new Hopeless 1 0) (VNum 5) (fresh [])
              [] [] (VError "down") [5] (Throw (VError "down")) [5])
    as (Hexec & Hcalls & Hdefault);
    [simpl; lia|apply raises_O|reflexivity|reflexivity|].
  split; [exact Hexec|]. rewrite Hexec. exact Hcalls.
Defined.

Lemma retry_loop_exit_witness :
  exists x this' s1 s',
    Node_retry_loop impl (set_currentRetry 0 (Node_new Flaky 3 0)) (VNum 7) (fresh [])
    = (x, this', s') /\
    Node__exec impl (Node_new Flaky 3 0) (VNum 7) (fresh [])
    = (exit_completion x, this', s') /\
    x <> FellThrough /\
    ((exists v, x = ReturnedExec v /\
                call_exec impl this' (VNum 7) s1 = (Normal v, s')) \/
     (exists e c, x = ReturnedFallback c /\
                  call_execFallback impl this' (VNum 7) e s1 = (c, s'))).
Proof.
  apply (retry_loop_exit impl (Node_new Flaky 3 0) (VNum 7) (fresh [])).
  simpl. lia.
Defined.

(** Items [1; 2; 3] with [maxRetries = 2]; item 2 needs its second attempt. *)
Lemma batch_order_witness :
  item_cycles impl (Node_new BatchFlaky 2 0) [VNum 1; VNum 2; VNum 3] (fresh [])
    [VNum 10; VNum 20; VNum 30] (Node_new BatchFlaky 2 0)
    {| world := [1; 2; 2; 3];
       log := [EvExec (Node_new BatchFlaky 2 0) (VNum 1);
               EvExec (Node_new BatchFlaky 2 0) (VNum 2);
               EvExec (set_currentRetry 1 (Node_new BatchFlaky 2 0)) (VNum 2);
               EvExec (Node_new BatchFlaky 2 0) (VNum 3)];
       sched := [] |} /\
  completion_of (BatchNode__exec impl (Node_new BatchFlaky 2 0)
                   (VArr [VNum 1; VNum 2; VNum 3]) (fresh []))
  = Normal (VArr [VNum 10; VNum 20; VNum 30]).
Proof.
  assert (item_cycles impl (Node_new BatchFlaky 2 0) [VNum 1; VNum 2; VNum 3]
            (fresh []) [VNum 10; VNum 20; VNum 30] (Node_new BatchFlaky 2 0)
            {| world := [1; 2; 2; 3];
               log := [EvExec (Node_new BatchFlaky 2 0) (VNum 1);
                       EvExec (Node_new BatchFlaky 2 0) (VNum 2);
                       EvExec (set_currentRetry 1 (Node_new BatchFlaky 2 0)) (VNum 2);
                       EvExec (Node_new BatchFlaky 2 0) (VNum 3)];
               sched := [] |}) as Hcycles.
  { eapply cycles_cons; [vm_compute; reflexivity|].
    eapply cycles_cons; [vm_compute; reflexivity|].
    eapply cycles_cons; [vm_compute; reflexivity|].
    apply cycles_nil. }
  split; [exact Hcycles|].
  destruct (batch_order impl _ _ _ _ _ _ Hcycles) as [Hexec _].
  unfold completion_of. rewrite Hexec. reflexivity.
Defined.

(** Items [1; 2; 3] with [maxRetries = 2]; item 2 fails both attempts.  With
    a fallback that returns, item 3 is run and the output has the fallback's
    value in the middle; with a fallback that throws, the batch throws and
    item 3 is never seen. *)
Lemma batch_fault_isolation_witness :
  BatchNode__exec impl (Node_new BatchRecover 2 0)
    (VArr ([VNum 1] ++ VNum 2 :: [VNum 3])) (fresh [])
  = prepend_outputs ([VNum 10] ++ [VStr "fallback"])
      (BatchNode__exec impl (set_currentRetry 1 (Node_new BatchRecover 2 0))
         (VArr [VNum 3])
         {| world := [1; 2; 2];
            log := [EvExec (Node_new BatchRecover 2 0) (VNum 1);
                    EvExec (Node_new BatchRecover 2 0) (VNum 2);
                    EvExec (set_currentRetry 1 (Node_new BatchRecover 2 0)) (VNum 2);
                    EvFallback (set_currentRetry 1 (Node_new BatchRecover 2 0))
                      (VNum 2) (VError "down")];
            sched := [] |}) /\
  completion_of (BatchNode__exec impl (Node_new BatchRecover 2 0)
                   (VArr [VNum 1; VNum 2; VNum 3]) (fresh []))
  = Normal (VArr [VNum 10; VStr "fallback"; VNum 30]) /\
  BatchNode__exec impl (Node_new BatchFatal 2 0)
    (VArr ([VNum 1] ++ VNum 2 :: [VNum 3])) (fresh [])
  = (Throw (VError "fatal"), set_currentRetry 1 (Node_new BatchFatal 2 0),
     {| world := [1; 2; 2];
        log := [EvExec (Node_new BatchFatal 2 0) (VNum 1);
                EvExec (Node_new BatchFatal 2 0) (VNum 2);
                EvExec (set_currentRetry 1 (Node_new BatchFatal 2 0)) (VNum 2);
                EvFallback (set_currentRetry 1 (Node_new BatchFatal 2 0))
                  (VNum 2) (VError "down")];
        sched := [] |}).
Proof.
  split; [|split].
  - apply (batch_fault_isolation impl (Node_new BatchRecover 2 0)
             (Node_new BatchRecover 2 0)
             (set_currentRetry 1 (Node_new BatchRecover 2 0))
             [VNum 1] [VNum 3] [VNum 10] (VNum 2) (Normal (VStr "fallback"))
             (fresh [])
             {| world := [1];
                log := [EvExec (Node_new BatchRecover 2 0) (VNum 1)];
                sched := [] |}).
    + eapply cycles_cons; [vm_compute; reflexivity|apply cycles_nil].
    + vm_compute. reflexivity.
  - vm_compute. reflexivity.
  - apply (batch_fault_isolation impl (Node_new BatchFatal 2 0)
             (Node_new BatchFatal 2 0)
             (set_currentRetry 1 (Node_new BatchFatal 2 0))
             [VNum 1] [VNum 3] [VNum 10] (VNum 2) (Throw (VError "fatal"))
             (fresh [])
             {| world := [1];
                log := [EvExec (Node_new BatchFatal 2 0) (VNum 1)];
                sched := [] |}).
    + eapply cycles_cons; [vm_compute; reflexivity|apply cycles_nil].
    + vm_compute. reflexivity.
Defined.

Lemma batch_non_array_witness :
  BatchNode__exec impl (Node_new BatchFlaky 2 0) VNull (fresh [])
  = (Normal (VArr []), Node_new BatchFlaky 2 0, fresh []) /\
  ParallelBatchNode__exec impl (Node_new ParRecover 2 0) (VStr "items") (fresh [])
  = (Normal (VArr []), Node_new ParRecover 2 0, fresh []).
Proof.
  split.
  - apply (batch_non_array impl (Node_new BatchFlaky 2 0) VNull (fresh [])).
    left. reflexivity.
  - apply (batch_non_array impl (Node_new ParRecover 2 0) (VStr "items") (fresh [])).
    right. right. reflexivity.
Defined.

(** Items [1; 2; 3] in parallel; item 2 fails at every attempt and the
    fallback is [Node]'s: the batch throws, here with the calls resumed in
    the order 3, 1, 2, ... *)
Lemma parallel_batch_join_witness :
  exists e,
    Promise_all (par_settle impl (Node_new ParHopeless 2 0)
                   [VNum 1; VNum 2; VNum 3] (fresh [2; 0; 1]%nat))
    = Throw e.
Proof.
  destruct (parallel_batch_join impl (Node_new ParHopeless 2 0)
              [VNum 1; VNum 2; VNum 3] (fresh [2; 0; 1]%nat))
    as (cs & _ & _ & _ & _ & _ & Hdoomed).
  apply (Hdoomed 1%nat (VNum 2)).
  - reflexivity.
  - intros o w. exists (VError "down"), (w ++ [2]). reflexivity.
  - intros o e w. exists e, w. reflexivity.
Defined.

(** C7: two items in parallel with [maxRetries = 2] and [wait = 0].  [exec]
    fails on item 1 always and on item 2 once; the fallback returns.  On
    its own, the retry cycle of item 1 ends in the fallback and that of
    item 2 returns 20 at its second attempt.  In the batch the two cycles
    count their attempts in the one [this.currentRetry]: when the first
    attempt of item 1 is the first to fail, item 2 finds the counter at its
    last value, gets no second attempt and ends in the fallback; when the
    first attempt of item 2 is the first to fail, item 2 returns 20.  The
    output depends on which call settles first. *)
Theorem parallel_batch_order_race :
  completion_of (Node__exec impl (Node_new ParRecover 2 0) (VNum 1) (fresh []))
  = Normal (VStr "fallback") /\
  completion_of (Node__exec impl (Node_new ParRecover 2 0) (VNum 2) (fresh []))
  = Normal (VNum 20) /\
  completion_of (ParallelBatchNode__exec impl (Node_new ParRecover 2 0)
                   (VArr [VNum 1; VNum 2]) (fresh [0; 1]%nat))
  = Normal (VArr [VStr "fallback"; VStr "fallback"]) /\
  completion_of (ParallelBatchNode__exec impl (Node_new ParRecover 2 0)
                   (VArr [VNum 1; VNum 2]) (fresh [1; 0]%nat))
  = Normal (VArr [VStr "fallback"; VNum 20]).
Proof. repeat split; vm_compute; reflexivity. Qed.

(** With [wait > 0] the shared counter can also run past [maxRetries]: both
    items fail, both sleep, both wake up and count; the second finds the
    loop test false and throws what the end of the loop throws, although
    each cycle on its own ends in the fallback. *)
Lemma parallel_batch_unexpected_end :
  completion_of (Node__exec impl (Node_new ParSleepy 2 1) (VNum 1) (fresh []))
  = Normal (VStr "fallback") /\
  completion_of (Node__exec impl (Node_new ParSleepy 2 1) (VNum 2) (fresh []))
  = Normal (VStr "fallback") /\
  completion_of (ParallelBatchNode__exec impl (Node_new ParSleepy 2 1)
                   (VArr [VNum 1; VNum 2]) (fresh [0; 1; 0; 1]%nat))
  = Throw unexpected_end.
Proof. repeat split; vm_compute; reflexivity. Qed.

(** C8: two items in parallel with [maxRetries = 2] and [wait = 1]; [exec]
    fails on both at every attempt and the fallback returns.  The retry
    cycle of each item, run on its own, is replaced by the fallback, so the
    batch should return the two outputs.  It does when the call for item 1
    has ended before the call for item 2 sees its first attempt fail.  When
    both calls have seen their first attempts fail and sleep, the two calls
    count in the one [this.currentRetry]; the counter passes [maxRetries]
    and the batch throws the error of the end of the loop: no collection,
    although no item's cycle raises. *)
Theorem parallel_batch_join_race :
  completion_of (Node__exec impl (Node_new ParSleepy 2 1) (VNum 1) (fresh []))
  = Normal (VStr "fallback") /\
  completion_of (Node__exec impl (Node_new ParSleepy 2 1) (VNum 2) (fresh []))
  = Normal (VStr "fallback") /\
  ParallelBatchNode__exec impl (Node_new ParSleepy 2 1)
    (VArr [VNum 1; VNum 2]) (fresh [0; 0; 0; 0]%nat)
  = (Normal (VArr [VStr "fallback"; VStr "fallback"]),
     set_currentRetry 1 (Node_new ParSleepy 2 1),
     {| world := [1; 2; 1];
        log := [EvExec (Node_new ParSleepy 2 1) (VNum 1);
                EvExec (Node_new ParSleepy 2 1) (VNum 2);
                EvSleep 1000;
                EvExec (set_currentRetry 1 (Node_new ParSleepy 2 1)) (VNum 1);
                EvFallback (set_currentRetry 1 (Node_new ParSleepy 2 1))
                  (VNum 1) (VError "down");
                EvFallback (set_currentRetry 1 (Node_new ParSleepy 2 1))
                  (VNum 2) (VError "down")];
        sched := [] |}) /\
  ParallelBatchNode__exec impl (Node_new ParSleepy 2 1)
    (VArr [VNum 1; VNum 2]) (fresh [0; 1; 0; 1]%nat)
  = (Throw (VError "Unexpected end of retry loop"),
     set_currentRetry 3 (Node_new ParSleepy 2 1),
     {| world := [1; 2; 1];
        log := [EvExec (Node_new ParSleepy 2 1) (VNum 1);
                EvExec (Node_new ParSleepy 2 1) (VNum 2);
                EvSleep 1000;
                EvSleep 1000;
                EvExec (set_currentRetry 1 (Node_new ParSleepy 2 1)) (VNum 1);
                EvSleep 1000];
        sched := [] |}).
Proof. repeat split; vm_compute; reflexivity. Qed.

(** C9: a [ParallelBatchNode], which is a [Node], with [maxRetries = 2 >= 1]
    and [wait = 1], on the items 1 and 2.  [exec] throws its own error on
    every item and the fallback returns on every item, so neither raises
    the error of the [throw] after the loop; a call of [Node._exec] on its
    own ends in the fallback.  In the batch the two calls of [Node._exec]
    run on the one object.  Both first attempts fail and both calls sleep.
    The call for item 1 wakes up, counts to 1 and calls [exec] again.  The
    call for item 2 wakes up, counts to 2, finds the loop test false and
    reaches the [throw] after the loop.  The second attempt of item 1 fails
    with the counter at 2, not at [maxRetries - 1]: no fallback; the call
    sleeps, counts to 3 and reaches the [throw] as well.  Both calls end
    with its error, and the fallback has not been called at all. *)
Theorem retry_loop_end_reached :
  extends (impl ParSleepy) = KParallelBatchNode /\
  1 <= maxRetries (Node_new ParSleepy 2 1) /\
  (forall o z w, (exec (impl ParSleepy) o (VNum z) w).1 = Throw (VError "down")) /\
  (forall o item e w,
     (execFallback (impl ParSleepy) o item e w).1 = Normal (VStr "fallback")) /\
  completion_of (Node__exec impl (Node_new ParSleepy 2 1) (VNum 1) (fresh []))
  = Normal (VStr "fallback") /\
  par_begin impl (Node_new ParSleepy 2 1) [VNum 1; VNum 2] (fresh [0; 1; 0; 1]%nat)
  = {| p_this := Node_new ParSleepy 2 1;
       p_tasks := [AwaitExec (VNum 1) (Throw (VError "down"));
                   AwaitExec (VNum 2) (Throw (VError "down"))];
       p_rejected := None;
       p_rt := {| world := [1; 2];
                  log := [EvExec (Node_new ParSleepy 2 1) (VNum 1);
                          EvExec (Node_new ParSleepy 2 1) (VNum 2)];
                  sched := [0; 1; 0; 1]%nat |} |} /\
  par_settle impl (Node_new ParSleepy 2 1) [VNum 1; VNum 2] (fresh [0; 1; 0; 1]%nat)
  = {| p_this := set_currentRetry 3 (Node_new ParSleepy 2 1);
       p_tasks := [Settled (Throw unexpected_end); Settled (Throw unexpected_end)];
       p_rejected := Some unexpected_end;
       p_rt := {| world := [1; 2; 1];
                  log := [EvExec (Node_new ParSleepy 2 1) (VNum 1);
                          EvExec (Node_new ParSleepy 2 1) (VNum 2);
                          EvSleep 1000;
                          EvSleep 1000;
                          EvExec (set_currentRetry 1 (Node_new ParSleepy 2 1))
                            (VNum 1);
                          EvSleep 1000];
                  sched := [] |} |} /\
  fallback_calls
    (log (p_rt (par_settle impl (Node_new ParSleepy 2 1) [VNum 1; VNum 2]
                  (fresh [0; 1; 0; 1]%nat))))
  = 0%nat.
Proof.
  split; [reflexivity|]. split; [simpl; lia|].
  split; [intros o z w; reflexivity|]. split; [intros o item e w; reflexivity|].
  repeat split; vm_compute; reflexivity.
Qed.

Import FlowExamples.

Lemma nested_wf : wf_store nested.
Proof.
  repeat apply Forall_cons_2; try apply Forall_nil_2; split; simpl;
    try (intros a l [[_ <-]|[_ H]]%lookup_insert_Some;
         [lia|by rewrite lookup_empty in H]);
    try (intros a l H; by rewrite lookup_empty in H);
    try (by intros l [= <-]; lia); try done.
Qed.

(** [fetch -default-> parse -default-> render]: the journal has the calls of
    the three cycles in this order, and the store three copies more. *)
Lemma chain_traversal_witness :
  Flow__orchestrate FlowExamples.impl 3 3%nat (Some ∅) chain FlowExamples.fresh
  = Some (Normal VUndefined,
          chain ++ [after_fetch.1.2; after_parse.1.2; after_render.1.2],
          after_render.2) /\
  world after_render.2
  = ["Fetch.prep"; "Fetch.exec"; "Fetch.post";
     "Parse.prep"; "Parse.exec"; "Parse.exec"; "Parse.post";
     "Render.prep"; "Render.exec"; "Render.post"].
Proof.
  split; [|vm_compute; reflexivity].
  eapply proj1.
  apply (chain_traversal FlowExamples.impl chain 3%nat 0%nat 1%nat 2%nat
           (Flow_new Pipeline (Some 0%nat)) fetch parse render
           after_fetch.1.2 after_parse.1.2 after_render.1.2 ∅
           FlowExamples.fresh after_fetch.2 after_parse.2 after_render.2 3);
    reflexivity.
Defined.

(** The outer flow of [nested] runs the inner flow and then the three steps
    again.  The first copy of [parse] ends with its counter at 1; the
    definition and the second copy do not see it.  A second traversal, from
    the store and the world the first one left, does what it does from the
    store the first one found. *)
Lemma run_isolation_witness :
  wf_store nested /\
  exists h1 s1,
    Flow__orchestrate FlowExamples.impl 5 4%nat None nested FlowExamples.fresh
    = Some (Normal VUndefined, h1, s1) /\
    ((fun o => (name (cls o), currentRetry o)) <$> h1)
    = [("Fetch", 0); ("Parse", 0); ("Render", 0); ("Pipeline", 0); ("Pipeline", 0);
       ("Pipeline", 0); ("Fetch", 0); ("Parse", 1); ("Render", 0);
       ("Fetch", 0); ("Parse", 0); ("Render", 0)] /\
    (exists copies, h1 = nested ++ copies) /\
    observe (Flow__orchestrate FlowExamples.impl 5 4%nat None h1 s1)
    = observe (Flow__orchestrate FlowExamples.impl 5 4%nat None nested s1).
Proof.
  split; [exact nested_wf|].
  eexists. eexists. split; [vm_compute; reflexivity|].
  split; [vm_compute; reflexivity|].
  match goal with |- (exists copies, ?h1 = _) /\ observe (_ _ _ _ _ _ ?s1) = _ =>
    destruct (run_isolation FlowExamples.impl nested nested_wf 4%nat None 5%nat
                FlowExamples.fresh s1 (Normal VUndefined) h1)
      as (Hcopies & Hsame & _)
  end.
  - vm_compute. reflexivity.
  - split; [exact Hcopies|]. apply Hsame.
Defined.

(** ** Worked examples: more runs *)

Lemma on_getNextNode_witness :
  BaseNode_getNextNode (BaseNode_on "retry" 3%nat (Node_new Flaky 1 0) (RetryExamples.fresh [])).1
    (VStr "retry") (RetryExamples.fresh [])
  = (Some 3%nat, RetryExamples.fresh []) /\
  forall b, b <> "retry" ->
    _successors (BaseNode_on "retry" 3%nat (Node_new Flaky 1 0) (RetryExamples.fresh [])).1 !! b
    = _successors (Node_new Flaky 1 0) !! b.
Proof.
  apply (on_getNextNode "retry" 3%nat (Node_new Flaky 1 0) (RetryExamples.fresh []) (RetryExamples.fresh [])).
  discriminate.
Defined.

Lemma getNextNode_falsy_witness :
  BaseNode_getNextNode (Node_new Flaky 1 0) (VNum 0) (RetryExamples.fresh [])
  = BaseNode_getNextNode (Node_new Flaky 1 0) (VStr "default") (RetryExamples.fresh []).
Proof.
  apply (getNextNode_falsy (Node_new Flaky 1 0) (VNum 0) (RetryExamples.fresh [])). reflexivity.
Defined.

Lemma retry_no_attempts_witness :
  Node__exec RetryExamples.impl (Node_new Flaky 0 0) (VNum 7) (RetryExamples.fresh [])
  = (Throw unexpected_end, Node_new Flaky 0 0, RetryExamples.fresh []) /\
  forall item rest,
    BatchNode__exec RetryExamples.impl (Node_new Flaky 0 0) (VArr (item :: rest)) (RetryExamples.fresh [])
    = (Throw unexpected_end, Node_new Flaky 0 0, RetryExamples.fresh []) /\
    ParallelBatchNode__exec RetryExamples.impl (Node_new Flaky 0 0) (VArr (item :: rest)) (RetryExamples.fresh [])
    = (Throw unexpected_end, Node_new Flaky 0 0, RetryExamples.fresh []).
Proof.
  apply (retry_no_attempts RetryExamples.impl (Node_new Flaky 0 0) (VNum 7) (RetryExamples.fresh [])).
  simpl. lia.
Defined.

Lemma retry_calls_bound_witness :
  exists evs,
    log (Node__exec RetryExamples.impl (Node_new Hopeless 3 1) (VNum 5) (RetryExamples.fresh [])).2
    = log (RetryExamples.fresh []) ++ evs /\
    (exec_calls evs <= Z.to_nat 3)%nat /\
    (fallback_calls evs <= 1)%nat /\
    (sleep_calls evs <= Z.to_nat 3 - 1)%nat /\
    (fallback_calls evs = 1%nat -> exec_calls evs = Z.to_nat 3).
Proof.
  apply (retry_calls_bound RetryExamples.impl (Node_new Hopeless 3 1) (VNum 5) (RetryExamples.fresh [])).
Defined.

Lemma batch_returns_cycles_witness :
  exists outs,
    VArr [VNum 10; VNum 20; VNum 30] = VArr outs /\
    length outs = length [VNum 1; VNum 2; VNum 3] /\
    item_cycles RetryExamples.impl (Node_new BatchFlaky 2 0) [VNum 1; VNum 2; VNum 3] (RetryExamples.fresh [])
      outs (Node_new BatchFlaky 2 0)
      {| world := [1; 2; 2; 3];
         log := [EvExec (Node_new BatchFlaky 2 0) (VNum 1);
                 EvExec (Node_new BatchFlaky 2 0) (VNum 2);
                 EvExec (set_currentRetry 1 (Node_new BatchFlaky 2 0)) (VNum 2);
                 EvExec (Node_new BatchFlaky 2 0) (VNum 3)];
         sched := [] |}.
Proof.
  apply (batch_returns_cycles RetryExamples.impl (Node_new BatchFlaky 2 0)).
  vm_compute. reflexivity.
Defined.



Lemma flow_no_start_witness :
  _run FlowExamples.impl 1 0%nat [Flow_new Pipeline None] FlowExamples.fresh
  = Some (Throw (VError "Flow has no start node"), [Flow_new Pipeline None],
          emit (EvPrep (Flow_new Pipeline None)) FlowExamples.fresh).
Proof.
  apply (flow_no_start FlowExamples.impl 0 0%nat (Flow_new Pipeline None)
           [Flow_new Pipeline None] FlowExamples.fresh VUndefined);
    reflexivity.
Defined.

(** A flow that starts at a [Parse] step with one attempt only: the step
    fails, [Node]'s fallback throws, and the run of the flow throws. *)
Lemma flow_step_throws_witness :
  exists A' s2,
    _run FlowExamples.impl 2 1%nat
      [Node_new Parse 1 0; Flow_new Pipeline (Some 0%nat)] FlowExamples.fresh
    = Some (Throw (VError "busy"),
            [Node_new Parse 1 0; Flow_new Pipeline (Some 0%nat)] ++ [A'], s2) /\
    world s2 = ["Parse.prep"; "Parse.exec"].
Proof.
  eexists. eexists. split.
  - apply (flow_step_throws FlowExamples.impl 0 1%nat 0%nat
             (Flow_new Pipeline (Some 0%nat)) (Node_new Parse 1 0) _
             [Node_new Parse 1 0; Flow_new Pipeline (Some 0%nat)]
             FlowExamples.fresh VUndefined (VError "busy")
             (emit (EvPrep (Flow_new Pipeline (Some 0%nat))) FlowExamples.fresh));
      reflexivity.
  - reflexivity.
Defined.

Lemma run_direct_witness :
  exists k,
    BaseNode_run FlowExamples.impl 0 0%nat chain FlowExamples.fresh
    = Some ((BaseNode__run FlowExamples.impl fetch
               (emit (EvWarn WarnWontRunSuccessors) FlowExamples.fresh)).1.1,
            <[0%nat := set_currentRetry k fetch]> chain,
            (BaseNode__run FlowExamples.impl fetch
               (emit (EvWarn WarnWontRunSuccessors) FlowExamples.fresh)).2) /\
    (BaseNode__run FlowExamples.impl fetch
       (emit (EvWarn WarnWontRunSuccessors) FlowExamples.fresh)).1.2
    = set_currentRetry k fetch.
Proof.
  apply (run_direct FlowExamples.impl 0 0%nat fetch chain FlowExamples.fresh);
    reflexivity.
Defined.


Import BatchFlowExamples.

(** The [prep] of [BatchFlow] returns the empty batch: [post] is called and
    nothing else, although the flow has no start step. *)
Lemma batch_flow_nothing_witness :
  _run BatchFlowExamples.impl 1 0%nat [Flow_new Idle None] BatchFlowExamples.fresh
  = Some (Normal VUndefined, [Flow_new Idle None],
          {| world := [];
             log := [EvPrep (Flow_new Idle None);
                     EvPost (Flow_new Idle None) (VArr []) VUndefined];
             sched := [] |}).
Proof.
  apply (batch_flow_nothing BatchFlowExamples.impl 0 0%nat (Flow_new Idle None)
           [Flow_new Idle None] BatchFlowExamples.fresh (VArr [])
           (emit (EvPrep (Flow_new Idle None)) BatchFlowExamples.fresh));
    [reflexivity..|].
  left. reflexivity.
Defined.

(** Two parameter sets: the step is run twice, with the name of each. *)
Lemma batch_flow_runs_each_witness :
  exists h' s',
    traversals BatchFlowExamples.impl 1 1%nat [named "ann"; named "bob"]
      (store Everyone)
      (emit (EvPrep (Flow_new Everyone (Some 0%nat))) BatchFlowExamples.fresh)
      h' s' /\
    _run BatchFlowExamples.impl 2 1%nat (store Everyone) BatchFlowExamples.fresh
    = Some (Normal VUndefined, h',
            emit (EvPost (Flow_new Everyone (Some 0%nat))
                    (VArr [named "ann"; named "bob"]) VUndefined) s') /\
    world s' = [VStr "ann"; VStr "bob"].
Proof.
  assert (exists h' s',
            traversals BatchFlowExamples.impl 1 1%nat [named "ann"; named "bob"]
              (store Everyone)
              (emit (EvPrep (Flow_new Everyone (Some 0%nat))) BatchFlowExamples.fresh)
              h' s' /\
            h' !! 1%nat = Some (Flow_new Everyone (Some 0%nat)) /\
            world s' = [VStr "ann"; VStr "bob"]) as (h' & s' & Htrav & Hf & Hw).
  { eexists. eexists. split; [|split].
    - eapply traversals_cons; [reflexivity|vm_compute; reflexivity|].
      eapply traversals_cons; [reflexivity|vm_compute; reflexivity|].
      apply traversals_nil.
    - reflexivity.
    - reflexivity. }
  exists h', s'. split; [exact Htrav|]. split; [|exact Hw].
  apply (batch_flow_runs_each BatchFlowExamples.impl 1 1%nat
           (Flow_new Everyone (Some 0%nat)) (Flow_new Everyone (Some 0%nat))
           (store Everyone) h' [named "ann"; named "bob"] BatchFlowExamples.fresh
           (emit (EvPrep (Flow_new Everyone (Some 0%nat))) BatchFlowExamples.fresh)
           s'); try reflexivity; assumption.
Defined.

(** Three parameter sets, the second with the name the step refuses: the
    batch stops there, and "bob" is never greeted. *)
Lemma batch_flow_stops_witness :
  exists h2 s2,
    _run BatchFlowExamples.impl 2 1%nat (store WithBad) BatchFlowExamples.fresh
    = Some (Throw (VError "bad name"), h2,
            emit (EvWarn (ErrorInBatchFlow (VError "bad name"))) s2) /\
    world s2 = [VStr "ann"].
Proof.
  assert (exists h1 s1 h2 s2,
            traversals BatchFlowExamples.impl 1 1%nat [named "ann"] (store WithBad)
              (emit (EvPrep (Flow_new WithBad (Some 0%nat))) BatchFlowExamples.fresh)
              h1 s1 /\
            h1 !! 1%nat = Some (Flow_new WithBad (Some 0%nat)) /\
            Flow__orchestrate BatchFlowExamples.impl 1 1%nat
              (Some (spread (named "bad") ∪ _params (Flow_new WithBad (Some 0%nat))))
              h1 s1
            = Some (Throw (VError "bad name"), h2, s2) /\
            world s2 = [VStr "ann"])
    as (h1 & s1 & h2 & s2 & Htrav & Hf & Horch & Hw).
  { eexists. eexists. eexists. eexists. split; [|split; [|split]].
    - eapply traversals_cons; [reflexivity|vm_compute; reflexivity|].
      apply traversals_nil.
    - reflexivity.
    - vm_compute. reflexivity.
    - reflexivity. }
  exists h2, s2. split; [|exact Hw].
  apply (batch_flow_stops BatchFlowExamples.impl 1 1%nat
           (Flow_new WithBad (Some 0%nat)) (Flow_new WithBad (Some 0%nat))
           (store WithBad) h1 h2 [named "ann"] [named "bob"] (named "bad")
           (VError "bad name") BatchFlowExamples.fresh
           (emit (EvPrep (Flow_new WithBad (Some 0%nat))) BatchFlowExamples.fresh)
           s1 s2); try reflexivity; assumption.
Defined.

Import PipelineExamples.

(** The pipeline on a video that can be fetched: the four steps leave their
    marks in the shared object, in the order of the pipeline. *)
Lemma pipeline_default_run_witness :
  createYouTubeProcessorFlow classes [] (shared true)
  = Some (4%nat, pipeline_objects classes 0, shared true) /\
  BaseNode_run PipelineExamples.impl 5 4%nat (pipeline_objects classes 0)
    (shared true)
  = Some (Normal VUndefined,
          pipeline_objects classes 0
          ++ [(after_url true).1.2; after_topics.1.2; after_content.1.2;
              after_html.1.2],
          emit (EvPost PipelineExamples.flow VUndefined VUndefined) after_html.2) /\
  world after_html.2
  = {["url" := VStr "u"; "video" := VStr "v"; "video_info" := VStr "v";
      "topics" := VBool true; "content" := VBool true; "html" := VBool true]}.
Proof.
  split; [|split].
  - eapply (proj1 (pipeline_default_run PipelineExamples.impl classes []
             eq_refl eq_refl eq_refl eq_refl eq_refl 5
             (after_url true).1.2 after_topics.1.2 after_content.1.2 after_html.1.2
             (shared true) (after_url true).2 after_topics.2 after_content.2
             after_html.2 eq_refl eq_refl eq_refl eq_refl (Nat.le_refl 5))).
  - apply (pipeline_default_run PipelineExamples.impl classes []
             eq_refl eq_refl eq_refl eq_refl eq_refl 5
             (after_url true).1.2 after_topics.1.2 after_content.1.2 after_html.1.2
             (shared true) (after_url true).2 after_topics.2 after_content.2
             after_html.2); reflexivity.
  - vm_compute. reflexivity.
Defined.

(** The pipeline when the first step answers "error": the run ends there
    and returns as a run that went through does; the other steps have left
    no mark. *)
Lemma pipeline_unknown_action_witness :
  BaseNode_run PipelineExamples.impl 2 4%nat (pipeline_objects classes 0)
    (shared false)
  = Some (Normal VUndefined,
          pipeline_objects classes 0 ++ [(after_url false).1.2],
          emit (EvPost PipelineExamples.flow VUndefined VUndefined)
            (emit (EvWarn (WarnFlowEnds (VStr "error"))) (after_url false).2)) /\
  world (after_url false).2 = {["url" := VStr "u"]}.
Proof.
  split; [|vm_compute; reflexivity].
  apply (pipeline_unknown_action PipelineExamples.impl classes []
           eq_refl eq_refl 2 "error"
           (after_url false).1.2 (shared false) (after_url false).2);
    (reflexivity || discriminate).
Defined.

Lemma extractVideoId_shape_witness :
  exists u pre sep post,
    VStr "https://youtu.be/dQw4w9WgXcQ?t=42" = VStr u /\
    chars u = pre ++ chars sep ++ chars "dQw4w9WgXcQ" ++ post /\
    (sep = "v=" \/ sep = "/") /\
    length (chars "dQw4w9WgXcQ") = 11%nat /\
    forallb is_id_char (chars "dQw4w9WgXcQ") = true.
Proof.
  apply (extractVideoId_shape (VStr "https://youtu.be/dQw4w9WgXcQ?t=42")
           "dQw4w9WgXcQ").
  vm_compute. reflexivity.
Defined.

Lemma extractVideoId_links_witness :
  Forall (fun front =>
            extractVideoId (VStr (front +:+ "dQw4w9WgXcQ" +:+ "&t=42"))
            = Some "dQw4w9WgXcQ")
         [watch_url; short_url; embed_url; app_url].
Proof.
  apply (extractVideoId_links "dQw4w9WgXcQ" "&t=42"); reflexivity.
Defined.
